(** * Approximate Personalized PageRank by local push (AMiner/pprfile.py)

    A shallow embedding of the push engine ([_calc_ppr_node],
    [_calc_gpr_node]), of the batch drivers ([calc_ppr],
    [calc_ppr_topk_parallel], [calc_gpr_topk_parallel]), of the sparse
    assembler ([construct_sparse]) and of the entry points ([ppr_topk],
    [topk_ppr_matrix], [topk_gpr_matrix]), followed by the properties of
    the specification stated over it.

    Numbers.  The source computes in IEEE float32/float64.  The embedding
    computes in exact rational arithmetic ([Qc], canonical rationals):
    rounding, overflow, underflow, infinities and NaN are outside the
    model, and a statement "up to floating-point tolerance" is read as an
    exact statement over the rationals.  Node ids and degrees are unbounded
    integers ([Z]); the wrap-around of int64 is not modelled.

    Control.  The [while] loop of the push engine need not terminate, so
    the loop takes a bound on the number of pops ([fuel]) and reports
    [OutOfFuel] when the bound is reached with a non-empty worklist;
    termination is then a theorem (enough fuel gives a result).

    Runtimes.  [_calc_ppr_node] and [calc_ppr_topk_parallel] are compiled
    by numba: a division by zero raises [ZeroDivisionError], and the
    iterations of [numba.prange] run in parallel.  [_calc_gpr_node] and
    [calc_gpr_topk_parallel] have their decorators commented out and are
    interpreted: a division of NumPy scalars by zero raises nothing, and
    [numba.prange] is [range]. *)

From Stdlib Require Import String Ascii.
From Stdlib Require Import List ZArith QArith Qcanon Qround Bool Lia Lqa Field.
From Stdlib Require Import Permutation Sorted.
Import ListNotations.

Local Open Scope Z_scope.

(** ** Outcomes of a call *)

Inductive exn : Type :=
| ZeroDivisionError
| IndexError
| ValueError (msg : string).

(** [Ok a]: the call returns [a].  [Raise e]: it raises [e].
    [NonFinite]: a NumPy scalar division by zero produced an infinity or
    a NaN (no exception is raised by NumPy there), which the rational
    model cannot follow.  [OutOfFuel]: the bound on pops was reached. *)
Inductive result (A : Type) : Type :=
| Ok (a : A)
| Raise (e : exn)
| NonFinite
| OutOfFuel.

Arguments Ok {A} a.
Arguments Raise {A} e.
Arguments NonFinite {A}.
Arguments OutOfFuel {A}.

Definition bind {A B : Type} (m : result A) (k : A -> result B) : result B :=
  match m with
  | Ok a => k a
  | Raise e => Raise e
  | NonFinite => NonFinite
  | OutOfFuel => OutOfFuel
  end.

Notation "x <- m ;; k" := (bind m (fun x => k))
  (at level 61, m at next level, right associativity).
Notation "' pat <- m ;; k" := (bind m (fun x => match x with pat => k end))
  (at level 61, pat pattern, m at next level, right associativity).

(** ** Numbers *)

Definition of_int (z : Z) : Qc := Q2Qc (inject_Z z).

(** [x >= y] on floats. *)
Definition geb (x y : Qc) : bool := Qle_bool y x.

(** ** Arrays (NumPy, one dimension) *)

(** [a[i]]: a negative index counts from the end.  Out of range, NumPy
    raises [IndexError].  Code compiled by numba does not check bounds: it
    reads outside the array, and what it reads there is not determined by
    the program.  The model does not follow such a run: [IndexError] marks
    it as well, and the properties of compiled code speak of runs whose
    reads are in range. *)
Definition getitem {A : Type} (a : list A) (i : Z) : result A :=
  let n := Z.of_nat (length a) in
  let i' := if i <? 0 then i + n else i in
  if (0 <=? i') && (i' <? n) then
    match nth_error a (Z.to_nat i') with
    | Some x => Ok x
    | None => Raise IndexError
    end
  else Raise IndexError.

(** The bound of a slice: negative bounds count from the end, and the
    result is clipped to [0, len]. *)
Definition slice_bound (n i : Z) : Z :=
  if i <? 0 then Z.max (i + n) 0 else Z.min i n.

(** [a[lo:hi]]. *)
Definition slice {A : Type} (a : list A) (lo hi : Z) : list A :=
  let n := Z.of_nat (length a) in
  let lo' := slice_bound n lo in
  let hi' := slice_bound n hi in
  firstn (Z.to_nat (hi' - lo')) (skipn (Z.to_nat lo') a).

(** [a[lo:]]. *)
Definition slice_from {A : Type} (a : list A) (lo : Z) : list A :=
  skipn (Z.to_nat (slice_bound (Z.of_nat (length a)) lo)) a.

(** ** Dictionaries keyed by node id

    [p] and [r] are dictionaries from node ids to float32.  Python and
    numba dictionaries keep their keys in insertion order, and
    [list(p.keys())], [list(p.values())] return them in that order, so a
    dictionary is an association list in insertion order, without
    repeated keys. *)

Definition dict : Type := list (Z * Qc).

(** [d[k]] when [k in d]. *)
Fixpoint dict_get (k : Z) (d : dict) : option Qc :=
  match d with
  | [] => None
  | (k', v) :: d' => if k =? k' then Some v else dict_get k d'
  end.

(** [d[k] = v]: an existing key keeps its position, a new key goes last. *)
Fixpoint dict_set (k : Z) (v : Qc) (d : dict) : dict :=
  match d with
  | [] => [(k, v)]
  | (k', v') :: d' =>
      if k =? k' then (k, v) :: d' else (k', v') :: dict_set k v d'
  end.

(** [d[k] if k in d else 0]. *)
Definition getd (k : Z) (d : dict) : Qc :=
  match dict_get k d with Some x => x | None => 0%Qc end.

(** [if k in d: d[k] += x else: d[k] = x]. *)
Definition dict_add (k : Z) (x : Qc) (d : dict) : dict :=
  match dict_get k d with
  | Some y => dict_set k (y + x)%Qc d
  | None => dict_set k x d
  end.

Definition keys (d : dict) : list Z := map fst d.
Definition values (d : dict) : list Qc := map snd d.

(** [sum(d.values())]. *)
Definition dict_sum (d : dict) : Qc :=
  fold_right (fun kv acc => (snd kv + acc)%Qc) 0%Qc d.

(** ** The push engine *)

(** The state of the [while] loop.  The worklist [q] is a Python list used
    as a stack: [q.pop()] removes its last element and [q.append] adds one
    at the end.  [st_q] holds it with the LAST element of the Python list
    FIRST, so that the head of [st_q] is the next node popped. *)
Record state : Type := mkState {
  st_p : dict;
  st_r : dict;
  st_q : list Z
}.

(** [vnode in q]. *)
Definition in_list (x : Z) (l : list Z) : bool := existsb (Z.eqb x) l.

Section Push.

(** The CSR adjacency and the degree vector. *)
Variable indptr : list Z.
Variable indices : list Z.
Variable deg : list Z.
Variable alpha : Qc.
Variable epsilon : Qc.

(** [x / deg[unode]] as the caller's runtime evaluates it: code compiled
    by numba raises [ZeroDivisionError] on a zero divisor, NumPy scalars
    return an infinity or a NaN. *)
Variable divide : Qc -> Z -> result Qc.

Definition alpha_eps : Qc := (alpha * epsilon)%Qc.

(** One iteration of the [for vnode in ...] loop (lines 26-35 and
    153-162). *)
Definition push_edge (unode : Z) (res : Qc) (rq : dict * list Z) (vnode : Z)
  : result (dict * list Z) :=
  let '(r, q) := rq in
  du <- getitem deg unode ;;
  _val <- divide ((1 - alpha) * res)%Qc du ;;
  let r := dict_add vnode _val r in
  let res_vnode := getd vnode r in
  dv <- getitem deg vnode ;;
  if geb res_vnode (alpha_eps * of_int dv)%Qc then
    if negb (in_list vnode q) then Ok (r, vnode :: q) else Ok (r, q)
  else Ok (r, q).

(** The [for] loop over the out-neighbours. *)
Fixpoint push_edges (unode : Z) (res : Qc) (rq : dict * list Z)
    (vnodes : list Z) : result (dict * list Z) :=
  match vnodes with
  | [] => Ok rq
  | vnode :: rest =>
      rq' <- push_edge unode res rq vnode ;;
      push_edges unode res rq' rest
  end.

(** The body of the [while] loop, [q] being non-empty: lines 17-35 of
    [_calc_ppr_node], and the same text at lines 144-162 of
    [_calc_gpr_node]. *)
Definition step (st : state) : result state :=
  match st_q st with
  | [] => Raise IndexError
  | unode :: q =>
      let res := getd unode (st_r st) in
      let p := dict_add unode res (st_p st) in
      let r := dict_set unode 0%Qc (st_r st) in
      lo <- getitem indptr unode ;;
      hi <- getitem indptr (unode + 1) ;;
      '(r', q') <- push_edges unode res (r, q) (slice indices lo hi) ;;
      Ok (mkState p r' q')
  end.

(** [while len(q) > 0: ...], at most [fuel] iterations. *)
Fixpoint loop (fuel : nat) (st : state) : result state :=
  match st_q st with
  | [] => Ok st
  | _ :: _ =>
      match fuel with
      | O => OutOfFuel
      | S fuel' => st' <- step st ;; loop fuel' st'
      end
  end.

(** The state after exactly [k] iterations of the loop (fewer when the
    worklist empties first). *)
Fixpoint run (k : nat) (st : state) : result state :=
  match k with
  | O => Ok st
  | S k' =>
      match st_q st with
      | [] => Ok st
      | _ :: _ => st' <- step st ;; run k' st'
      end
  end.

(** The state before the loop of [_calc_ppr_node] (lines 12-15). *)
Definition ppr_init (inode : Z) : state :=
  mkState [(inode, 0%Qc)] [(inode, alpha)] [inode].

(** The state before the loop of [_calc_gpr_node] (lines 138-142): the
    dictionary comprehensions keep the first position of a repeated
    seed, [q.extend] keeps every occurrence. *)
Definition gpr_init (inode_list : list Z) : state :=
  mkState
    (fold_left (fun d inode => dict_set inode 0%Qc d) inode_list [])
    (fold_left (fun d inode => dict_set inode alpha d) inode_list [])
    (rev inode_list).

Definition push_result (st : state) : list Z * list Qc :=
  (keys (st_p st), values (st_p st)).

End Push.

(** Division in code compiled by numba (its default error model). *)
Definition numba_div (x : Qc) (d : Z) : result Qc :=
  if d =? 0 then Raise ZeroDivisionError else Ok (x / of_int d)%Qc.

(** Division of NumPy scalars in interpreted Python. *)
Definition numpy_div (x : Qc) (d : Z) : result Qc :=
  if d =? 0 then NonFinite else Ok (x / of_int d)%Qc.

(** [_calc_ppr_node], compiled by numba. *)
Definition _calc_ppr_node (fuel : nat) (inode : Z) (indptr indices deg : list Z)
    (alpha epsilon : Qc) : result (list Z * list Qc) :=
  st <- loop indptr indices deg alpha epsilon numba_div fuel
          (ppr_init alpha inode) ;;
  Ok (push_result st).

(** [_calc_gpr_node], interpreted (its [numba.njit] decorator is commented
    out). *)
Definition _calc_gpr_node (fuel : nat) (inode_list : list Z)
    (indptr indices deg : list Z) (alpha epsilon : Qc)
    : result (list Z * list Qc) :=
  st <- loop indptr indices deg alpha epsilon numpy_div fuel
          (gpr_init alpha inode_list) ;;
  Ok (push_result st).

(** ** The batch drivers *)

(** [a[idx]] for an array of indices [idx]. *)
Fixpoint index_array {A : Type} (a : list A) (idx : list Z) : result (list A) :=
  match idx with
  | [] => Ok []
  | i :: rest =>
      x <- getitem a i ;;
      xs <- index_array a rest ;;
      Ok (x :: xs)
  end.

(** [l[i] = x] for [i] in [range(len(l))]. *)
Fixpoint setitem {A : Type} (l : list A) (i : nat) (x : A) : list A :=
  match l, i with
  | [], _ => []
  | _ :: l', O => x :: l'
  | y :: l', S i' => y :: setitem l' i' x
  end.

Definition rows : Type := (list (list Z) * list (list Qc))%type.

(** [calc_ppr]: one push per seed, in order. *)
Definition calc_ppr (fuel : nat) (indptr indices deg : list Z)
    (alpha epsilon : Qc) (nodes : list Z) : result rows :=
  fold_left
    (fun acc node =>
       '(js, vals) <- acc ;;
       '(j, val) <- _calc_ppr_node fuel node indptr indices deg alpha epsilon ;;
       Ok (js ++ [j], vals ++ [val]))
    nodes (Ok ([], [])).

Section Drivers.

(** [np.argsort]: the indices that sort an array of values in ascending
    order.  The sort of NumPy and numba is not stable, so the order of
    equal values is not fixed, and [argsort] is a parameter. *)
Variable argsort : list Qc -> list Z.

(** The truncation of a row (lines 59-65 and 179-185). *)
Definition truncate_topk (topk : Z) (j : list Z) (val : list Qc)
  : result (list Z * list Qc) :=
  if 0 <? topk then
    let idx_topk := slice_from (argsort val) (- topk) in
    j' <- index_array j idx_topk ;;
    val' <- index_array val idx_topk ;;
    Ok (j', val')
  else Ok (j, val).

(** Iteration [i] of the loop of [calc_ppr_topk_parallel].  The loop is a
    compiled [numba.prange], and an exception raised inside one of its
    iterations does not reach the caller of the loop: the iteration ends
    where it raises, it has written nothing, and the loop goes on.  The
    exception that the compiled body raises is [ZeroDivisionError].
    ([IndexError] is how the model marks a read outside an array, which
    compiled code does not detect; the model stops there.) *)
Definition ppr_iteration (fuel : nat) (indptr indices deg : list Z)
    (alpha epsilon : Qc) (nodes : list Z) (topk : Z) (out : rows) (i : nat)
  : result rows :=
  let '(js, vals) := out in
  match
    (node <- getitem nodes (Z.of_nat i) ;;
     '(j, val) <- _calc_ppr_node fuel node indptr indices deg alpha epsilon ;;
     truncate_topk topk j val)
  with
  | Ok (j', val') => Ok (setitem js i j', setitem vals i val')
  | Raise ZeroDivisionError => Ok (js, vals)
  | Raise e => Raise e
  | NonFinite => NonFinite
  | OutOfFuel => OutOfFuel
  end.

(** [calc_ppr_topk_parallel].  The iterations of [numba.prange] run on
    several threads; each reads the graph and writes the two slots of its
    own index only, so a run of the loop is one of the orders in which the
    iterations complete.  [sched] is that order, a permutation of
    [range(len(nodes))].  The slots of an iteration that raised keep the
    empty arrays that lines 53-54 put there. *)
Definition calc_ppr_topk_parallel (sched : list nat) (fuel : nat)
    (indptr indices deg : list Z) (alpha epsilon : Qc) (nodes : list Z)
    (topk : Z) : result rows :=
  fold_left
    (fun acc i =>
       out <- acc ;;
       ppr_iteration fuel indptr indices deg alpha epsilon nodes topk out i)
    sched
    (Ok (repeat [] (length nodes), repeat [] (length nodes))).

(** [np.where(train_idx == i)[0]]. *)
Definition where_eq (train_idx : list Z) (i : Z) : list Z :=
  map fst
    (filter (fun kx => snd kx =? i)
       (combine (map Z.of_nat (seq 0 (length train_idx))) train_idx)).

(** Iteration [i] of the loop of [calc_gpr_topk_parallel]. *)
Definition gpr_iteration (fuel : nat) (indptr indices deg : list Z)
    (alpha epsilon : Qc) (train_idx : list Z) (topk : Z) (out : rows)
    (i : nat) : result rows :=
  let '(js, vals) := out in
  let iter_list := where_eq train_idx (Z.of_nat i) in
  '(j, val) <- _calc_gpr_node fuel iter_list indptr indices deg alpha epsilon ;;
  '(j', val') <- truncate_topk topk j val ;;
  Ok (setitem js i j', setitem vals i val').

(** [calc_gpr_topk_parallel], interpreted: [numba.prange] is [range]. *)
Definition calc_gpr_topk_parallel (fuel : nat) (indptr indices deg : list Z)
    (alpha epsilon : Qc) (train_idx : list Z) (cls_size : Z) (topk : Z)
  : result rows :=
  fold_left
    (fun acc i =>
       out <- acc ;;
       gpr_iteration fuel indptr indices deg alpha epsilon train_idx topk
         out i)
    (seq 0 (Z.to_nat cls_size))
    (Ok (repeat [] (Z.to_nat cls_size), repeat [] (Z.to_nat cls_size))).

End Drivers.

(** ** The sparse assembler and the entry points *)

(** A SciPy sparse matrix: its shape and its stored entries as three
    parallel arrays (row index, column index, value), row by row.
    [.tocsr()] re-encodes the same stored entries in compressed rows; the
    model keeps the coordinate arrays. *)
Record sparse : Type := mkSparse {
  sp_shape : Z * Z;
  sp_row : list Z;
  sp_col : list Z;
  sp_data : list Qc
}.

(** A CSR adjacency matrix as the entry points receive it; it has
    [len(indptr) - 1] rows. *)
Record csr : Type := mkCsr {
  csr_indptr : list Z;
  csr_indices : list Z;
  csr_data : list Qc
}.

Definition csr_nrows (a : csr) : Z := Z.of_nat (length (csr_indptr a)) - 1.

(** [np.repeat(np.arange(len(neighbors)), lens)]. *)
Fixpoint repeat_rows (i : Z) (neighbors : list (list Z)) : list Z :=
  match neighbors with
  | [] => []
  | row :: rest => repeat i (length row) ++ repeat_rows (i + 1) rest
  end.

(** The checks of [sp.coo_matrix((data, (i, j)), shape)]. *)
Definition coo_matrix (data : list Qc) (i j : list Z) (shape : Z * Z)
  : result sparse :=
  if negb ((length i =? length j)%nat && (length i =? length data)%nat) then
    Raise (ValueError "row, column, and data array must all be the same length")
  else if existsb (fun x => fst shape <=? x) i then
    Raise (ValueError "row index exceeds matrix dimensions")
  else if existsb (fun x => snd shape <=? x) j then
    Raise (ValueError "column index exceeds matrix dimensions")
  else if existsb (fun x => x <? 0) i then
    Raise (ValueError "negative row index found")
  else if existsb (fun x => x <? 0) j then
    Raise (ValueError "negative column index found")
  else Ok (mkSparse shape i j data).

(** [construct_sparse]; [np.concatenate] refuses an empty list of arrays. *)
Definition construct_sparse (neighbors : list (list Z))
    (weights : list (list Qc)) (shape : Z * Z) : result sparse :=
  match neighbors, weights with
  | [], _ | _, [] => Raise (ValueError "need at least one array to concatenate")
  | _ :: _, _ :: _ =>
      coo_matrix (concat weights) (repeat_rows 0 neighbors) (concat neighbors)
        shape
  end.

(** [np.sum(adj_matrix > 0, axis=1).A1]: per row, the number of stored
    entries that are positive. *)
Definition out_degree (a : csr) : list Z :=
  map
    (fun u =>
       let lo := nth u (csr_indptr a) 0 in
       let hi := nth (S u) (csr_indptr a) 0 in
       Z.of_nat
         (length (filter (fun x : Qc => negb (geb 0%Qc x)) (slice (csr_data a) lo hi))))
    (seq 0 (Z.to_nat (csr_nrows a))).

(** [m[:n, n:]]. *)
Definition sub_block (m : sparse) (n : Z) : sparse :=
  let '(nrows, ncols) := sp_shape m in
  let hi := slice_bound nrows n in
  let lo := slice_bound ncols n in
  let kept :=
    filter (fun e => (fst (fst e) <? hi) && (lo <=? snd (fst e)))
      (combine (combine (sp_row m) (sp_col m)) (sp_data m)) in
  mkSparse (hi, ncols - lo)
    (map (fun e => fst (fst e)) kept)
    (map (fun e => snd (fst e) - lo) kept)
    (map snd kept).

Section Entry.

Variable argsort : list Qc -> list Z.

(** The rescaling of the stored values under 'sym' (lines 103-110) and
    under 'col' (lines 113-119): NumPy array arithmetic over the degrees,
    with a square root under 'sym'.  No property below depends on the
    values they compute, and they are parameters. *)
Variable rescale_sym : csr -> list Z -> sparse -> result sparse.
Variable rescale_col : csr -> list Z -> sparse -> result sparse.

(** [ppr_topk]. *)
Definition ppr_topk (sched : list nat) (fuel : nat) (adj_matrix : csr)
    (alpha epsilon : Qc) (nodes : list Z) (topk : Z) : result sparse :=
  let out_deg := out_degree adj_matrix in
  let nnodes := csr_nrows adj_matrix in
  '(neighbors, weights) <-
    calc_ppr_topk_parallel argsort sched fuel (csr_indptr adj_matrix)
      (csr_indices adj_matrix) out_deg alpha epsilon nodes topk ;;
  construct_sparse neighbors weights (Z.of_nat (length nodes), nnodes).

(** [topk_ppr_matrix] from line 99 on.  [A] is the combined adjacency
    that lines 92-97 build from [adj_matrix] with torch and SciPy, and
    [size0] is [adj_matrix.size(0)]. *)
Definition topk_ppr_matrix (sched : list nat) (fuel : nat) (A : csr)
    (size0 : Z) (flag : bool) (alpha eps : Qc) (idx : list Z) (topk : Z)
    (normalization : string) : result sparse :=
  topk_matrix <- ppr_topk sched fuel A alpha eps idx topk ;;
  topk_matrix <-
    (if String.eqb normalization "sym" then rescale_sym A idx topk_matrix
     else if String.eqb normalization "col" then rescale_col A idx topk_matrix
     else if String.eqb normalization "row" then Ok topk_matrix
     else Raise (ValueError ("Unknown PPR normalization: " ++ normalization))) ;;
  if flag then Ok topk_matrix else Ok (sub_block topk_matrix size0).

(** [np.max(train_idx)]; NumPy refuses an empty array. *)
Definition np_max (a : list Z) : result Z :=
  match a with
  | [] => Raise (ValueError "zero-size array to reduction operation maximum which has no identity")
  | x :: rest => Ok (fold_left Z.max rest x)
  end.

(** [topk_gpr_matrix] (its [print] is left out). *)
Definition topk_gpr_matrix (fuel : nat) (adj_matrix : csr) (alpha eps : Qc)
    (train_idx : list Z) (topk : Z) : result sparse :=
  m <- np_max train_idx ;;
  let cls_size := m + 1 in
  let out_deg := out_degree adj_matrix in
  let nnodes := csr_nrows adj_matrix in
  '(neighbors, weights) <-
    calc_gpr_topk_parallel argsort fuel (csr_indptr adj_matrix)
      (csr_indices adj_matrix) out_deg alpha eps train_idx cls_size topk ;;
  construct_sparse neighbors weights (cls_size, nnodes).

End Entry.

(** ** Well-formed graphs

    The Graph View of the specification: [indptr] has one offset per node
    and one more, the offsets are ordered and within [indices], every
    neighbour id is a node, and the degree of a node is the length of its
    row slice. *)
Definition wf_graphb (indptr indices deg : list Z) : bool :=
  let n := length deg in
  (length indptr =? S n)%nat &&
  forallb (fun v => (0 <=? v) && (v <? Z.of_nat n)) indices &&
  forallb
    (fun u =>
       let lo := nth u indptr 0 in
       let hi := nth (S u) indptr 0 in
       (0 <=? lo) && (lo <=? hi) && (hi <=? Z.of_nat (length indices)) &&
       (nth u deg 0 =? hi - lo))
    (seq 0 n).

Definition wf_graph (indptr indices deg : list Z) : Prop :=
  wf_graphb indptr indices deg = true.

(** [node] is a node of the graph. *)
Definition is_node (deg : list Z) (node : Z) : Prop :=
  0 <= node < Z.of_nat (length deg).

(** The out-neighbours of a node, as the loop of line 25 reads them. *)
Definition neighbours (indptr indices : list Z) (u : Z) : list Z :=
  slice indices (nth (Z.to_nat u) indptr 0) (nth (Z.to_nat (u + 1)) indptr 0).

(** [deg[u]] of a node. *)
Definition degree (deg : list Z) (u : Z) : Z := nth (Z.to_nat u) deg 0.

(** A bound on the number of pops of a push from seed [s]: one for the
    seed, one per out-edge of the seed, and [1 / (alpha * epsilon)] rounded
    up. *)
Definition pop_bound (deg : list Z) (alpha epsilon : Qc) (s : Z) : nat :=
  S (Z.to_nat (degree deg s)
     + Z.to_nat (Qceiling (/ (alpha * epsilon))%Qc)).

(** ** Vocabulary of the properties *)

(** The residual forwarded along each out-edge of [u] (line 26). *)
Definition forwarded (deg : list Z) (alpha : Qc) (u : Z) (res : Qc) : Qc :=
  ((1 - alpha) * res / of_int (degree deg u))%Qc.

(** The worklist after the activation test of lines 33-35. *)
Definition activate (deg : list Z) (alpha epsilon : Qc) (v : Z) (r : dict)
    (q : list Z) : list Z :=
  if geb (getd v r) (alpha_eps alpha epsilon * of_int (degree deg v))%Qc then
    if negb (in_list v q) then v :: q else q
  else q.

(** Every stored value is non-negative. *)
Definition nonneg (d : dict) : Prop := Forall (fun kv => (0 <= snd kv)%Qc) d.

(** The worklist holds nodes, each once, and no residual is negative. *)
Definition base_inv (deg : list Z) (st : state) : Prop :=
  Forall (is_node deg) (st_q st) /\ NoDup (st_q st) /\ nonneg (st_r st).

(** Every node of the worklist passed its activation test. *)
Definition active_inv (deg : list Z) (alpha epsilon : Qc) (st : state) : Prop :=
  forall w, In w (st_q st) ->
    (alpha_eps alpha epsilon * of_int (degree deg w) <= getd w (st_r st))%Qc.

(** Each pop of an active node lowers [measure] by at least [cost]. *)
Definition cost (alpha epsilon : Qc) : Qc :=
  (alpha * alpha_eps alpha epsilon)%Qc.

Definition measure (alpha epsilon : Qc) (st : state) : Qc :=
  (dict_sum (st_r st)
   + cost alpha epsilon * of_int (Z.of_nat (length (st_q st))))%Qc.

(** The scaled balance between settled and residual mass. *)
Definition balanced (alpha : Qc) (st : state) : Prop :=
  (alpha * dict_sum (st_p st) + dict_sum (st_r st) = alpha)%Qc.

(** The worklist is within the invariant and the scaled mass does not
    exceed [alpha]. *)
Definition bounded_mass (deg : list Z) (alpha : Qc) (st : state) : Prop :=
  base_inv deg st /\
  (alpha * dict_sum (st_p st) + dict_sum (st_r st) <= alpha)%Qc.


(** The row under construction: no settled value is negative, the settled
    keys are nodes, the scaled mass does not exceed [alpha], and the seed
    [s] has settled at least [alpha] or still waits in the worklist with a
    residual of at least [alpha]. *)
Definition row_inv (deg : list Z) (alpha : Qc) (s : Z) (st : state) : Prop :=
  nonneg (st_p st) /\
  Forall (is_node deg) (keys (st_p st)) /\
  (alpha * dict_sum (st_p st) + dict_sum (st_r st) <= alpha)%Qc /\
  exists x, dict_get s (st_p st) = Some x /\
            ((alpha <= x)%Qc \/
             (In s (st_q st) /\ (alpha <= getd s (st_r st))%Qc)).

(** Every node outside the worklist has a residual below its activation
    threshold, or no residual at all. *)
Definition quiet (deg : list Z) (alpha epsilon : Qc) (r : dict) (q : list Z)
  : Prop :=
  forall v dv, getitem deg v = Ok dv -> ~ In v q ->
    (getd v r < alpha_eps alpha epsilon * of_int dv)%Qc \/ getd v r = 0%Qc.

(** An out-neighbour of the seed [s] without out-edges. *)
Definition dangling (indptr indices deg : list Z) (s v : Z) : Prop :=
  In v (neighbours indptr indices s) /\ degree deg v = 0.


(** With [alpha = 1], after the first pop: no residual is left, the
    worklist holds out-neighbours of the seed, and [p] is [{s: 1}]
    followed by zero entries of dangling neighbours. *)
Definition settled_one (indptr indices deg : list Z) (s : Z) (st : state)
  : Prop :=
  dict_sum (st_r st) = 0%Qc /\
  (forall w, In w (st_q st) -> In w (neighbours indptr indices s)) /\
  exists p0,
    st_p st = (s, 1%Qc) :: p0 /\
    Forall (fun kv => snd kv = 0%Qc /\ dangling indptr indices deg s (fst kv))
      p0.

(** A loop that writes one row per index, [row i] being the row that
    iteration [i] computes. *)
Definition write_row (row : nat -> result (list Z * list Qc)) (out : rows)
    (i : nat) : result rows :=
  '(j, val) <- row i ;; Ok (setitem (fst out) i j, setitem (snd out) i val).

Definition run_rows (row : nat -> result (list Z * list Qc))
    (sched : list nat) (out : result rows) : result rows :=
  fold_left (fun acc i => out <- acc ;; write_row row out i) sched out.

(** The same loop as a compiled [numba.prange]: an iteration that raises
    [ZeroDivisionError] writes nothing, and the loop goes on. *)
Definition write_row_prange (row : nat -> result (list Z * list Qc))
    (out : rows) (i : nat) : result rows :=
  match row i with
  | Ok (j, val) => Ok (setitem (fst out) i j, setitem (snd out) i val)
  | Raise ZeroDivisionError => Ok out
  | Raise e => Raise e
  | NonFinite => NonFinite
  | OutOfFuel => OutOfFuel
  end.

Definition run_rows_prange (row : nat -> result (list Z * list Qc))
    (sched : list nat) (out : result rows) : result rows :=
  fold_left (fun acc i => out <- acc ;; write_row_prange row out i) sched out.

(** One row after the other, the first failure being the outcome. *)
Fixpoint rows_from (f : Z -> result (list Z * list Qc)) (nodes : list Z)
  : result rows :=
  match nodes with
  | [] => Ok ([], [])
  | node :: rest =>
      '(j, val) <- f node ;;
      '(js, vals) <- rows_from f rest ;;
      Ok (j :: js, val :: vals)
  end.

(** The row that iteration [i] of [calc_ppr_topk_parallel] computes. *)
Definition ppr_row (argsort : list Qc -> list Z) (fuel : nat)
    (indptr indices deg : list Z) (alpha epsilon : Qc) (nodes : list Z)
    (topk : Z) (i : nat) : result (list Z * list Qc) :=
  node <- getitem nodes (Z.of_nat i) ;;
  '(j, val) <- _calc_ppr_node fuel node indptr indices deg alpha epsilon ;;
  truncate_topk argsort topk j val.

(** The row that iteration [i] of [calc_gpr_topk_parallel] computes. *)
Definition gpr_row (argsort : list Qc -> list Z) (fuel : nat)
    (indptr indices deg : list Z) (alpha epsilon : Qc) (train_idx : list Z)
    (topk : Z) (i : nat) : result (list Z * list Qc) :=
  '(j, val) <- _calc_gpr_node fuel (where_eq train_idx (Z.of_nat i)) indptr
                 indices deg alpha epsilon ;;
  truncate_topk argsort topk j val.

(** An entry of [p] that belongs to the seed [s], or whose value is at
    least the activation threshold of its node. *)
Definition above_threshold (deg : list Z) (alpha epsilon : Qc) (s : Z)
    (kv : Z * Qc) : Prop :=
  fst kv = s \/
  (alpha_eps alpha epsilon * of_int (degree deg (fst kv)) <= snd kv)%Qc.

(** The nodes that the edges of the graph reach from one of [seeds]. *)
Inductive reachable (indptr indices : list Z) (seeds : list Z) : Z -> Prop :=
| reach_seed (s : Z) : In s seeds -> reachable indptr indices seeds s
| reach_edge (u v : Z) :
    reachable indptr indices seeds u ->
    In v (neighbours indptr indices u) ->
    reachable indptr indices seeds v.

(** The worklist holds nodes, and the worklist and the settled keys hold
    reachable nodes only. *)
Definition reach_inv (indptr indices deg : list Z) (seeds : list Z)
    (st : state) : Prop :=
  Forall (is_node deg) (st_q st) /\
  Forall (reachable indptr indices seeds) (st_q st) /\
  Forall (reachable indptr indices seeds) (keys (st_p st)).




(** Row [i] of [calc_ppr_topk_parallel], [(j, val)]: as many values as
    ids, the ids are nodes, the values lie between 0 and 1, a truncated
    row has at most [topk] entries, and a full row holds the seed
    [nodes[i]] with a value of at least [alpha]. *)
Definition ppr_row_inv (deg : list Z) (alpha : Qc) (nodes : list Z) (topk : Z)
    (i : nat) (j : list Z) (val : list Qc) : Prop :=
  length j = length val /\
  Forall (is_node deg) j /\
  (forall c v, In (c, v) (combine j val) -> (0 <= v <= 1)%Qc) /\
  (0 < topk -> (length j <= Z.to_nat topk)%nat) /\
  (topk <= 0 -> forall s, nth_error nodes i = Some s ->
     exists v, In (s, v) (combine j val) /\ (alpha <= v)%Qc).

(** Row [i] of [calc_gpr_topk_parallel], [(j, val)]: as many values as
    ids, the ids are nodes, no value is negative, a truncated row has at
    most [topk] entries, and a full row holds every position of
    [train_idx] labelled [i] with a value of at least [alpha]. *)
Definition gpr_row_inv (deg : list Z) (alpha : Qc) (train_idx : list Z)
    (topk : Z) (i : nat) (j : list Z) (val : list Qc) : Prop :=
  length j = length val /\
  Forall (is_node deg) j /\
  (forall c v, In (c, v) (combine j val) -> (0 <= v)%Qc) /\
  (0 < topk -> (length j <= Z.to_nat topk)%nat) /\
  (topk <= 0 -> forall k, nth_error train_idx k = Some (Z.of_nat i) ->
     exists v, In (Z.of_nat k, v) (combine j val) /\ (alpha <= v)%Qc).

(** What the drivers need of [np.argsort]: its result lists every index of
    the array once, by ascending value. *)
Definition argsort_spec (argsort : list Qc -> list Z) : Prop :=
  forall vals : list Qc,
    Permutation (argsort vals) (map Z.of_nat (seq 0 (length vals))) /\
    StronglySorted
      (fun a b => (nth (Z.to_nat a) vals 0 <= nth (Z.to_nat b) vals 0)%Qc)
      (argsort vals).

(** A stable instance of [np.argsort], by insertion. *)
Fixpoint insert_index (vals : list Qc) (i : Z) (sorted : list Z) : list Z :=
  match sorted with
  | [] => [i]
  | k :: rest =>
      if geb (nth (Z.to_nat k) vals 0%Qc) (nth (Z.to_nat i) vals 0%Qc)
      then i :: k :: rest
      else k :: insert_index vals i rest
  end.

Definition insertion_argsort (vals : list Qc) : list Z :=
  fold_right (insert_index vals) [] (map Z.of_nat (seq 0 (length vals))).

(** ** Example inputs *)

Module Examples.

(** Two nodes and the edge 0 -> 1; node 1 has no out-edge. *)
Definition tail_indptr : list Z := [0; 1; 1].
Definition tail_indices : list Z := [1].
Definition tail_deg : list Z := [1; 0].

(** Two nodes and the edges 0 -> 1 and 1 -> 0. *)
Definition cycle_indptr : list Z := [0; 1; 2].
Definition cycle_indices : list Z := [1; 0].
Definition cycle_deg : list Z := [1; 1].
Definition cycle_csr : csr := mkCsr cycle_indptr cycle_indices [1%Qc; 1%Qc].


Definition half : Qc := Q2Qc (1 # 2).
Definition quarter : Qc := Q2Qc (1 # 4).
Definition tenth : Qc := Q2Qc (1 # 10).

End Examples.

Import Examples.

(** * Properties *)

(** ** Rational arithmetic on [Qc] *)

Local Open Scope Qc_scope.

Lemma this_plus (x y : Qc) : (this (x + y) == this x + this y)%Q.
Proof. unfold Qcplus, Q2Qc; cbn [this]; apply Qred_correct. Qed.

Lemma this_mult (x y : Qc) : (this (x * y) == this x * this y)%Q.
Proof. unfold Qcmult, Q2Qc; cbn [this]; apply Qred_correct. Qed.

Lemma this_opp (x : Qc) : (this (- x) == - this x)%Q.
Proof. unfold Qcopp, Q2Qc; cbn [this]; apply Qred_correct. Qed.

Lemma this_minus (x y : Qc) : (this (x - y) == this x - this y)%Q.
Proof. unfold Qcminus. rewrite this_plus, this_opp. reflexivity. Qed.

Lemma this_of_int (z : Z) : (this (of_int z) == inject_Z z)%Q.
Proof. unfold of_int, Q2Qc; cbn [this]; apply Qred_correct. Qed.

(** Moves a goal or hypotheses on [Qc] built from [+], [*], [-] to [Q]. *)
Ltac qc_to_q :=
  unfold Qcle, Qclt in *;
  repeat match goal with
  | |- @eq Qc _ _ => apply Qc_is_canon
  | H : @eq Qc ?x ?y |- _ =>
      let H' := fresh H in
      assert (H' : (this x == this y)%Q) by (rewrite H; reflexivity); clear H
  end;
  repeat (rewrite ?this_plus, ?this_mult, ?this_opp, ?this_minus, ?this_of_int in * );
  change (this 0) with 0%Q in *; change (this 1) with 1%Q in *.

Lemma Qc_le_0_plus (x y : Qc) : 0 <= x -> 0 <= y -> 0 <= x + y.
Proof. intros. qc_to_q. lra. Qed.

Lemma Qc_le_0_mult (x y : Qc) : 0 <= x -> 0 <= y -> 0 <= x * y.
Proof. intros Hx Hy. qc_to_q. apply Qmult_le_0_compat; assumption. Qed.

Lemma Qc_lt_0_mult (x y : Qc) : 0 < x -> 0 < y -> 0 < x * y.
Proof.
  intros Hx Hy. qc_to_q.
  setoid_replace 0%Q with (0 * this y)%Q by ring.
  apply Qmult_lt_compat_r; assumption.
Qed.

Lemma Qc_lt_0_inv (x : Qc) : 0 < x -> 0 < / x.
Proof.
  intros Hx. unfold Qclt in *.
  assert (E : (this (/ x) == / this x)%Q)
    by (unfold Qcinv, Q2Qc; cbn [this]; apply Qred_correct).
  rewrite E. apply Qinv_lt_0_compat. assumption.
Qed.

Lemma of_int_pos (z : Z) : (0 < z)%Z -> 0 < of_int z.
Proof.
  intros Hz. qc_to_q. change 0%Q with (inject_Z 0). rewrite <- Zlt_Qlt. lia.
Qed.

Lemma of_int_nonneg (z : Z) : (0 <= z)%Z -> 0 <= of_int z.
Proof.
  intros Hz. qc_to_q. change 0%Q with (inject_Z 0). rewrite <- Zle_Qle. lia.
Qed.

Lemma of_int_le (a b : Z) : (a <= b)%Z -> of_int a <= of_int b.
Proof. intros H. qc_to_q. rewrite <- Zle_Qle. lia. Qed.

Lemma of_int_plus (a b : Z) : of_int (a + b) = of_int a + of_int b.
Proof. qc_to_q. rewrite inject_Z_plus. reflexivity. Qed.

Lemma of_int_neq_0 (z : Z) : z <> 0%Z -> of_int z <> 0.
Proof.
  intros Hz H. apply Hz. qc_to_q.
  change 0%Q with (inject_Z 0) in H0. rewrite inject_Z_injective in H0. assumption.
Qed.

Lemma geb_true (x y : Qc) : geb x y = true <-> y <= x.
Proof. unfold geb, Qcle. apply Qle_bool_iff. Qed.

Lemma geb_false (x y : Qc) : geb x y = false <-> x < y.
Proof.
  unfold geb, Qclt. split; intros H.
  - apply Qnot_le_lt. intros Hle. apply Qle_bool_iff in Hle. congruence.
  - destruct (Qle_bool y x) eqn:E; [|reflexivity].
    apply Qle_bool_iff in E. exfalso. revert E. apply Qlt_not_le. assumption.
Qed.

(** ** Arrays and well-formed graphs *)

Local Open Scope Z_scope.

Lemma getitem_ok {A : Type} (a : list A) (i : Z) (d : A) :
  0 <= i < Z.of_nat (length a) -> getitem a i = Ok (nth (Z.to_nat i) a d).
Proof.
  intros Hi. unfold getitem.
  destruct (i <? 0) eqn:E; [apply Z.ltb_lt in E; lia|].
  replace ((0 <=? i) && (i <? Z.of_nat (length a))) with true
    by (symmetry; apply andb_true_iff; split; [apply Z.leb_le|apply Z.ltb_lt]; lia).
  destruct (nth_error a (Z.to_nat i)) eqn:En.
  - erewrite nth_error_nth by eassumption. reflexivity.
  - apply nth_error_None in En. lia.
Qed.

Lemma slice_bound_id (n i : Z) : 0 <= i <= n -> slice_bound n i = i.
Proof.
  intros Hi. unfold slice_bound.
  destruct (i <? 0) eqn:E; [apply Z.ltb_lt in E; lia|lia].
Qed.

Lemma slice_length {A : Type} (a : list A) (lo hi : Z) :
  0 <= lo <= hi -> hi <= Z.of_nat (length a) ->
  length (slice a lo hi) = Z.to_nat (hi - lo).
Proof.
  intros H1 H2. unfold slice.
  rewrite !slice_bound_id by lia.
  rewrite length_firstn, length_skipn. lia.
Qed.

Lemma slice_incl {A : Type} (a : list A) (lo hi : Z) (x : A) :
  In x (slice a lo hi) -> In x a.
Proof.
  unfold slice. intros H.
  set (s := skipn _ a) in H.
  rewrite <- (firstn_skipn (Z.to_nat (slice_bound (Z.of_nat (length a)) lo)) a).
  apply in_or_app. right. fold s.
  rewrite <- (firstn_skipn
    (Z.to_nat (slice_bound (Z.of_nat (length a)) hi
               - slice_bound (Z.of_nat (length a)) lo)) s).
  apply in_or_app. left. exact H.
Qed.

Lemma slice_empty {A : Type} (a : list A) (lo : Z) : slice a lo lo = [].
Proof. unfold slice. rewrite Z.sub_diag. reflexivity. Qed.

(** What well-formedness gives at a node. *)
Lemma wf_graph_node (indptr indices deg : list Z) (u : Z) :
  wf_graph indptr indices deg -> is_node deg u ->
  getitem indptr u = Ok (nth (Z.to_nat u) indptr 0) /\
  getitem indptr (u + 1) = Ok (nth (Z.to_nat (u + 1)) indptr 0) /\
  getitem deg u = Ok (degree deg u) /\
  Z.of_nat (length (neighbours indptr indices u)) = degree deg u /\
  Forall (is_node deg) (neighbours indptr indices u).
Proof.
  unfold wf_graph, wf_graphb, is_node. intros Hwf Hu.
  apply andb_true_iff in Hwf. destruct Hwf as [Hwf Hrows].
  apply andb_true_iff in Hwf. destruct Hwf as [Hlen Hidx].
  apply Nat.eqb_eq in Hlen.
  rewrite forallb_forall in Hrows. specialize (Hrows (Z.to_nat u)).
  rewrite in_seq in Hrows.
  assert (Hr := Hrows ltac:(lia)). clear Hrows.
  rewrite !andb_true_iff in Hr. destruct Hr as [[[H0 H1] H2] H3].
  apply Z.leb_le in H0, H1, H2. apply Z.eqb_eq in H3.
  replace (Z.to_nat (u + 1)) with (S (Z.to_nat u)) by lia.
  repeat split.
  - apply getitem_ok. lia.
  - erewrite getitem_ok by lia.
    replace (Z.to_nat (u + 1)) with (S (Z.to_nat u)) by lia. reflexivity.
  - apply getitem_ok. lia.
  - unfold neighbours, degree.
    replace (Z.to_nat (u + 1)) with (S (Z.to_nat u)) by lia.
    rewrite slice_length by lia. lia.
  - apply Forall_forall. intros x Hx. apply slice_incl in Hx.
    rewrite forallb_forall in Hidx. apply Hidx in Hx.
    apply andb_true_iff in Hx. destruct Hx as [Hx1 Hx2].
    apply Z.leb_le in Hx1. apply Z.ltb_lt in Hx2. lia.
Qed.

(** ** Dictionaries *)

Lemma dict_get_set_eq (k : Z) (v : Qc) (d : dict) :
  dict_get k (dict_set k v d) = Some v.
Proof.
  induction d as [|[k' v'] d IH]; simpl.
  - rewrite Z.eqb_refl. reflexivity.
  - destruct (k =? k') eqn:E; simpl; rewrite ?Z.eqb_refl, ?E; auto.
Qed.

Lemma dict_get_set_neq (k k' : Z) (v : Qc) (d : dict) :
  k' <> k -> dict_get k' (dict_set k v d) = dict_get k' d.
Proof.
  intros Hne. induction d as [|[k0 v0] d IH]; simpl.
  - destruct (k' =? k) eqn:E; [apply Z.eqb_eq in E; contradiction|reflexivity].
  - destruct (k =? k0) eqn:E; simpl.
    + apply Z.eqb_eq in E. subst k0.
      destruct (k' =? k) eqn:E'; [apply Z.eqb_eq in E'; contradiction|reflexivity].
    + rewrite IH. reflexivity.
Qed.

Lemma getd_set_eq (k : Z) (v : Qc) (d : dict) : getd k (dict_set k v d) = v.
Proof. unfold getd. rewrite dict_get_set_eq. reflexivity. Qed.

Lemma getd_set_neq (k k' : Z) (v : Qc) (d : dict) :
  k' <> k -> getd k' (dict_set k v d) = getd k' d.
Proof. intros H. unfold getd. rewrite dict_get_set_neq by assumption. reflexivity. Qed.

Lemma getd_add_eq (k : Z) (x : Qc) (d : dict) :
  getd k (dict_add k x d) = (getd k d + x)%Qc.
Proof.
  unfold dict_add, getd at 2.
  destruct (dict_get k d); rewrite getd_set_eq; [reflexivity|ring].
Qed.

Lemma getd_add_neq (k k' : Z) (x : Qc) (d : dict) :
  k' <> k -> getd k' (dict_add k x d) = getd k' d.
Proof.
  intros H. unfold dict_add.
  destruct (dict_get k d); apply getd_set_neq; assumption.
Qed.

Lemma dict_sum_set (k : Z) (v : Qc) (d : dict) :
  dict_sum (dict_set k v d) = (dict_sum d - getd k d + v)%Qc.
Proof.
  induction d as [|[k' v'] d IH]; unfold getd; simpl.
  - ring.
  - destruct (k =? k') eqn:E; simpl.
    + ring.
    + rewrite IH. unfold getd. ring.
Qed.

Lemma dict_sum_add (k : Z) (x : Qc) (d : dict) :
  dict_sum (dict_add k x d) = (dict_sum d + x)%Qc.
Proof.
  unfold dict_add. destruct (dict_get k d) eqn:E;
    rewrite dict_sum_set; unfold getd; rewrite E; ring.
Qed.

Lemma nonneg_get (k : Z) (d : dict) (x : Qc) :
  nonneg d -> dict_get k d = Some x -> (0 <= x)%Qc.
Proof.
  intros Hd. induction Hd as [|[k' v'] d Hv Hd IH]; simpl; [discriminate|].
  destruct (k =? k'); [intros [= <-]; exact Hv|exact IH].
Qed.

Lemma nonneg_getd (k : Z) (d : dict) : nonneg d -> (0 <= getd k d)%Qc.
Proof.
  intros Hd. unfold getd. destruct (dict_get k d) eqn:E.
  - eapply nonneg_get; eassumption.
  - apply Qcle_refl.
Qed.

Lemma nonneg_set (k : Z) (v : Qc) (d : dict) :
  nonneg d -> (0 <= v)%Qc -> nonneg (dict_set k v d).
Proof.
  intros Hd Hv. induction Hd as [|[k' v'] d Hv' Hd IH]; simpl.
  - constructor; [exact Hv|constructor].
  - destruct (k =? k'); constructor; auto.
Qed.

Lemma nonneg_add (k : Z) (x : Qc) (d : dict) :
  nonneg d -> (0 <= x)%Qc -> nonneg (dict_add k x d).
Proof.
  intros Hd Hx. unfold dict_add. destruct (dict_get k d) eqn:E.
  - apply nonneg_set; [assumption|].
    apply Qc_le_0_plus; [eapply nonneg_get; eassumption|assumption].
  - apply nonneg_set; assumption.
Qed.

Lemma nonneg_sum (d : dict) : nonneg d -> (0 <= dict_sum d)%Qc.
Proof.
  intros Hd. induction Hd as [|[k v] d Hv Hd IH]; simpl.
  - apply Qcle_refl.
  - apply Qc_le_0_plus; assumption.
Qed.

Lemma dict_get_keys (k : Z) (d : dict) :
  dict_get k d = None <-> ~ In k (keys d).
Proof.
  induction d as [|[k' v] d IH]; cbn.
  - split; [intros _ []|reflexivity].
  - destruct (k =? k') eqn:E.
    + apply Z.eqb_eq in E. subst. split; [discriminate|].
      intros H. exfalso. apply H. left. reflexivity.
    + apply Z.eqb_neq in E. rewrite IH. split.
      * intros H [H'|H']; [congruence|contradiction].
      * intros H H'. apply H. right. assumption.
Qed.

Lemma keys_dict_set_present (k : Z) (v : Qc) (d : dict) :
  In k (keys d) -> keys (dict_set k v d) = keys d.
Proof.
  induction d as [|[k' v'] d IH]; cbn; [intros []|].
  destruct (k =? k') eqn:E.
  - apply Z.eqb_eq in E. subst. reflexivity.
  - apply Z.eqb_neq in E. intros [H|H]; [congruence|].
    cbn. f_equal. apply IH. assumption.
Qed.

Lemma keys_dict_set_absent (k : Z) (v : Qc) (d : dict) :
  ~ In k (keys d) -> keys (dict_set k v d) = keys d ++ [k].
Proof.
  induction d as [|[k' v'] d IH]; cbn; [reflexivity|].
  intros H. destruct (k =? k') eqn:E.
  - apply Z.eqb_eq in E. subst. exfalso. apply H. left. reflexivity.
  - cbn. f_equal. apply IH. intros H'. apply H. right. assumption.
Qed.

(** [d[k] = v] and [d[k] += x] keep the keys and their order, and add [k]
    at the end when it is new. *)
Lemma keys_dict_set (k : Z) (v : Qc) (d : dict) :
  keys (dict_set k v d) = keys d \/
  (~ In k (keys d) /\ keys (dict_set k v d) = keys d ++ [k]).
Proof.
  destruct (in_dec Z.eq_dec k (keys d)) as [H|H].
  - left. apply keys_dict_set_present. assumption.
  - right. split; [assumption|apply keys_dict_set_absent; assumption].
Qed.

Lemma keys_dict_add (k : Z) (x : Qc) (d : dict) :
  keys (dict_add k x d) = keys d \/
  (~ In k (keys d) /\ keys (dict_add k x d) = keys d ++ [k]).
Proof. unfold dict_add. destruct (dict_get k d); apply keys_dict_set. Qed.

Lemma keys_dict_add_in (k : Z) (x : Qc) (d : dict) :
  In k (keys (dict_add k x d)).
Proof.
  destruct (in_dec Z.eq_dec k (keys d)) as [H|H].
  - unfold dict_add. destruct (dict_get k d);
      rewrite keys_dict_set_present; assumption.
  - unfold dict_add. destruct (dict_get k d);
      rewrite keys_dict_set_absent by assumption;
      apply in_or_app; right; left; reflexivity.
Qed.

Lemma keys_dict_add_nodup (k : Z) (x : Qc) (d : dict) :
  NoDup (keys d) -> NoDup (keys (dict_add k x d)).
Proof.
  intros Hd. destruct (keys_dict_add k x d) as [E|[Hnin E]]; rewrite E.
  - assumption.
  - apply NoDup_app; [assumption|constructor; [intros []|constructor]|].
    intros y Hy [<-|[]]. contradiction.
Qed.

Lemma keys_dict_set_nodup (k : Z) (v : Qc) (d : dict) :
  NoDup (keys d) -> NoDup (keys (dict_set k v d)).
Proof.
  intros Hd. destruct (keys_dict_set k v d) as [E|[Hnin E]]; rewrite E.
  - assumption.
  - apply NoDup_app; [assumption|constructor; [intros []|constructor]|].
    intros y Hy [<-|[]]. contradiction.
Qed.

Lemma keys_dict_add_prefix (k : Z) (x : Qc) (d : dict) :
  exists tail, keys (dict_add k x d) = keys d ++ tail.
Proof.
  destruct (keys_dict_add k x d) as [E|[_ E]]; rewrite E.
  - exists []. rewrite app_nil_r. reflexivity.
  - exists [k]. reflexivity.
Qed.

Lemma in_list_true (x : Z) (l : list Z) : in_list x l = true <-> In x l.
Proof.
  unfold in_list. rewrite existsb_exists. split.
  - intros [y [Hy E]]. apply Z.eqb_eq in E. subst. assumption.
  - intros H. exists x. split; [assumption|apply Z.eqb_refl].
Qed.

Lemma in_list_false (x : Z) (l : list Z) : in_list x l = false <-> ~ In x l.
Proof.
  rewrite <- in_list_true. destruct (in_list x l); split; congruence.
Qed.

(** ** One iteration of the loop on a well-formed graph *)

Section StepFacts.

Variables indptr indices deg : list Z.
Variables alpha epsilon : Qc.
Hypothesis Hwf : wf_graph indptr indices deg.

Local Abbreviation thr v := (alpha_eps alpha epsilon * of_int (degree deg v))%Qc.
Local Abbreviation push_edge' := (push_edge deg alpha epsilon numba_div).
Local Abbreviation push_edges' := (push_edges deg alpha epsilon numba_div).
Local Abbreviation step' := (step indptr indices deg alpha epsilon numba_div).
Local Abbreviation loop' := (loop indptr indices deg alpha epsilon numba_div).
Local Abbreviation run' := (run indptr indices deg alpha epsilon numba_div).
Local Abbreviation fwd := (forwarded deg alpha).
Local Abbreviation act := (activate deg alpha epsilon).

Lemma push_edge_ok (u v : Z) (res : Qc) (r : dict) (q : list Z) :
  is_node deg u -> degree deg u <> 0 -> is_node deg v ->
  push_edge' u res (r, q) v =
  Ok (dict_add v (fwd u res) r,
      act v (dict_add v (fwd u res) r) q).
Proof.
  intros Hu Hd Hv. unfold push_edge.
  destruct (wf_graph_node _ _ _ u Hwf Hu) as (_ & _ & Hgu & _).
  destruct (wf_graph_node _ _ _ v Hwf Hv) as (_ & _ & Hgv & _).
  rewrite Hgu. cbn [bind]. unfold numba_div.
  destruct (degree deg u =? 0) eqn:E; [apply Z.eqb_eq in E; contradiction|].
  cbn [bind]. rewrite Hgv. cbn [bind]. unfold activate, fwd.
  destruct (geb _ _); [destruct (negb _)|]; reflexivity.
Qed.

Lemma activate_cases (v : Z) (r : dict) (q : list Z) :
  act v r q = q \/
  (act v r q = v :: q /\ ~ In v q /\ (thr v <= getd v r)%Qc).
Proof.
  unfold activate. destruct (geb _ _) eqn:G; [|left; reflexivity].
  destruct (in_list v q) eqn:I; cbn [negb]; [left; reflexivity|].
  right. repeat split.
  - apply in_list_false. assumption.
  - apply geb_true. assumption.
Qed.

(** The [for] loop over a list of nodes [vs], from [(r, q)]: it succeeds,
    adds [fwd u res] to the residual of every node of [vs], and
    appends to the worklist nodes of [vs] that pass the activation test. *)
Lemma push_edges_spec (u : Z) (res : Qc) (vs : list Z) :
  is_node deg u -> degree deg u <> 0 -> Forall (is_node deg) vs ->
  forall (r : dict) (q : list Z),
  exists (r' : dict) (added : list Z),
    push_edges' u res (r, q) vs = Ok (r', added ++ q) /\
    dict_sum r' =
      (dict_sum r + of_int (Z.of_nat (length vs)) * fwd u res)%Qc /\
    ((0 <= fwd u res)%Qc -> nonneg r -> nonneg r') /\
    ((0 <= fwd u res)%Qc -> forall w, (getd w r <= getd w r')%Qc) /\
    (NoDup q -> NoDup (added ++ q)) /\
    incl added vs /\
    (length added <= length vs)%nat /\
    ((0 <= fwd u res)%Qc ->
     forall w, In w added -> (thr w <= getd w r')%Qc).
Proof.
  intros Hu Hd Hvs. induction Hvs as [|v vs Hv Hvs IH]; intros r q.
  - exists r, []. cbn [push_edges app length]. repeat split; auto.
    + change (of_int (Z.of_nat 0)) with 0%Qc. ring.
    + intros _ w. apply Qcle_refl.
    + apply incl_refl.
    + intros _ w [].
  - cbn [push_edges]. rewrite push_edge_ok by assumption. cbn [bind].
    set (r1 := dict_add v (fwd u res) r).
    destruct (IH r1 (act v r1 q))
      as (r' & added & Hrun & Hsum & Hnn & Hmono & Hnd & Hincl & Hlen & Hthr).
    assert (Hmono1 : (0 <= fwd u res)%Qc ->
                     forall w, (getd w r <= getd w r1)%Qc).
    { intros Hpos w. unfold r1. destruct (Z.eq_dec w v) as [->|Hne].
      - rewrite getd_add_eq. qc_to_q. lra.
      - rewrite getd_add_neq by assumption. apply Qcle_refl. }
    assert (Hsum' : dict_sum r' =
      (dict_sum r + of_int (Z.of_nat (length (v :: vs))) * fwd u res)%Qc).
    { rewrite Hsum. unfold r1. rewrite dict_sum_add.
      cbn [length]. rewrite Nat2Z.inj_succ, <- Z.add_1_r, of_int_plus.
      change (of_int 1) with 1%Qc. ring. }
    destruct (activate_cases v r1 q) as [Eq|(Eq & Hnin & Hge)]; rewrite Eq in *.
    + exists r', added. repeat split; auto.
      * intros Hpos Hr. apply Hnn; [assumption|]. apply nonneg_add; assumption.
      * intros Hpos w. eapply Qcle_trans; [apply Hmono1|apply Hmono]; assumption.
      * apply incl_tl. assumption.
      * cbn [length]. lia.
    + exists r', (added ++ [v]). rewrite <- app_assoc. cbn [app].
      repeat split; auto.
      * intros Hpos Hr. apply Hnn; [assumption|]. apply nonneg_add; assumption.
      * intros Hpos w. eapply Qcle_trans; [apply Hmono1|apply Hmono]; assumption.
      * intros Hq. apply Hnd. constructor; assumption.
      * apply incl_app; [apply incl_tl; assumption|].
        intros x [<-|[]]. left. reflexivity.
      * rewrite length_app. cbn [length]. lia.
      * intros Hpos w Hw. apply in_app_or in Hw. destruct Hw as [Hw|[<-|[]]].
        -- apply Hthr; assumption.
        -- eapply Qcle_trans; [exact Hge|apply Hmono; assumption].
Qed.

Lemma degree_nonneg (u : Z) : is_node deg u -> 0 <= degree deg u.
Proof.
  intros Hu. destruct (wf_graph_node _ _ _ u Hwf Hu) as (_ & _ & _ & Hlen & _).
  lia.
Qed.

Lemma forwarded_nonneg (u : Z) (res : Qc) :
  is_node deg u -> (0 <= alpha <= 1)%Qc -> (0 <= res)%Qc ->
  (0 <= fwd u res)%Qc.
Proof.
  intros Hu [Ha0 Ha1] Hres. unfold forwarded, Qcdiv.
  apply Qc_le_0_mult; [apply Qc_le_0_mult; [|assumption]|].
  - qc_to_q. lra.
  - destruct (Z.eq_dec (degree deg u) 0) as [->|Hne].
    + apply Qcle_refl.
    + apply Qclt_le_weak, Qc_lt_0_inv, of_int_pos.
      pose proof (degree_nonneg u Hu). lia.
Qed.

(** All the edges of a node together forward [(1 - alpha) * res]. *)
Lemma forwarded_total (u : Z) (res : Qc) :
  degree deg u <> 0 ->
  (of_int (degree deg u) * fwd u res = (1 - alpha) * res)%Qc.
Proof.
  intros Hne. unfold forwarded. field. apply of_int_neq_0. assumption.
Qed.

(** One iteration of the [while] loop pops [u], settles its residual and
    pushes along its out-edges; it raises nothing. *)
Lemma step_spec (p r : dict) (u : Z) (q : list Z) :
  is_node deg u ->
  exists (r' : dict) (added : list Z),
    step' (mkState p r (u :: q)) =
      Ok (mkState (dict_add u (getd u r) p) r' (added ++ q)) /\
    (degree deg u = 0 -> r' = dict_set u 0%Qc r /\ added = []) /\
    dict_sum r' =
      (dict_sum r - getd u r
       + of_int (degree deg u) * fwd u (getd u r))%Qc /\
    ((0 <= fwd u (getd u r))%Qc -> nonneg r -> nonneg r') /\
    ((0 <= fwd u (getd u r))%Qc ->
     forall w, w <> u -> (getd w r <= getd w r')%Qc) /\
    (NoDup q -> NoDup (added ++ q)) /\
    incl added (neighbours indptr indices u) /\
    Z.of_nat (length added) <= degree deg u /\
    ((0 <= fwd u (getd u r))%Qc ->
     forall w, In w added -> (thr w <= getd w r')%Qc).
Proof.
  intros Hu. unfold step. cbn [st_q st_r st_p].
  destruct (wf_graph_node _ _ _ u Hwf Hu) as (Hlo & Hhi & _ & Hlen & Hnb).
  rewrite Hlo, Hhi. cbn [bind]. fold (neighbours indptr indices u).
  set (res := getd u r). set (r0 := dict_set u 0%Qc r).
  assert (Hsum0 : dict_sum r0 = (dict_sum r - res)%Qc).
  { unfold r0. rewrite dict_sum_set. fold res. ring. }
  destruct (Z.eq_dec (degree deg u) 0) as [Hd|Hd].
  - assert (Hnil : neighbours indptr indices u = [])
      by (apply length_zero_iff_nil; lia).
    rewrite Hnil. cbn [push_edges bind]. exists r0, [].
    cbn [app length]. split; [reflexivity|]. split; [intros _; split; reflexivity|].
    repeat split; auto.
    + rewrite Hsum0, Hd. change (of_int 0) with 0%Qc. ring.
    + intros _ Hr. apply nonneg_set; [assumption|apply Qcle_refl].
    + intros _ w Hw. unfold r0. rewrite getd_set_neq by assumption.
      apply Qcle_refl.
    + intros x [].
    + lia.
    + intros _ w [].
  - destruct (push_edges_spec u res (neighbours indptr indices u) Hu Hd Hnb r0 q)
      as (r' & added & Hrun & Hsum & Hnn & Hmono & Hnd & Hincl & Hl & Hthr).
    rewrite Hrun. cbn [bind]. exists r', added.
    split; [reflexivity|]. split; [intros Hd0; contradiction|].
    repeat split; auto.
    + rewrite Hsum, Hsum0, Hlen. reflexivity.
    + intros Hf Hr. apply Hnn; [assumption|].
      apply nonneg_set; [assumption|apply Qcle_refl].
    + intros Hf w Hw. eapply Qcle_trans; [|apply Hmono; assumption].
      unfold r0. rewrite getd_set_neq by assumption. apply Qcle_refl.
    + lia.
Qed.

End StepFacts.

(** ** Invariants of the loop and termination *)

Section Invariants.

Variables indptr indices deg : list Z.
Variables alpha epsilon : Qc.
Hypothesis Hwf : wf_graph indptr indices deg.
Hypothesis Halpha : (0 <= alpha <= 1)%Qc.

Local Abbreviation thr v := (alpha_eps alpha epsilon * of_int (degree deg v))%Qc.
Local Abbreviation step' := (step indptr indices deg alpha epsilon numba_div).
Local Abbreviation loop' := (loop indptr indices deg alpha epsilon numba_div).
Local Abbreviation run' := (run indptr indices deg alpha epsilon numba_div).
Local Abbreviation fwd := (forwarded deg alpha).
Local Abbreviation base := (base_inv deg).
Local Abbreviation active := (active_inv deg alpha epsilon).

(** What one iteration does to a state that satisfies [base]. *)
Lemma step_base (st : state) (u : Z) (q : list Z) :
  base st -> st_q st = u :: q ->
  exists (r' : dict) (added : list Z),
    step' st = Ok (mkState (dict_add u (getd u (st_r st)) (st_p st)) r'
                     (added ++ q)) /\
    base (mkState (dict_add u (getd u (st_r st)) (st_p st)) r'
                (added ++ q)) /\
    (0 <= getd u (st_r st))%Qc /\
    dict_sum r' =
      (dict_sum (st_r st) - getd u (st_r st)
       + of_int (degree deg u) * fwd u (getd u (st_r st)))%Qc /\
    (degree deg u = 0 -> added = []) /\
    Z.of_nat (length added) <= degree deg u /\
    (forall w, In w added -> (thr w <= getd w r')%Qc) /\
    (forall w, In w q -> (getd w (st_r st) <= getd w r')%Qc).
Proof.
  destruct st as [p r q0]. cbn [st_q st_r st_p].
  intros (Hq & Hnd & Hr) ->.
  inversion Hq as [|? ? Hu Hq']; subst.
  inversion Hnd as [|? ? Hnin Hnd']; subst.
  assert (Hres : (0 <= getd u r)%Qc) by (apply nonneg_getd; assumption).
  assert (Hf : (0 <= fwd u (getd u r))%Qc)
    by (apply (forwarded_nonneg indptr indices deg alpha Hwf); assumption).
  destruct (step_spec indptr indices deg alpha epsilon Hwf p r u q Hu)
    as (r' & added & Hstep & Hd0 & Hsum & Hnn & Hmono & Hnd2 & Hincl & Hlen & Hthr).
  exists r', added. split; [exact Hstep|].
  destruct (wf_graph_node _ _ _ u Hwf Hu) as (_ & _ & _ & _ & Hnb).
  repeat split; cbn [st_q st_r st_p]; auto.
  - apply Forall_app. split; [|assumption].
    apply Forall_forall. intros x Hx. apply Hincl in Hx.
    rewrite Forall_forall in Hnb. apply Hnb. assumption.
  - intros Hd. apply Hd0. assumption.
  - intros w Hw. apply Hmono; [assumption|]. intros ->. contradiction.
Qed.

(** Invariants are inherited by every state the loop reaches. *)
Lemma run_invariant (J : state -> Prop) :
  (forall st st', J st -> st_q st <> [] -> step' st = Ok st' -> J st') ->
  forall k st st', J st -> run' k st = Ok st' -> J st'.
Proof.
  intros HJ. induction k as [|k IH]; intros st st' Hst Hrun.
  - cbn in Hrun. injection Hrun as <-. assumption.
  - cbn [run] in Hrun. destruct (st_q st) eqn:Eq.
    + injection Hrun as <-. assumption.
    + destruct (step' st) as [st1| | |] eqn:Es; cbn [bind] in Hrun;
        try discriminate.
      apply (IH st1 st'); [|assumption].
      apply (HJ st st1); [assumption|congruence|assumption].
Qed.

Lemma step_base_inv (st st' : state) :
  base st -> st_q st <> [] -> step' st = Ok st' -> base st'.
Proof.
  intros Hb Hq Hs. destruct (st_q st) as [|u q] eqn:Eq; [contradiction|].
  destruct (step_base st u q Hb Eq) as (r' & added & Hstep & Hb' & _).
  rewrite Hstep in Hs. injection Hs as <-. assumption.
Qed.


Lemma ppr_init_base (s : Z) : is_node deg s -> base (ppr_init alpha s).
Proof.
  intros Hs. unfold base_inv, ppr_init. cbn [st_q st_r].
  repeat split.
  - constructor; [assumption|constructor].
  - constructor; [intros []|constructor].
  - constructor; [apply Halpha|constructor].
Qed.

End Invariants.

Lemma Qc_mult_le_l (x y z : Qc) : (0 <= z -> x <= y -> z * x <= z * y)%Qc.
Proof.
  intros Hz Hxy. rewrite (Qcmult_comm z x), (Qcmult_comm z y).
  apply Qcmult_le_compat_r; assumption.
Qed.

Lemma of_nat_nonneg (n : nat) : (0 <= of_int (Z.of_nat n))%Qc.
Proof. apply of_int_nonneg. lia. Qed.

Lemma measure_step_arith (R res X c a Lq : Qc) :
  (X + c * a <= res ->
   R - res + X + c * (a + Lq) + c <= R + c * (Lq + 1))%Qc.
Proof. intros H. qc_to_q. nra. Qed.

Section Termination.

Variables indptr indices deg : list Z.
Variables alpha epsilon : Qc.
Hypothesis Hwf : wf_graph indptr indices deg.
Hypothesis Halpha : (0 < alpha)%Qc /\ (alpha <= 1)%Qc.
Hypothesis Heps : (0 < epsilon)%Qc.

Local Abbreviation thr v := (alpha_eps alpha epsilon * of_int (degree deg v))%Qc.
Local Abbreviation step' := (step indptr indices deg alpha epsilon numba_div).
Local Abbreviation loop' := (loop indptr indices deg alpha epsilon numba_div).
Local Abbreviation run' := (run indptr indices deg alpha epsilon numba_div).
Local Abbreviation fwd := (forwarded deg alpha).
Local Abbreviation base := (base_inv deg).
Local Abbreviation active := (active_inv deg alpha epsilon).
Local Abbreviation costq := (cost alpha epsilon).
Local Abbreviation mu := (measure alpha epsilon).

Let Halpha' : (0 <= alpha <= 1)%Qc.
Proof. split; [apply Qclt_le_weak|]; apply Halpha. Qed.

Lemma alpha_eps_pos : (0 < alpha_eps alpha epsilon)%Qc.
Proof. apply Qc_lt_0_mult; [apply Halpha|apply Heps]. Qed.

Lemma cost_pos : (0 < costq)%Qc.
Proof. apply Qc_lt_0_mult; [apply Halpha|apply alpha_eps_pos]. Qed.

Lemma step_measure (st : state) (u : Z) (q : list Z) :
  base st -> active st -> st_q st = u :: q ->
  exists st',
    step' st = Ok st' /\ base st' /\ active st' /\
    (mu st' + costq <= mu st)%Qc /\
    st_p st' = dict_add u (getd u (st_r st)) (st_p st) /\
    (0 <= getd u (st_r st))%Qc.
Proof.
  intros Hb Ha Eq.
  destruct (step_base indptr indices deg alpha epsilon Hwf Halpha' st u q Hb Eq)
    as (r' & added & Hstep & Hb' & Hres & Hsum & Hd0 & Hlen & Hthr & Hmono).
  eexists. split; [exact Hstep|]. split; [exact Hb'|].
  split; [|split; [|split; [reflexivity|exact Hres]]].
  - intros w Hw. cbn [st_q st_r] in *. apply in_app_or in Hw.
    destruct Hw as [Hw|Hw]; [apply Hthr; assumption|].
    eapply Qcle_trans; [|apply Hmono; assumption].
    apply Ha. rewrite Eq. right. assumption.
  - unfold measure. cbn [st_q st_r]. rewrite Hsum, Eq.
    rewrite length_app. cbn [length].
    rewrite Nat2Z.inj_add, Nat2Z.inj_succ, <- Z.add_1_r, !of_int_plus.
    change (of_int 1) with 1%Qc.
    set (R := dict_sum (st_r st)). set (res := getd u (st_r st)) in *.
    set (Lq := of_int (Z.of_nat (length q))).
    set (a := of_int (Z.of_nat (length added))).
    assert (Hu : (thr u <= res)%Qc) by (apply Ha; rewrite Eq; left; reflexivity).
    assert (Hkey : (of_int (degree deg u) * fwd u res + costq * a <= res)%Qc).
    { destruct (Z.eq_dec (degree deg u) 0) as [E|E].
      - rewrite E. unfold a. rewrite (Hd0 E). cbn [length].
        change (of_int (Z.of_nat 0)) with 0%Qc. change (of_int 0) with 0%Qc.
        replace (0 * fwd u res + costq * 0)%Qc with 0%Qc by ring. assumption.
      - rewrite (forwarded_total deg alpha u res E).
        assert (H1 : (costq * a <= alpha * res)%Qc).
        { unfold cost. rewrite <- Qcmult_assoc. apply Qc_mult_le_l; [apply Halpha'|].
          eapply Qcle_trans; [|exact Hu].
          apply Qc_mult_le_l; [apply Qclt_le_weak, alpha_eps_pos|].
          apply of_int_le. assumption. }
        clearbody res a. qc_to_q. lra. }
    apply measure_step_arith. exact Hkey.
Qed.

Lemma measure_lower (st : state) :
  nonneg (st_r st) ->
  (costq * of_int (Z.of_nat (length (st_q st))) <= mu st)%Qc.
Proof.
  intros Hr. unfold measure. pose proof (nonneg_sum _ Hr) as Hs.
  generalize dependent (dict_sum (st_r st)). intros S HS.
  generalize (costq * of_int (Z.of_nat (length (st_q st))))%Qc. intros x.
  qc_to_q. lra.
Qed.

(** The loop terminates within [fuel] pops when [measure] is at most
    [fuel] times [cost]; an invariant [J] of the iterations holds at the
    end. *)
Lemma loop_terminates (J : state -> Prop) :
  (forall st st', base st -> active st -> J st -> st_q st <> [] ->
                  step' st = Ok st' -> J st') ->
  forall (fuel : nat) (st : state),
    base st -> active st -> J st ->
    (mu st <= costq * of_int (Z.of_nat fuel))%Qc ->
    exists st', loop' fuel st = Ok st' /\ st_q st' = [] /\ base st' /\ J st'.
Proof.
  intros HJ. induction fuel as [|fuel IH]; intros st Hb Ha Hj Hm.
  - destruct (st_q st) as [|u q] eqn:Eq.
    + exists st. cbn [loop]. rewrite Eq. auto.
    + exfalso. pose proof (measure_lower st (proj2 (proj2 Hb))) as Hl.
      rewrite Eq in Hl. cbn [length] in Hl.
      assert (Hp : (0 < costq * of_int (Z.of_nat (S (length q))))%Qc)
        by (apply Qc_lt_0_mult; [apply cost_pos|apply of_int_pos; lia]).
      change (of_int (Z.of_nat 0)) with 0%Qc in Hm.
      revert Hp Hl Hm. generalize (costq * of_int (Z.of_nat (S (length q))))%Qc.
      generalize (mu st). generalize costq. intros c m x Hp Hl Hm.
      qc_to_q. lra.
  - cbn [loop]. destruct (st_q st) as [|u q] eqn:Eq.
    + exists st. auto.
    + destruct (step_measure st u q Hb Ha Eq)
        as (st1 & Hstep & Hb1 & Ha1 & Hm1 & _).
      rewrite Hstep. cbn [bind]. apply IH; try assumption.
      * apply (HJ st st1); try assumption. rewrite Eq. discriminate.
      * rewrite Nat2Z.inj_succ, <- Z.add_1_r, of_int_plus in Hm.
        change (of_int 1) with 1%Qc in Hm.
        revert Hm Hm1. generalize (of_int (Z.of_nat fuel)).
        generalize (mu st) (mu st1) costq. intros m m1 c f Hm Hm1.
        qc_to_q. lra.
Qed.

Lemma ceiling_pays :
  (alpha <=
   costq * of_int (Z.of_nat (Z.to_nat (Qceiling (/ (alpha * epsilon))%Qc))))%Qc.
Proof.
  set (K := Qceiling (/ (alpha * epsilon))%Qc).
  assert (H1 : (/ (alpha * epsilon) <= of_int K)%Qc).
  { unfold Qcle. rewrite this_of_int. apply Qle_ceiling. }
  assert (H2 : (of_int K <= of_int (Z.of_nat (Z.to_nat K)))%Qc)
    by (apply of_int_le; lia).
  assert (H3 : (alpha = costq * / (alpha * epsilon))%Qc).
  { unfold cost, alpha_eps. field.
    split; apply Qclt_not_eq in Heps; destruct Halpha as [Ha _];
      apply Qclt_not_eq in Ha; congruence. }
  rewrite H3 at 1. apply Qc_mult_le_l; [apply Qclt_le_weak, cost_pos|].
  eapply Qcle_trans; eassumption.
Qed.

(** The push from a seed terminates within [pop_bound] pops; a property
    [J] that the first pop establishes and the later ones keep holds at
    the end. *)
Lemma ppr_loop_total (J : state -> Prop) (s : Z) :
  is_node deg s ->
  (forall st', step' (ppr_init alpha s) = Ok st' -> J st') ->
  (forall st st', base st -> active st -> J st -> st_q st <> [] ->
                  step' st = Ok st' -> J st') ->
  forall fuel : nat,
    (pop_bound deg alpha epsilon s <= fuel)%nat ->
    exists st', loop' fuel (ppr_init alpha s) = Ok st' /\ st_q st' = [] /\
                base st' /\ J st'.
Proof.
  intros Hs Hfirst HJ fuel Hfuel. unfold pop_bound in Hfuel.
  destruct fuel as [|fuel]; [lia|].
  pose proof (ppr_init_base deg alpha Halpha' s Hs) as Hb0.
  destruct (step_base indptr indices deg alpha epsilon Hwf Halpha'
              (ppr_init alpha s) s [] Hb0 eq_refl)
    as (r' & added & Hstep & Hb' & Hres & Hsum & Hd0 & Hlen & Hthr & _).
  cbn [loop ppr_init st_q]. fold (ppr_init alpha s). rewrite Hstep. cbn [bind].
  apply (loop_terminates J HJ).
  - exact Hb'.
  - intros w Hw. cbn [st_q st_r] in *. rewrite app_nil_r in Hw.
    apply Hthr. assumption.
  - apply Hfirst. exact Hstep.
  - unfold measure. cbn [st_q st_r]. rewrite app_nil_r, Hsum.
    cbn [ppr_init st_r dict_sum fold_right snd].
    unfold getd. cbn [dict_get]. rewrite Z.eqb_refl.
    set (K := Z.to_nat (Qceiling (/ (alpha * epsilon))%Qc)) in *.
    assert (Hf : (of_int (degree deg s) + of_int (Z.of_nat K)
                  <= of_int (Z.of_nat fuel))%Qc).
    { rewrite <- of_int_plus. apply of_int_le.
      pose proof (degree_nonneg indptr indices deg Hwf s Hs). lia. }
    assert (Ha : (of_int (Z.of_nat (length added)) <= of_int (degree deg s))%Qc)
      by (apply of_int_le; assumption).
    assert (HF : (of_int (degree deg s) * fwd s alpha <= alpha)%Qc).
    { destruct (Z.eq_dec (degree deg s) 0) as [E|E].
      - rewrite E. change (of_int 0) with 0%Qc. rewrite Qcmult_0_l.
        apply Halpha'.
      - rewrite (forwarded_total deg alpha s alpha E).
        destruct Halpha' as [A0 A1]. clear - A0 A1. qc_to_q. nra. }
    pose proof ceiling_pays as HK. fold K in HK.
    pose proof cost_pos as Hc.
    revert Hf Ha HF HK Hc.
    generalize (of_int (degree deg s) * fwd s alpha)%Qc.
    generalize (of_int (Z.of_nat (length added))) (of_int (degree deg s))
      (of_int (Z.of_nat K)) (of_int (Z.of_nat fuel)) costq.
    intros a D k f c X Hf Ha HF HK Hc.
    clear - Hf Ha HF HK Hc. qc_to_q. nra.
Qed.

End Termination.

(** ** Loops that write one row per index *)

Local Open Scope nat_scope.

Lemma nth_error_setitem_eq {A : Type} (l : list A) (i : nat) (x : A) :
  i < length l -> nth_error (setitem l i x) i = Some x.
Proof.
  revert i. induction l as [|y l IH]; intros [|i] Hi; cbn in *; try lia.
  - reflexivity.
  - apply IH. lia.
Qed.

Lemma nth_error_setitem_neq {A : Type} (l : list A) (i k : nat) (x : A) :
  k <> i -> nth_error (setitem l i x) k = nth_error l k.
Proof.
  revert i k. induction l as [|y l IH]; intros [|i] [|k] Hne; cbn; try reflexivity.
  - contradiction.
  - apply IH. lia.
Qed.

Lemma length_setitem {A : Type} (l : list A) (i : nat) (x : A) :
  length (setitem l i x) = length l.
Proof.
  revert i. induction l as [|y l IH]; intros [|i]; cbn; try reflexivity.
  rewrite IH. reflexivity.
Qed.

Lemma nth_error_ext {A : Type} (l1 l2 : list A) :
  (forall i, nth_error l1 i = nth_error l2 i) -> l1 = l2.
Proof.
  revert l2. induction l1 as [|x l1 IH]; intros [|y l2] H.
  - reflexivity.
  - specialize (H 0). discriminate.
  - specialize (H 0). discriminate.
  - pose proof (H 0) as H0. cbn in H0. injection H0 as ->.
    f_equal. apply IH. intros i. exact (H (S i)).
Qed.

Section Schedule.

(** The row that iteration [i] computes. *)
Variable row : nat -> result (list Z * list Qc).

Local Abbreviation write := (write_row row).
Local Abbreviation runs := (run_rows row).

Lemma run_rows_cons (i : nat) (sched : list nat) (out : rows) :
  runs (i :: sched) (Ok out) = runs sched (write out i).
Proof. reflexivity. Qed.

Lemma run_rows_not_ok (sched : list nat) (out : result rows) :
  (forall o, out <> Ok o) -> runs sched out = out.
Proof.
  intros H. destruct out as [o| | |]; [exfalso; apply (H o); reflexivity| | |];
    induction sched as [|i sched IH]; cbn; auto.
Qed.

(** A run returns if and only if every scheduled iteration returns; the
    slot of a scheduled index then holds its row, and the other slots are
    untouched. *)
Lemma run_rows_spec (sched : list nat) :
  forall (js0 : list (list Z)) (vals0 : list (list Qc)) js vals,
  runs sched (Ok (js0, vals0)) = Ok (js, vals) ->
  length js = length js0 /\ length vals = length vals0 /\
  (forall i, In i sched -> exists j val,
      row i = Ok (j, val) /\
      (i < length js0 -> nth_error js i = Some j) /\
      (i < length vals0 -> nth_error vals i = Some val)) /\
  (forall i, ~ In i sched ->
      nth_error js i = nth_error js0 i /\
      nth_error vals i = nth_error vals0 i).
Proof.
  induction sched as [|i0 sched IH]; intros js0 vals0 js vals Hrun.
  - cbn in Hrun. injection Hrun as <- <-. repeat split; auto.
    intros i [].
  - rewrite run_rows_cons in Hrun. unfold write_row in Hrun.
    cbn [fst snd] in Hrun.
    destruct (row i0) as [[j0 v0]| | |] eqn:E0; cbn [bind] in Hrun;
      try (rewrite run_rows_not_ok in Hrun;
           [discriminate|intros o; discriminate]).
    apply IH in Hrun. rewrite !length_setitem in Hrun.
    destruct Hrun as (Hl1 & Hl2 & Hin & Hout).
    repeat split; auto.
    + intros i Hi. destruct (in_dec Nat.eq_dec i sched) as [Hs|Hs].
      * apply Hin. assumption.
      * destruct Hi as [<-|Hi]; [|contradiction].
        exists j0, v0. destruct (Hout i0 Hs) as [H1 H2].
        split; [assumption|]. split; intros Hlt.
        -- rewrite H1. apply nth_error_setitem_eq. assumption.
        -- rewrite H2. apply nth_error_setitem_eq. assumption.
    + destruct (Hout i) as [H1 _]; [intros Hs; apply H; right; assumption|].
      rewrite H1. apply nth_error_setitem_neq. intros ->. apply H. left. reflexivity.
    + destruct (Hout i) as [_ H2]; [intros Hs; apply H; right; assumption|].
      rewrite H2. apply nth_error_setitem_neq. intros ->. apply H. left. reflexivity.
Qed.

Lemma run_rows_total (sched : list nat) :
  (forall i, In i sched -> exists jv, row i = Ok jv) ->
  forall out, exists out', runs sched (Ok out) = Ok out'.
Proof.
  induction sched as [|i0 sched IH]; intros Hall out; cbn.
  - eexists. reflexivity.
  - destruct (Hall i0 (or_introl eq_refl)) as [[j v] E].
    unfold write_row. rewrite E. cbn [bind]. apply IH.
    intros i Hi. apply Hall. right. assumption.
Qed.

Local Abbreviation write_prange := (write_row_prange row).
Local Abbreviation runs_prange := (run_rows_prange row).

Lemma run_rows_prange_cons (i : nat) (sched : list nat) (out : rows) :
  runs_prange (i :: sched) (Ok out) = runs_prange sched (write_prange out i).
Proof. reflexivity. Qed.

Lemma run_rows_prange_not_ok (sched : list nat) (out : result rows) :
  (forall o, out <> Ok o) -> runs_prange sched out = out.
Proof.
  intros H. destruct out as [o| | |]; [exfalso; apply (H o); reflexivity| | |];
    induction sched as [|i sched IH]; cbn; auto.
Qed.

(** When every scheduled iteration returns, the compiled loop is the plain
    loop. *)
Lemma run_rows_prange_ok (sched : list nat) :
  (forall i, In i sched -> exists jv, row i = Ok jv) ->
  forall out, runs_prange sched (Ok out) = runs sched (Ok out).
Proof.
  induction sched as [|i0 sched IH]; intros Hall out; [reflexivity|].
  rewrite run_rows_prange_cons, run_rows_cons.
  destruct (Hall i0 (or_introl eq_refl)) as [[j v] E].
  unfold write_row_prange, write_row. rewrite E. cbn [bind].
  apply IH. intros i Hi. apply Hall. right. assumption.
Qed.

(** A run of the compiled loop returns if and only if every scheduled
    iteration returns or raises [ZeroDivisionError]; the slot of an
    iteration that returned holds its row, and the other slots are
    untouched. *)
Lemma run_rows_prange_spec (sched : list nat) :
  forall (js0 : list (list Z)) (vals0 : list (list Qc)) js vals,
  runs_prange sched (Ok (js0, vals0)) = Ok (js, vals) ->
  length js = length js0 /\ length vals = length vals0 /\
  (forall i, In i sched ->
     (exists j val,
        row i = Ok (j, val) /\
        (i < length js0 -> nth_error js i = Some j) /\
        (i < length vals0 -> nth_error vals i = Some val)) \/
     (row i = Raise ZeroDivisionError /\
      nth_error js i = nth_error js0 i /\
      nth_error vals i = nth_error vals0 i)) /\
  (forall i, ~ In i sched ->
      nth_error js i = nth_error js0 i /\
      nth_error vals i = nth_error vals0 i).
Proof.
  induction sched as [|i0 sched IH]; intros js0 vals0 js vals Hrun.
  - cbn in Hrun. injection Hrun as <- <-. repeat split; auto.
    intros i [].
  - rewrite run_rows_prange_cons in Hrun. unfold write_row_prange in Hrun.
    cbn [fst snd] in Hrun.
    destruct (row i0) as [[j0 v0]|e| |] eqn:E0;
      try (rewrite run_rows_prange_not_ok in Hrun;
           [discriminate|intros o; discriminate]).
    + apply IH in Hrun. rewrite !length_setitem in Hrun.
      destruct Hrun as (Hl1 & Hl2 & Hin & Hout).
      split; [assumption|]. split; [assumption|]. split.
      * intros i Hi. destruct (in_dec Nat.eq_dec i sched) as [Hs|Hs].
        -- destruct (Hin i Hs) as [Hok|(Hr & H1 & H2)]; [left; exact Hok|].
           right. split; [assumption|].
           assert (Hne : i <> i0) by (intros ->; congruence).
           rewrite H1, H2.
           split; apply nth_error_setitem_neq; assumption.
        -- destruct Hi as [<-|Hi]; [|contradiction].
           left. exists j0, v0. destruct (Hout i0 Hs) as [H1 H2].
           split; [assumption|]. split; intros Hlt.
           ++ rewrite H1. apply nth_error_setitem_eq. assumption.
           ++ rewrite H2. apply nth_error_setitem_eq. assumption.
      * intros i Hni.
        destruct (Hout i) as [H1 H2];
          [intros Hs; apply Hni; right; assumption|].
        assert (Hne : i <> i0) by (intros ->; apply Hni; left; reflexivity).
        rewrite H1, H2. split; apply nth_error_setitem_neq; assumption.
    + destruct e as [| |msg];
        try (rewrite run_rows_prange_not_ok in Hrun;
             [discriminate|intros o; discriminate]).
      apply IH in Hrun. destruct Hrun as (Hl1 & Hl2 & Hin & Hout).
      split; [assumption|]. split; [assumption|]. split.
      * intros i Hi. destruct (in_dec Nat.eq_dec i sched) as [Hs|Hs].
        -- apply Hin. assumption.
        -- destruct Hi as [<-|Hi]; [|contradiction].
           right. split; [assumption|]. apply Hout. assumption.
      * intros i Hni. apply Hout. intros Hs. apply Hni. right. assumption.
Qed.

End Schedule.

Local Open Scope Z_scope.

(** ** Top-k truncation *)

Lemma insert_index_perm (vals : list Qc) (i : Z) (l : list Z) :
  Permutation (insert_index vals i l) (i :: l).
Proof.
  induction l as [|k l IH]; cbn.
  - apply Permutation_refl.
  - destruct (geb _ _).
    + apply Permutation_refl.
    + eapply perm_trans; [apply perm_skip; exact IH|apply perm_swap].
Qed.

Lemma insert_index_sorted (vals : list Qc) (i : Z) (l : list Z) :
  let le := fun a b => (nth (Z.to_nat a) vals 0 <= nth (Z.to_nat b) vals 0)%Qc in
  StronglySorted le l -> StronglySorted le (insert_index vals i l).
Proof.
  intros le Hl. induction Hl as [|k l Hl IH Hk]; cbn.
  - constructor; constructor.
  - destruct (geb _ _) eqn:G.
    + apply geb_true in G. constructor; [constructor; assumption|].
      constructor; [exact G|].
      rewrite Forall_forall in *. intros x Hx. unfold le.
      eapply Qcle_trans; [exact G|]. apply Hk. assumption.
    + apply geb_false in G. constructor; [exact IH|].
      rewrite Forall_forall in *. intros x Hx.
      apply (Permutation_in _ (insert_index_perm vals i l)) in Hx.
      destruct Hx as [<-|Hx]; [apply Qclt_le_weak; exact G|apply Hk; assumption].
Qed.

Lemma insertion_argsort_spec : argsort_spec insertion_argsort.
Proof.
  intros vals. unfold insertion_argsort.
  generalize (map Z.of_nat (seq 0 (length vals))). intros l. split.
  - induction l as [|i l IH]; cbn; [constructor|].
    eapply perm_trans; [apply insert_index_perm|apply perm_skip; exact IH].
  - induction l as [|i l IH]; cbn; [constructor|].
    apply insert_index_sorted. exact IH.
Qed.

Lemma index_array_ok {A : Type} (a : list A) (d : A) (idx : list Z) :
  Forall (fun i => 0 <= i < Z.of_nat (length a)) idx ->
  index_array a idx = Ok (map (fun i => nth (Z.to_nat i) a d) idx).
Proof.
  intros H. induction H as [|i idx Hi H IH]; cbn.
  - reflexivity.
  - rewrite (getitem_ok a i d Hi), IH. reflexivity.
Qed.

Lemma map_nth_seq {A : Type} (l : list A) (d : A) :
  map (fun i => nth (Z.to_nat i) l d) (map Z.of_nat (seq 0 (length l))) = l.
Proof.
  rewrite map_map. apply nth_error_ext. intros i.
  rewrite nth_error_map. destruct (nth_error l i) eqn:E.
  - assert (Hi : (i < length l)%nat) by (apply nth_error_Some; congruence).
    rewrite (nth_error_nth' (seq 0 (length l)) 0%nat)
      by (rewrite length_seq; assumption).
    cbn [option_map]. rewrite seq_nth by assumption. cbn [Nat.add].
    rewrite Nat2Z.id. f_equal. apply nth_error_nth. assumption.
  - apply nth_error_None in E.
    assert (E' : nth_error (seq 0 (length l)) i = None)
      by (apply nth_error_None; rewrite length_seq; assumption).
    rewrite E'. reflexivity.
Qed.

Lemma StronglySorted_app_le {A : Type} (R : A -> A -> Prop) (l1 l2 : list A) :
  StronglySorted R (l1 ++ l2) ->
  forall a b, In a l1 -> In b l2 -> R a b.
Proof.
  induction l1 as [|x l1 IH]; cbn; intros H a b Ha Hb; [contradiction|].
  inversion H as [|? ? Hs Hx]; subst.
  destruct Ha as [<-|Ha].
  - rewrite Forall_forall in Hx. apply Hx. apply in_or_app. right. assumption.
  - apply IH; assumption.
Qed.

(** The truncation with [topk > 0] keeps [min(topk, len)] entries of the
    row, and no kept entry has a lower value than an omitted one. *)
Lemma truncate_topk_spec (argsort : list Qc -> list Z) (topk : Z)
    (j : list Z) (val : list Qc) :
  argsort_spec argsort -> length j = length val -> 0 < topk ->
  exists (j' : list Z) (val' : list Qc) (omitted : list (Z * Qc)),
    truncate_topk argsort topk j val = Ok (j', val') /\
    length j' = Nat.min (Z.to_nat topk) (length j) /\
    length val' = length j' /\
    Permutation (combine j val) (combine j' val' ++ omitted) /\
    (forall x y, In x (combine j' val') -> In y omitted ->
                 (snd y <= snd x)%Qc).
Proof.
  intros Hspec Hlen Htopk. destruct (Hspec val) as [Hperm Hsorted].
  unfold truncate_topk. destruct (0 <? topk) eqn:E; [|apply Z.ltb_ge in E; lia].
  unfold slice_from.
  assert (HlenA : length (argsort val) = length val).
  { rewrite (Permutation_length Hperm), length_map, length_seq. reflexivity. }
  set (m := Z.to_nat (slice_bound (Z.of_nat (length (argsort val))) (- topk))).
  assert (Hm : m = (length val - Nat.min (Z.to_nat topk) (length val))%nat).
  { unfold m, slice_bound. rewrite HlenA.
    destruct (- topk <? 0) eqn:E'; [|apply Z.ltb_ge in E'; lia]. lia. }
  set (idx := skipn m (argsort val)).
  set (dropped := firstn m (argsort val)).
  assert (Hsplit : argsort val = dropped ++ idx)
    by (symmetry; apply firstn_skipn).
  assert (Hrange : Forall (fun i => 0 <= i < Z.of_nat (length val)) (argsort val)).
  { apply Forall_forall. intros i Hi.
    apply (Permutation_in _ Hperm) in Hi. apply in_map_iff in Hi.
    destruct Hi as (k & <- & Hk). apply in_seq in Hk. lia. }
  assert (Hidx : Forall (fun i => 0 <= i < Z.of_nat (length val)) idx).
  { rewrite Hsplit in Hrange. apply Forall_app in Hrange. apply Hrange. }
  rewrite (index_array_ok j 0 idx) by (rewrite Hlen; exact Hidx).
  rewrite (index_array_ok val 0%Qc idx) by exact Hidx.
  cbn [bind].
  set (entry := fun i : Z => nth (Z.to_nat i) (combine j val) (0, 0%Qc)).
  assert (Hentry : forall l,
    combine (map (fun i => nth (Z.to_nat i) j 0) l)
            (map (fun i => nth (Z.to_nat i) val 0%Qc) l) = map entry l).
  { induction l as [|i l IH]; cbn; [reflexivity|].
    rewrite IH. unfold entry at 2. rewrite combine_nth by assumption. reflexivity. }
  assert (Hlidx : length idx = Nat.min (Z.to_nat topk) (length j)).
  { unfold idx. rewrite length_skipn, HlenA, Hm, Hlen. lia. }
  eexists _, _, (map entry dropped). split; [reflexivity|].
  rewrite !length_map.
  split; [exact Hlidx|]. split; [reflexivity|]. rewrite Hentry. split.
  - rewrite <- map_app.
    rewrite <- (map_nth_seq (combine j val) (0, 0%Qc)) at 1.
    fold entry. apply Permutation_map.
    rewrite length_combine, Hlen, Nat.min_id.
    eapply perm_trans; [apply Permutation_sym; exact Hperm|].
    rewrite Hsplit. apply Permutation_app_comm.
  - intros x y Hx Hy. apply in_map_iff in Hx, Hy.
    destruct Hx as (b & <- & Hb). destruct Hy as (a & <- & Ha).
    unfold entry. rewrite !combine_nth by assumption. cbn [snd].
    rewrite Hsplit in Hsorted.
    apply (StronglySorted_app_le _ _ _ Hsorted a b Ha Hb).
Qed.

(** ** The batch drivers as maps over their rows *)

Lemma calc_ppr_rows_from (fuel : nat) (indptr indices deg : list Z)
    (alpha epsilon : Qc) (nodes : list Z) :
  calc_ppr fuel indptr indices deg alpha epsilon nodes =
  rows_from (fun node => _calc_ppr_node fuel node indptr indices deg alpha epsilon)
    nodes.
Proof.
  unfold calc_ppr.
  set (f := fun node => _calc_ppr_node fuel node indptr indices deg alpha epsilon).
  match goal with |- fold_left ?b _ _ = _ => set (body := b) end.
  assert (Hfail : forall l (acc : result rows),
            (forall o, acc <> Ok o) -> fold_left body l acc = acc).
  { intros l acc H.
    destruct acc as [o| | |]; [exfalso; apply (H o); reflexivity| | |];
      induction l as [|n l IH]; cbn; auto. }
  assert (Hgen : forall l js vals,
            fold_left body l (Ok (js, vals)) =
            ('(js', vals') <- rows_from f l ;; Ok (js ++ js', vals ++ vals'))).
  { induction l as [|n l IH]; intros js vals; cbn [fold_left rows_from bind].
    - rewrite !app_nil_r. reflexivity.
    - unfold body at 2. cbn [bind].
      change (_calc_ppr_node fuel n indptr indices deg alpha epsilon) with (f n).
      destruct (f n) as [[j v]| | |]; cbn [bind];
        try (apply Hfail; intros o; discriminate).
      rewrite IH. destruct (rows_from f l) as [[js' vals']| | |]; cbn [bind];
        try reflexivity.
      rewrite <- !app_assoc. reflexivity. }
  rewrite Hgen. destruct (rows_from f nodes) as [[js vals]| | |]; reflexivity.
Qed.

Lemma rows_from_spec (f : Z -> result (list Z * list Qc)) (nodes : list Z)
    (js : list (list Z)) (vals : list (list Qc)) :
  rows_from f nodes = Ok (js, vals) ->
  length js = length nodes /\ length vals = length nodes /\
  forall i node, nth_error nodes i = Some node ->
    exists j val, f node = Ok (j, val) /\
                  nth_error js i = Some j /\ nth_error vals i = Some val.
Proof.
  revert js vals. induction nodes as [|n nodes IH]; intros js vals H; cbn in H.
  - injection H as <- <-. repeat split; auto. intros [|i] node; discriminate.
  - destruct (f n) as [[j v]| | |] eqn:E; cbn [bind] in H; try discriminate.
    destruct (rows_from f nodes) as [[js' vals']| | |]; cbn [bind] in H;
      try discriminate.
    injection H as <- <-. destruct (IH js' vals' eq_refl) as (L1 & L2 & Hn).
    cbn [length]. repeat split; try congruence.
    intros [|i] node Hi; cbn in Hi.
    + injection Hi as <-. exists j, v. auto.
    + apply Hn. assumption.
Qed.

Lemma rows_from_total (f : Z -> result (list Z * list Qc)) (nodes : list Z) :
  (forall node, In node nodes -> exists jv, f node = Ok jv) ->
  exists out, rows_from f nodes = Ok out.
Proof.
  induction nodes as [|n nodes IH]; intros H; cbn.
  - eexists. reflexivity.
  - destruct (H n (or_introl eq_refl)) as [[j v] E]. rewrite E. cbn [bind].
    destruct IH as [[js vals] E']; [intros; apply H; right; assumption|].
    rewrite E'. cbn [bind]. eexists. reflexivity.
Qed.

Lemma fold_left_ext {A B : Type} (f g : A -> B -> A) (l : list B) (a : A) :
  (forall x y, f x y = g x y) -> fold_left f l a = fold_left g l a.
Proof.
  intros H. revert a. induction l as [|b l IH]; intros a; cbn; [reflexivity|].
  rewrite H. apply IH.
Qed.

Lemma calc_ppr_topk_parallel_rows (argsort : list Qc -> list Z)
    (sched : list nat) (fuel : nat) (indptr indices deg : list Z)
    (alpha epsilon : Qc) (nodes : list Z) (topk : Z) :
  calc_ppr_topk_parallel argsort sched fuel indptr indices deg alpha epsilon
    nodes topk =
  run_rows_prange
    (ppr_row argsort fuel indptr indices deg alpha epsilon nodes topk)
    sched (Ok (repeat [] (length nodes), repeat [] (length nodes))).
Proof.
  unfold calc_ppr_topk_parallel, run_rows_prange. apply fold_left_ext.
  intros [[js vals]| | |] i; reflexivity.
Qed.

Lemma calc_gpr_topk_parallel_rows (argsort : list Qc -> list Z) (fuel : nat)
    (indptr indices deg : list Z) (alpha epsilon : Qc) (train_idx : list Z)
    (cls_size topk : Z) :
  calc_gpr_topk_parallel argsort fuel indptr indices deg alpha epsilon
    train_idx cls_size topk =
  run_rows (gpr_row argsort fuel indptr indices deg alpha epsilon train_idx topk)
    (seq 0 (Z.to_nat cls_size))
    (Ok (repeat [] (Z.to_nat cls_size), repeat [] (Z.to_nat cls_size))).
Proof.
  unfold calc_gpr_topk_parallel, run_rows. apply fold_left_ext.
  intros [[js vals]| | |] i; cbn [bind]; try reflexivity.
  unfold gpr_iteration, write_row, gpr_row. cbn [fst snd].
  destruct (_calc_gpr_node _ _ _ _ _ _ _) as [[j v]| | |]; reflexivity.
Qed.

Lemma getitem_nth_error {A : Type} (a : list A) (i : nat) (x : A) :
  nth_error a i = Some x -> getitem a (Z.of_nat i) = Ok x.
Proof.
  intros H. assert (Hi : (i < length a)%nat) by (apply nth_error_Some; congruence).
  rewrite (getitem_ok a (Z.of_nat i) x) by lia.
  rewrite Nat2Z.id. f_equal. apply nth_error_nth. assumption.
Qed.

Lemma calc_ppr_node_lengths (fuel : nat) (node : Z) (indptr indices deg : list Z)
    (alpha epsilon : Qc) (j : list Z) (val : list Qc) :
  _calc_ppr_node fuel node indptr indices deg alpha epsilon = Ok (j, val) ->
  length j = length val.
Proof.
  unfold _calc_ppr_node. destruct (loop _ _ _ _ _ _ _ _) as [st| | |];
    cbn [bind]; try discriminate.
  intros [= <- <-]. unfold keys, values. rewrite !length_map. reflexivity.
Qed.

Lemma truncate_topk_full (argsort : list Qc -> list Z) (topk : Z)
    (j : list Z) (val : list Qc) :
  topk <= 0 -> truncate_topk argsort topk j val = Ok (j, val).
Proof.
  intros H. unfold truncate_topk.
  destruct (0 <? topk) eqn:E; [apply Z.ltb_lt in E; lia|reflexivity].
Qed.

Lemma in_nth_error_seq (n i : nat) : In i (seq 0 n) <-> (i < n)%nat.
Proof. rewrite in_seq. lia. Qed.

(** Two row arrays of the same length with the same rows are equal. *)
Lemma rows_ext {A : Type} (l1 l2 : list A) (n : nat) :
  length l1 = n -> length l2 = n ->
  (forall i, (i < n)%nat -> nth_error l1 i = nth_error l2 i) -> l1 = l2.
Proof.
  intros H1 H2 H. apply nth_error_ext. intros i.
  destruct (Nat.lt_ge_cases i n) as [Hi|Hi]; [apply H; assumption|].
  assert (E1 : nth_error l1 i = None) by (apply nth_error_None; lia).
  assert (E2 : nth_error l2 i = None) by (apply nth_error_None; lia).
  congruence.
Qed.

(** With [topk <= 0], row [i] of the parallel driver is the push from
    [nodes[i]]. *)
Lemma ppr_row_full (argsort : list Qc -> list Z) (fuel : nat)
    (indptr indices deg : list Z) (alpha epsilon : Qc) (nodes : list Z)
    (topk : Z) (i : nat) (node : Z) :
  topk <= 0 -> nth_error nodes i = Some node ->
  ppr_row argsort fuel indptr indices deg alpha epsilon nodes topk i =
  _calc_ppr_node fuel node indptr indices deg alpha epsilon.
Proof.
  intros Htopk Hi. unfold ppr_row.
  rewrite (getitem_nth_error _ _ _ Hi). cbn [bind].
  destruct (_calc_ppr_node _ _ _ _ _ _ _) as [[j v]| | |]; cbn [bind];
    try reflexivity.
  apply truncate_topk_full. assumption.
Qed.

(** With [topk <= 0] and a schedule that runs every iteration, a loop that
    propagates the failure of an iteration returns exactly when the
    row-by-row computation does, and returns the same rows. *)
Lemma run_rows_rows_from (argsort : list Qc -> list Z) (sched : list nat)
    (fuel : nat) (indptr indices deg : list Z) (alpha epsilon : Qc)
    (nodes : list Z) (topk : Z) (out : rows) :
  Permutation sched (seq 0 (length nodes)) -> topk <= 0 ->
  run_rows (ppr_row argsort fuel indptr indices deg alpha epsilon nodes topk)
    sched (Ok (repeat [] (length nodes), repeat [] (length nodes))) = Ok out <->
  rows_from (fun node => _calc_ppr_node fuel node indptr indices deg alpha epsilon)
    nodes = Ok out.
Proof.
  intros Hperm Htopk.
  set (f := fun node => _calc_ppr_node fuel node indptr indices deg alpha epsilon).
  set (row := ppr_row argsort fuel indptr indices deg alpha epsilon nodes topk).
  set (n := length nodes).
  assert (Hrow : forall i node, nth_error nodes i = Some node -> row i = f node).
  { intros i node Hi. apply ppr_row_full; assumption. }
  assert (Hsched : forall i, In i sched <-> (i < n)%nat).
  { intros i. rewrite <- in_nth_error_seq. split; apply Permutation_in;
      [assumption|apply Permutation_sym; assumption]. }
  assert (Hsame : forall js vals js' vals',
            run_rows row sched (Ok (repeat [] n, repeat [] n)) = Ok (js, vals) ->
            rows_from f nodes = Ok (js', vals') -> (js, vals) = (js', vals')).
  { intros js vals js' vals' Hpar Hseq.
    apply run_rows_spec in Hpar. rewrite !repeat_length in Hpar.
    destruct Hpar as (L1 & L2 & Hin & _).
    apply rows_from_spec in Hseq. destruct Hseq as (L1' & L2' & Hn).
    f_equal.
    - apply (rows_ext _ _ n); try assumption. intros i Hi.
      destruct (nth_error nodes i) as [node|] eqn:E;
        [|apply nth_error_None in E; unfold n in Hi; lia].
      destruct (Hin i (proj2 (Hsched i) Hi)) as (j & v & Er & Hj & _).
      destruct (Hn i node E) as (j' & v' & Ef & Hj' & _).
      rewrite (Hrow i node E), Ef in Er. injection Er as <- <-.
      rewrite Hj by assumption. congruence.
    - apply (rows_ext _ _ n); try assumption. intros i Hi.
      destruct (nth_error nodes i) as [node|] eqn:E;
        [|apply nth_error_None in E; unfold n in Hi; lia].
      destruct (Hin i (proj2 (Hsched i) Hi)) as (j & v & Er & _ & Hv).
      destruct (Hn i node E) as (j' & v' & Ef & _ & Hv').
      rewrite (Hrow i node E), Ef in Er. injection Er as <- <-.
      rewrite Hv by assumption. congruence. }
  split; intros H.
  - destruct out as [js vals].
    destruct (rows_from_total f nodes) as [[js' vals'] E].
    { intros node Hnode. apply In_nth_error in Hnode. destruct Hnode as [i Hi].
      pose proof H as H'. apply run_rows_spec in H'.
      destruct H' as (_ & _ & Hin & _).
      assert (Hlt : (i < n)%nat) by (apply nth_error_Some; congruence).
      destruct (Hin i (proj2 (Hsched i) Hlt)) as (j & v & Er & _).
      rewrite (Hrow i node Hi) in Er. eexists. exact Er. }
    rewrite E. f_equal. symmetry. exact (Hsame _ _ _ _ H E).
  - destruct out as [js vals].
    assert (Hall : forall i, In i sched -> exists jv, row i = Ok jv).
    { intros i Hi. apply Hsched in Hi.
      destruct (nth_error nodes i) as [node|] eqn:En;
        [|apply nth_error_None in En; unfold n in Hi; lia].
      pose proof H as H'. apply rows_from_spec in H'. destruct H' as (_ & _ & Hn).
      destruct (Hn i node En) as (j & v & Ef & _).
      rewrite (Hrow i node En). eexists. exact Ef. }
    destruct (run_rows_total row sched Hall (repeat [] n, repeat [] n))
      as [[js' vals'] E].
    unfold rows in *. rewrite E. f_equal. exact (Hsame _ _ _ _ E H).
Qed.

(** When the sequential computation of the rows returns, the parallel
    driver with [topk <= 0] returns the same rows, in whatever order its
    iterations complete. *)
Lemma rows_from_parallel (argsort : list Qc -> list Z) (sched : list nat)
    (fuel : nat) (indptr indices deg : list Z) (alpha epsilon : Qc)
    (nodes : list Z) (topk : Z) (out : rows) :
  Permutation sched (seq 0 (length nodes)) -> topk <= 0 ->
  rows_from (fun node => _calc_ppr_node fuel node indptr indices deg alpha epsilon)
    nodes = Ok out ->
  calc_ppr_topk_parallel argsort sched fuel indptr indices deg alpha epsilon
    nodes topk = Ok out.
Proof.
  intros Hperm Htopk H. rewrite calc_ppr_topk_parallel_rows.
  rewrite run_rows_prange_ok.
  - apply run_rows_rows_from; assumption.
  - intros i Hi. apply (Permutation_in _ Hperm) in Hi. apply in_seq in Hi.
    destruct (nth_error nodes i) as [node|] eqn:En;
      [|apply nth_error_None in En; lia].
    destruct out as [js vals]. apply rows_from_spec in H.
    destruct H as (_ & _ & Hn). destruct (Hn i node En) as (j & v & Ef & _).
    rewrite (ppr_row_full _ _ _ _ _ _ _ _ _ _ node Htopk En). eexists. exact Ef.
Qed.

(** When the parallel driver with [topk <= 0] returns and no push divides
    by a zero degree, the sequential computation returns the same rows. *)
Lemma parallel_rows_from (argsort : list Qc -> list Z) (sched : list nat)
    (fuel : nat) (indptr indices deg : list Z) (alpha epsilon : Qc)
    (nodes : list Z) (topk : Z) (out : rows) :
  Permutation sched (seq 0 (length nodes)) -> topk <= 0 ->
  (forall node, In node nodes ->
     _calc_ppr_node fuel node indptr indices deg alpha epsilon
     <> Raise ZeroDivisionError) ->
  calc_ppr_topk_parallel argsort sched fuel indptr indices deg alpha epsilon
    nodes topk = Ok out ->
  rows_from (fun node => _calc_ppr_node fuel node indptr indices deg alpha epsilon)
    nodes = Ok out.
Proof.
  intros Hperm Htopk Hno H. rewrite calc_ppr_topk_parallel_rows in H.
  assert (Hall : forall i, In i sched ->
    exists jv,
      ppr_row argsort fuel indptr indices deg alpha epsilon nodes topk i = Ok jv).
  { intros i Hi. destruct out as [js vals]. pose proof H as H'.
    apply run_rows_prange_spec in H'. destruct H' as (_ & _ & Hin & _).
    destruct (Hin i Hi) as [(j & v & E & _)|(E & _)]; [eexists; exact E|].
    exfalso. apply (Permutation_in _ Hperm) in Hi. apply in_seq in Hi.
    destruct (nth_error nodes i) as [node|] eqn:En;
      [|apply nth_error_None in En; lia].
    rewrite (ppr_row_full _ _ _ _ _ _ _ _ _ _ node Htopk En) in E.
    exact (Hno node (nth_error_In _ _ En) E). }
  rewrite (run_rows_prange_ok _ _ Hall) in H.
  apply run_rows_rows_from in H; assumption.
Qed.

(** * The claims of the specification *)

(** ** Degree-zero nodes (C5) *)

Lemma step_degree_zero
    (divide : Qc -> Z -> result Qc) (indptr indices deg : list Z)
    (alpha epsilon : Qc) (p r : dict) (u : Z) (q : list Z) :
  wf_graph indptr indices deg -> is_node deg u -> degree deg u = 0 ->
  step indptr indices deg alpha epsilon divide (mkState p r (u :: q)) =
  Ok (mkState (dict_add u (getd u r) p) (dict_set u 0%Qc r) q).
Proof.
  intros Hwf Hu Hd. unfold step. cbn [st_q st_r st_p].
  destruct (wf_graph_node _ _ _ u Hwf Hu) as (Hlo & Hhi & _ & Hlen & _).
  rewrite Hlo, Hhi. cbn [bind]. fold (neighbours indptr indices u).
  assert (Hnil : neighbours indptr indices u = [])
    by (apply length_zero_iff_nil; lia).
  rewrite Hnil. reflexivity.
Qed.

(** C5.  On a graph whose degree vector is consistent with the CSR row
    slices, popping a node [u] of degree 0 evaluates no division, whatever
    the division would do on a zero divisor ([divide] is arbitrary): the
    iteration returns, the residual of [u] is settled into [p(u)], the
    residual of [u] is reset, and no other residual and no worklist entry
    changes. *)
Theorem degree_zero_pop_settles_only
    (divide : Qc -> Z -> result Qc) (indptr indices deg : list Z)
    (alpha epsilon : Qc) (p r : dict) (u : Z) (q : list Z) :
  wf_graph indptr indices deg -> is_node deg u -> degree deg u = 0 ->
  step indptr indices deg alpha epsilon divide (mkState p r (u :: q)) =
  Ok (mkState (dict_add u (getd u r) p) (dict_set u 0%Qc r) q) /\
  forall w, w <> u -> getd w (dict_set u 0%Qc r) = getd w r.
Proof.
  intros Hwf Hu Hd. split.
  - apply step_degree_zero; assumption.
  - intros w Hw. apply getd_set_neq. assumption.
Qed.

Lemma degree_zero_pop_settles_only_witness :
  wf_graph tail_indptr tail_indices tail_deg /\
  is_node tail_deg 1 /\ degree tail_deg 1 = 0 /\
  step tail_indptr tail_indices tail_deg half tenth
    (fun _ _ => Raise ZeroDivisionError)
    (mkState [(0, half)] [(0, 0%Qc); (1, quarter)] [1]) =
  Ok (mkState [(0, half); (1, quarter)] [(0, 0%Qc); (1, 0%Qc)] []).
Proof.
  assert (H1 : wf_graph tail_indptr tail_indices tail_deg) by reflexivity.
  assert (H2 : is_node tail_deg 1) by (unfold is_node; simpl; lia).
  assert (H3 : degree tail_deg 1 = 0) by reflexivity.
  split; [exact H1|]. split; [exact H2|]. split; [exact H3|].
  exact (proj1 (degree_zero_pop_settles_only (fun _ _ => Raise ZeroDivisionError)
                  tail_indptr tail_indices tail_deg half tenth [(0, half)]
                  [(0, 0%Qc); (1, quarter)] 1 [] H1 H2 H3)).
Defined.

(** ** Sequential and parallel drivers (C7) *)

(** On a well-formed graph a loop whose worklist holds nodes raises
    nothing: it returns, or it is still running when the bound on pops is
    reached. *)
Lemma loop_nodes_no_raise (indptr indices deg : list Z) (alpha epsilon : Qc)
    (fuel : nat) :
  wf_graph indptr indices deg ->
  forall st, Forall (is_node deg) (st_q st) ->
    forall e, loop indptr indices deg alpha epsilon numba_div fuel st <> Raise e.
Proof.
  intros Hwf. induction fuel as [|fuel IH]; intros st Hq e; cbn [loop].
  - destruct (st_q st); discriminate.
  - destruct st as [p r q]. cbn [st_q] in *.
    destruct q as [|u q]; [discriminate|].
    inversion Hq as [|? ? Hu Hq']; subst.
    destruct (step_spec indptr indices deg alpha epsilon Hwf p r u q Hu)
      as (r' & added & Hstep & _ & _ & _ & _ & _ & Hincl & _).
    rewrite Hstep. cbn [bind]. apply IH. cbn [st_q].
    destruct (wf_graph_node _ _ _ u Hwf Hu) as (_ & _ & _ & _ & Hnb).
    apply Forall_app. split; [|assumption].
    apply Forall_forall. intros x Hx. apply Hincl in Hx.
    rewrite Forall_forall in Hnb. apply Hnb. assumption.
Qed.

Lemma calc_ppr_node_no_raise (fuel : nat) (s : Z) (indptr indices deg : list Z)
    (alpha epsilon : Qc) (e : exn) :
  wf_graph indptr indices deg -> is_node deg s ->
  _calc_ppr_node fuel s indptr indices deg alpha epsilon <> Raise e.
Proof.
  intros Hwf Hs. unfold _calc_ppr_node.
  pose proof (loop_nodes_no_raise indptr indices deg alpha epsilon fuel Hwf
                (ppr_init alpha s)) as Hno.
  destruct (loop _ _ _ _ _ _ _ _) as [st|e'| |] eqn:El; cbn [bind];
    try discriminate.
  exfalso. apply (Hno (Forall_cons _ Hs (Forall_nil _)) e'). reflexivity.
Qed.

(** C7, as the specification states it, fails: the two drivers differ when
    a push raises.  On the graph 0 -> 1 with the degree vector [0, 0], the
    push from node 0 divides by [deg[0] = 0]; the sequential driver raises
    [ZeroDivisionError], and the parallel driver returns, with the row of
    the seed left empty. *)
Lemma parallel_driver_drops_a_failing_row :
  calc_ppr 5 tail_indptr tail_indices [0; 0] half tenth [0]
  = Raise ZeroDivisionError /\
  calc_ppr_topk_parallel insertion_argsort [0%nat] 5 tail_indptr tail_indices
    [0; 0] half tenth [0] 0 = Ok ([[]], [[]]).
Proof. split; reflexivity. Qed.

(** C7, as the code has it.  For every graph, parameters and seeds, and
    every order [sched] in which the iterations of the parallel loop
    complete: whenever the sequential driver [calc_ppr] returns, the
    parallel driver with [topk <= 0] returns the same rows, and row [i] is
    the push from [nodes[i]] alone; whenever the parallel driver returns
    and no push divides by a zero degree, [calc_ppr] returns the same
    rows; and on a well-formed graph with seeds that are nodes, where no
    push raises, each driver returns exactly when the other does. *)
Theorem sequential_parallel_same_rows
    (argsort : list Qc -> list Z) (sched : list nat) (fuel : nat)
    (indptr indices deg : list Z) (alpha epsilon : Qc) (nodes : list Z)
    (topk : Z) :
  Permutation sched (seq 0 (length nodes)) -> topk <= 0 ->
  (forall js vals,
     calc_ppr fuel indptr indices deg alpha epsilon nodes = Ok (js, vals) ->
     calc_ppr_topk_parallel argsort sched fuel indptr indices deg alpha epsilon
       nodes topk = Ok (js, vals) /\
     forall i node, nth_error nodes i = Some node ->
       exists j val,
         _calc_ppr_node fuel node indptr indices deg alpha epsilon = Ok (j, val) /\
         nth_error js i = Some j /\ nth_error vals i = Some val) /\
  ((forall node, In node nodes ->
      _calc_ppr_node fuel node indptr indices deg alpha epsilon
      <> Raise ZeroDivisionError) ->
   forall out : rows,
     calc_ppr_topk_parallel argsort sched fuel indptr indices deg alpha epsilon
       nodes topk = Ok out ->
     calc_ppr fuel indptr indices deg alpha epsilon nodes = Ok out) /\
  (wf_graph indptr indices deg -> Forall (is_node deg) nodes ->
   forall out : rows,
     calc_ppr fuel indptr indices deg alpha epsilon nodes = Ok out <->
     calc_ppr_topk_parallel argsort sched fuel indptr indices deg alpha epsilon
       nodes topk = Ok out).
Proof.
  intros Hperm Htopk. split; [|split].
  - intros js vals H. rewrite calc_ppr_rows_from in H. split.
    + apply rows_from_parallel; assumption.
    + intros i node Hi. apply rows_from_spec in H. destruct H as (_ & _ & Hn).
      apply (Hn i node Hi).
  - intros Hno out H. rewrite calc_ppr_rows_from.
    apply (parallel_rows_from argsort sched fuel indptr indices deg alpha
             epsilon nodes topk); assumption.
  - intros Hwf Hnodes out. rewrite calc_ppr_rows_from. split; intros H.
    + apply rows_from_parallel; assumption.
    + apply (parallel_rows_from argsort sched fuel indptr indices deg alpha
               epsilon nodes topk); try assumption.
      intros node Hin. apply calc_ppr_node_no_raise; [assumption|].
      rewrite Forall_forall in Hnodes. apply Hnodes. assumption.
Qed.

Lemma sequential_parallel_same_rows_witness :
  Permutation [1%nat; 0%nat] (seq 0 (length [0; 1])) /\ 0 <= 0 /\
  wf_graph cycle_indptr cycle_indices cycle_deg /\
  Forall (is_node cycle_deg) [0; 1] /\
  (forall out : rows,
     calc_ppr 30 cycle_indptr cycle_indices cycle_deg half tenth [0; 1] = Ok out <->
     calc_ppr_topk_parallel insertion_argsort [1%nat; 0%nat] 30 cycle_indptr
       cycle_indices cycle_deg half tenth [0; 1] 0 = Ok out).
Proof.
  assert (H1 : Permutation [1%nat; 0%nat] (seq 0 (length [0; 1])))
    by (simpl; apply perm_swap).
  assert (H2 : 0 <= 0) by lia.
  assert (H3 : wf_graph cycle_indptr cycle_indices cycle_deg) by reflexivity.
  assert (H4 : Forall (is_node cycle_deg) [0; 1]).
  { constructor; [unfold is_node; simpl; lia|].
    constructor; [unfold is_node; simpl; lia|constructor]. }
  split; [exact H1|]. split; [exact H2|]. split; [exact H3|]. split; [exact H4|].
  exact (proj2 (proj2 (sequential_parallel_same_rows insertion_argsort
                         [1%nat; 0%nat] 30 cycle_indptr cycle_indices cycle_deg
                         half tenth [0; 1] 0 H1 H2)) H3 H4).
Defined.

(** ** Top-k truncation of the rows (C3) *)

(** C3.  Whenever the pushes of all seeds return, the batch driver returns,
    and its row [i] relates to the untruncated push result [(j, val)] of
    [nodes[i]] as follows: with [topk <= 0] it is that result; with
    [topk > 0] it has [min(topk, len(j))] entries, these entries together
    with the omitted ones are the entries of the push result, and no kept
    entry has a lower value than an omitted one.  This holds for every
    [np.argsort] that sorts (whatever its order of equal values). *)
Theorem topk_rows_are_the_largest
    (argsort : list Qc -> list Z) (sched : list nat) (fuel : nat)
    (indptr indices deg : list Z) (alpha epsilon : Qc) (nodes : list Z)
    (topk : Z) :
  argsort_spec argsort ->
  Permutation sched (seq 0 (length nodes)) ->
  (forall node, In node nodes ->
     exists jv, _calc_ppr_node fuel node indptr indices deg alpha epsilon = Ok jv) ->
  exists js vals,
    calc_ppr_topk_parallel argsort sched fuel indptr indices deg alpha epsilon
      nodes topk = Ok (js, vals) /\
    forall i node, nth_error nodes i = Some node ->
      exists j val j' val',
        _calc_ppr_node fuel node indptr indices deg alpha epsilon = Ok (j, val) /\
        nth_error js i = Some j' /\ nth_error vals i = Some val' /\
        (topk <= 0 -> j' = j /\ val' = val) /\
        (0 < topk ->
         length j' = Nat.min (Z.to_nat topk) (length j) /\
         length val' = length j' /\
         exists omitted,
           Permutation (combine j val) (combine j' val' ++ omitted) /\
           forall x y, In x (combine j' val') -> In y omitted ->
                       (snd y <= snd x)%Qc).
Proof.
  intros Hspec Hperm Hall. rewrite calc_ppr_topk_parallel_rows.
  set (row := ppr_row argsort fuel indptr indices deg alpha epsilon nodes topk).
  set (n := length nodes) in *.
  assert (Hsched : forall i, In i sched <-> (i < n)%nat).
  { intros i. rewrite <- in_nth_error_seq. split; apply Permutation_in;
      [assumption|apply Permutation_sym; assumption]. }
  assert (Hrow : forall i node, nth_error nodes i = Some node ->
    exists j val j' val',
      _calc_ppr_node fuel node indptr indices deg alpha epsilon = Ok (j, val) /\
      row i = Ok (j', val') /\
      (topk <= 0 -> j' = j /\ val' = val) /\
      (0 < topk ->
       length j' = Nat.min (Z.to_nat topk) (length j) /\
       length val' = length j' /\
       exists omitted,
         Permutation (combine j val) (combine j' val' ++ omitted) /\
         forall x y, In x (combine j' val') -> In y omitted ->
                     (snd y <= snd x)%Qc)).
  { intros i node Hi.
    destruct (Hall node (nth_error_In _ _ Hi)) as [[j val] E].
    assert (Er : row i = truncate_topk argsort topk j val).
    { unfold row, ppr_row. rewrite (getitem_nth_error _ _ _ Hi). cbn [bind].
      rewrite E. reflexivity. }
    rewrite Er.
    destruct (Z_lt_le_dec 0 topk) as [Hk|Hk].
    - destruct (truncate_topk_spec argsort topk j val Hspec
                  (calc_ppr_node_lengths _ _ _ _ _ _ _ _ _ E) Hk)
        as (j' & val' & omitted & Ht & L1 & L2 & Hp & Hord).
      exists j, val, j', val'.
      split; [exact E|]. split; [exact Ht|]. split; [intros; lia|].
      intros _. split; [exact L1|]. split; [exact L2|].
      exists omitted. split; assumption.
    - exists j, val, j, val. rewrite truncate_topk_full by assumption.
      split; [exact E|]. split; [reflexivity|].
      split; [intros _; split; reflexivity|intros; lia]. }
  assert (Htot : forall i, In i sched -> exists jv, row i = Ok jv).
  { intros i Hi. apply Hsched in Hi.
    destruct (nth_error nodes i) as [node|] eqn:En;
      [|apply nth_error_None in En; unfold n in Hi; lia].
    destruct (Hrow i node En) as (j & val & j' & val' & _ & Er & _).
    eexists. exact Er. }
  rewrite (run_rows_prange_ok row sched Htot).
  destruct (run_rows_total row sched Htot (repeat [] n, repeat [] n))
    as [[js vals] E].
  exists js, vals. split; [exact E|].
  intros i node Hi.
  assert (Hlt : (i < n)%nat) by (apply nth_error_Some; congruence).
  apply run_rows_spec in E. rewrite !repeat_length in E.
  destruct E as (_ & _ & Hin & _).
  destruct (Hin i (proj2 (Hsched i) Hlt)) as (j1 & v1 & Er1 & Hj1 & Hv1).
  destruct (Hrow i node Hi) as (j & val & j' & val' & Ep & Er & H0 & H1).
  rewrite Er in Er1. injection Er1 as <- <-.
  exists j, val, j', val'.
  split; [exact Ep|]. split; [apply Hj1; assumption|].
  split; [apply Hv1; assumption|]. split; assumption.
Qed.

Lemma topk_rows_are_the_largest_witness :
  argsort_spec insertion_argsort /\
  Permutation [1%nat; 0%nat] (seq 0 (length [0; 1])) /\
  exists js vals,
    calc_ppr_topk_parallel insertion_argsort [1%nat; 0%nat] 30 cycle_indptr
      cycle_indices cycle_deg half tenth [0; 1] 1 = Ok (js, vals).
Proof.
  assert (H1 : Permutation [1%nat; 0%nat] (seq 0 (length [0; 1])))
    by (simpl; apply perm_swap).
  assert (H2 : forall node, In node [0; 1] ->
            exists jv, _calc_ppr_node 30 node cycle_indptr cycle_indices
                         cycle_deg half tenth = Ok jv).
  { intros node [<-|[<-|[]]]; eexists; vm_compute; reflexivity. }
  split; [exact insertion_argsort_spec|]. split; [exact H1|].
  destruct (topk_rows_are_the_largest insertion_argsort [1%nat; 0%nat] 30
              cycle_indptr cycle_indices cycle_deg half tenth [0; 1] 1
              insertion_argsort_spec H1 H2) as (js & vals & H & _).
  exists js, vals. exact H.
Defined.

(** ** Empty seed sets and empty classes (C8) *)

Lemma where_eq_nil (train_idx : list Z) (i : Z) :
  ~ In i train_idx -> where_eq train_idx i = [].
Proof.
  intros Hnin. unfold where_eq.
  generalize (map Z.of_nat (seq 0 (length train_idx))). intros ks.
  revert ks. induction train_idx as [|x l IH]; intros [|k ks]; cbn; try reflexivity.
  destruct (x =? i) eqn:E.
  - apply Z.eqb_eq in E. exfalso. apply Hnin. left. assumption.
  - apply IH. intros H. apply Hnin. right. assumption.
Qed.

Lemma calc_gpr_node_empty (fuel : nat) (indptr indices deg : list Z)
    (alpha epsilon : Qc) :
  _calc_gpr_node fuel [] indptr indices deg alpha epsilon = Ok ([], []).
Proof. destruct fuel; reflexivity. Qed.

Lemma truncate_topk_empty (argsort : list Qc -> list Z) (topk : Z) :
  argsort_spec argsort -> truncate_topk argsort topk [] [] = Ok ([], []).
Proof.
  intros Hspec. unfold truncate_topk. destruct (0 <? topk); [|reflexivity].
  destruct (Hspec []) as [Hperm _]. cbn in Hperm.
  apply Permutation_sym, Permutation_nil in Hperm. rewrite Hperm.
  unfold slice_from. rewrite skipn_nil. reflexivity.
Qed.

Lemma repeat_rows_in (rs : list (list Z)) (k x : Z) :
  In x (repeat_rows k rs) ->
  k <= x /\ exists row, nth_error rs (Z.to_nat (x - k)) = Some row /\ row <> [].
Proof.
  revert k. induction rs as [|row rs IH]; intros k H; cbn in H; [contradiction|].
  apply in_app_or in H. destruct H as [H|H].
  - pose proof (repeat_spec _ _ _ H) as Hx. subst x. split; [lia|].
    rewrite Z.sub_diag. exists row. split; [reflexivity|].
    intros ->. cbn in H. contradiction.
  - apply IH in H. destruct H as (Hk & r & Hr & Hne). split; [lia|].
    exists r. split; [|assumption].
    replace (Z.to_nat (x - k)) with (S (Z.to_nat (x - (k + 1)))) by lia.
    exact Hr.
Qed.

Lemma coo_matrix_rows (data : list Qc) (i j : list Z) (shape : Z * Z)
    (m : sparse) :
  coo_matrix data i j shape = Ok m -> sp_row m = i.
Proof.
  unfold coo_matrix.
  repeat match goal with
  | |- (if ?c then _ else _) = _ -> _ => destruct c; try discriminate
  end.
  intros [= <-]. reflexivity.
Qed.

Lemma construct_sparse_rows (neighbors : list (list Z))
    (weights : list (list Qc)) (shape : Z * Z) (m : sparse) :
  construct_sparse neighbors weights shape = Ok m ->
  sp_row m = repeat_rows 0 neighbors.
Proof.
  unfold construct_sparse.
  destruct neighbors; [discriminate|]. destruct weights; [discriminate|].
  apply coo_matrix_rows.
Qed.

(** C8.  An empty seed set gives an empty sparse vector, whatever the graph
    and the bound on pops.  In class-aggregated mode, for a class [i] that
    no node carries: the iteration of the driver for [i] raises nothing and
    writes two empty arrays; the row [i] that the driver returns is empty;
    and the matrix that [topk_gpr_matrix] returns stores no entry in row
    [i]. *)
Theorem empty_class_gives_empty_row
    (argsort : list Qc -> list Z) (fuel : nat) (indptr indices deg : list Z)
    (alpha epsilon : Qc) (train_idx : list Z) (topk : Z) (i : nat) :
  argsort_spec argsort -> ~ In (Z.of_nat i) train_idx ->
  _calc_gpr_node fuel [] indptr indices deg alpha epsilon = Ok ([], []) /\
  (forall js vals,
     gpr_iteration argsort fuel indptr indices deg alpha epsilon train_idx topk
       (js, vals) i = Ok (setitem js i [], setitem vals i [])) /\
  (forall cls_size js vals,
     calc_gpr_topk_parallel argsort fuel indptr indices deg alpha epsilon
       train_idx cls_size topk = Ok (js, vals) ->
     Z.of_nat i < cls_size ->
     nth_error js i = Some [] /\ nth_error vals i = Some []) /\
  (forall (adj_matrix : csr) (m : sparse),
     topk_gpr_matrix argsort fuel adj_matrix alpha epsilon train_idx topk = Ok m ->
     ~ In (Z.of_nat i) (sp_row m)).
Proof.
  intros Hspec Hnin.
  assert (Hrow : forall indptr indices deg,
            gpr_row argsort fuel indptr indices deg alpha epsilon train_idx topk i
            = Ok ([], [])).
  { intros. unfold gpr_row. rewrite where_eq_nil by assumption.
    rewrite calc_gpr_node_empty. cbn [bind].
    apply truncate_topk_empty. assumption. }
  assert (Hdrv : forall indptr indices deg cls_size js vals,
            calc_gpr_topk_parallel argsort fuel indptr indices deg alpha epsilon
              train_idx cls_size topk = Ok (js, vals) ->
            Z.of_nat i < cls_size ->
            nth_error js i = Some [] /\ nth_error vals i = Some []).
  { intros ip ix dg cls_size js vals H Hi.
    rewrite calc_gpr_topk_parallel_rows in H.
    apply run_rows_spec in H. rewrite !repeat_length in H.
    destruct H as (_ & _ & Hin & _).
    destruct (Hin i) as (j & v & Er & Hj & Hv); [apply in_seq; lia|].
    rewrite Hrow in Er. injection Er as <- <-.
    split; [apply Hj|apply Hv]; lia. }
  split; [apply calc_gpr_node_empty|]. split; [|split].
  - intros js vals. unfold gpr_iteration.
    rewrite where_eq_nil by assumption. rewrite calc_gpr_node_empty.
    cbn [bind]. rewrite truncate_topk_empty by assumption. reflexivity.
  - apply Hdrv.
  - intros adj m H Hin. unfold topk_gpr_matrix in H.
    destruct (np_max train_idx) as [mx| | |]; cbn [bind] in H; try discriminate.
    destruct (calc_gpr_topk_parallel _ _ _ _ _ _ _ _ _ _)
      as [[js vals]| | |] eqn:E; cbn [bind] in H; try discriminate.
    apply construct_sparse_rows in H. rewrite H in Hin.
    apply repeat_rows_in in Hin. destruct Hin as (_ & row & Hr & Hne).
    rewrite Z.sub_0_r, Nat2Z.id in Hr.
    assert (Hlt : (i < length js)%nat) by (apply nth_error_Some; congruence).
    pose proof E as E'. rewrite calc_gpr_topk_parallel_rows in E'.
    apply run_rows_spec in E'. rewrite !repeat_length in E'.
    destruct E' as (L1 & _).
    destruct (Hdrv _ _ _ _ _ _ E) as [Hj _]; [lia|].
    congruence.
Qed.

Lemma empty_class_gives_empty_row_witness :
  argsort_spec insertion_argsort /\ ~ In (Z.of_nat 1) [0; 2] /\
  forall m,
    topk_gpr_matrix insertion_argsort 30 cycle_csr half tenth [0; 2] 0 = Ok m ->
    ~ In (Z.of_nat 1) (sp_row m).
Proof.
  assert (H : ~ In (Z.of_nat 1) [0; 2]) by (simpl; intros [E|[E|[]]]; discriminate).
  split; [exact insertion_argsort_spec|]. split; [exact H|].
  intros m.
  apply (empty_class_gives_empty_row insertion_argsort 30 [] [] [] half tenth
           [0; 2] 0 1 insertion_argsort_spec H).
Defined.

(** ** Termination of the push (C6) *)


Lemma calc_ppr_node_of_loop (fuel : nat) (s : Z) (indptr indices deg : list Z)
    (alpha epsilon : Qc) (st : state) :
  loop indptr indices deg alpha epsilon numba_div fuel (ppr_init alpha s) = Ok st ->
  _calc_ppr_node fuel s indptr indices deg alpha epsilon =
  Ok (keys (st_p st), values (st_p st)).
Proof. intros H. unfold _calc_ppr_node. rewrite H. reflexivity. Qed.







(** ** The entry of the seed (C9) *)

Lemma dict_get_add_eq (k : Z) (x : Qc) (d : dict) :
  dict_get k (dict_add k x d) = Some (getd k d + x)%Qc.
Proof.
  unfold dict_add, getd. destruct (dict_get k d);
    rewrite dict_get_set_eq; f_equal; ring.
Qed.

Lemma dict_get_add_neq (k k' : Z) (x : Qc) (d : dict) :
  k' <> k -> dict_get k' (dict_add k x d) = dict_get k' d.
Proof.
  intros H. unfold dict_add.
  destruct (dict_get k d); apply dict_get_set_neq; assumption.
Qed.

Lemma dict_get_in (k : Z) (x : Qc) (d : dict) :
  dict_get k d = Some x -> In (k, x) d.
Proof.
  induction d as [|[k' v'] d IH]; cbn; [discriminate|].
  destruct (k =? k') eqn:E.
  - apply Z.eqb_eq in E. intros [= <-]. left. congruence.
  - intros H. right. apply IH. assumption.
Qed.

Lemma combine_keys_values (d : dict) : combine (keys d) (values d) = d.
Proof.
  induction d as [|[k v] d IH]; cbn; [reflexivity|]. f_equal. exact IH.
Qed.

(** What a pop does to [p], for a state within the invariant. *)
Lemma step_settles (indptr indices deg : list Z) (alpha epsilon : Qc)
    (st st' : state) (u : Z) (q : list Z) :
  wf_graph indptr indices deg -> (0 <= alpha <= 1)%Qc ->
  base_inv deg st -> st_q st = u :: q ->
  step indptr indices deg alpha epsilon numba_div st = Ok st' ->
  st_p st' = dict_add u (getd u (st_r st)) (st_p st) /\
  (0 <= getd u (st_r st))%Qc.
Proof.
  intros Hwf Ha Hb Eq Hs.
  destruct (step_base indptr indices deg alpha epsilon Hwf Ha st u q Hb Eq)
    as (r' & added & Hstep & _ & Hres & _).
  rewrite Hstep in Hs. injection Hs as <-. split; [reflexivity|assumption].
Qed.

(** C9.  For every well-formed graph, every [alpha] in (0, 1], every
    [epsilon > 0] and every seed [s], the push returns (within [pop_bound]
    pops) a sparse vector with an entry for [s] whose value is at least
    [alpha]. *)
Theorem seed_entry_at_least_alpha
    (indptr indices deg : list Z) (alpha epsilon : Qc) (s : Z) (fuel : nat) :
  wf_graph indptr indices deg -> is_node deg s ->
  (0 < alpha)%Qc -> (alpha <= 1)%Qc -> (0 < epsilon)%Qc ->
  (pop_bound deg alpha epsilon s <= fuel)%nat ->
  exists ks vs x,
    _calc_ppr_node fuel s indptr indices deg alpha epsilon = Ok (ks, vs) /\
    In (s, x) (combine ks vs) /\ (alpha <= x)%Qc.
Proof.
  intros Hwf Hs Ha0 Ha1 He Hfuel.
  assert (Ha : (0 < alpha)%Qc /\ (alpha <= 1)%Qc) by (split; assumption).
  assert (Ha' : (0 <= alpha <= 1)%Qc)
    by (split; [apply Qclt_le_weak; assumption|assumption]).
  set (J := fun st : state =>
              exists x, dict_get s (st_p st) = Some x /\ (alpha <= x)%Qc).
  destruct (ppr_loop_total indptr indices deg alpha epsilon Hwf Ha He J s Hs)
    with (fuel := fuel) as (st & Hloop & _ & _ & x & Hx & Hle).
  - intros st' Hstep.
    destruct (step_settles _ _ _ _ _ _ _ s [] Hwf Ha'
                (ppr_init_base deg alpha Ha' s Hs) eq_refl Hstep) as [Hp _].
    unfold J. rewrite Hp. cbn [ppr_init st_p st_r].
    rewrite dict_get_add_eq. eexists. split; [reflexivity|].
    unfold getd. cbn [dict_get]. rewrite Z.eqb_refl.
    replace (0 + alpha)%Qc with alpha by ring. apply Qcle_refl.
  - intros st st' Hb _ (x & Hx & Hle) Hq Hstep.
    destruct (st_q st) as [|u q] eqn:Eq; [contradiction|].
    destruct (step_settles _ _ _ _ _ _ _ u q Hwf Ha' Hb Eq Hstep) as [Hp Hres].
    unfold J. rewrite Hp. destruct (Z.eq_dec s u) as [<-|Hne].
    + rewrite dict_get_add_eq. eexists. split; [reflexivity|].
      unfold getd at 1. rewrite Hx.
      revert Hle Hres. generalize (getd s (st_r st)). intros y Hle Hres.
      qc_to_q. lra.
    + rewrite dict_get_add_neq by assumption. exists x. auto.
  - assumption.
  - exists (keys (st_p st)), (values (st_p st)), x.
    split; [apply calc_ppr_node_of_loop; assumption|].
    rewrite combine_keys_values. split; [apply dict_get_in|]; assumption.
Qed.

Lemma seed_entry_at_least_alpha_witness :
  wf_graph cycle_indptr cycle_indices cycle_deg /\ is_node cycle_deg 0 /\
  (0 < half)%Qc /\ (half <= 1)%Qc /\ (0 < tenth)%Qc /\
  (pop_bound cycle_deg half tenth 0 <= 30)%nat /\
  exists ks vs x,
    _calc_ppr_node 30 0 cycle_indptr cycle_indices cycle_deg half tenth
    = Ok (ks, vs) /\
    In (0, x) (combine ks vs) /\ (half <= x)%Qc.
Proof.
  assert (H1 : wf_graph cycle_indptr cycle_indices cycle_deg) by reflexivity.
  assert (H2 : is_node cycle_deg 0) by (unfold is_node; simpl; lia).
  assert (H3 : (0 < half)%Qc) by reflexivity.
  assert (H4 : (half <= 1)%Qc) by (vm_compute; discriminate).
  assert (H5 : (0 < tenth)%Qc) by reflexivity.
  assert (H6 : (pop_bound cycle_deg half tenth 0 <= 30)%nat)
    by (vm_compute; lia).
  split; [exact H1|]. split; [exact H2|]. split; [exact H3|].
  split; [exact H4|]. split; [exact H5|]. split; [exact H6|].
  apply (seed_entry_at_least_alpha cycle_indptr cycle_indices cycle_deg half
           tenth 0 30 H1 H2 H3 H4 H5 H6).
Defined.

(** ** Conservation of mass (C1) *)

Lemma degree_positive (deg : list Z) (u : Z) :
  Forall (fun d => 0 < d) deg -> is_node deg u -> 0 < degree deg u.
Proof.
  intros Hpos Hu. unfold degree, is_node in *.
  rewrite Forall_forall in Hpos. apply Hpos. apply nth_In. lia.
Qed.

Lemma balanced_step (indptr indices deg : list Z) (alpha epsilon : Qc)
    (st : state) :
  wf_graph indptr indices deg -> Forall (fun d => 0 < d) deg ->
  Forall (is_node deg) (st_q st) -> balanced alpha st -> st_q st <> [] ->
  exists st',
    step indptr indices deg alpha epsilon numba_div st = Ok st' /\
    Forall (is_node deg) (st_q st') /\ balanced alpha st' /\
    (dict_sum (st_r st') =
     dict_sum (st_r st)
     - alpha * getd (hd 0%Z (st_q st)) (st_r st))%Qc.
Proof.
  intros Hwf Hpos Hq Hbal Hne. destruct st as [p r q]. cbn [st_q st_p st_r] in *.
  destruct q as [|u q]; [contradiction|]. cbn [hd].
  inversion Hq as [|? ? Hu Hq']; subst.
  destruct (step_spec indptr indices deg alpha epsilon Hwf p r u q Hu)
    as (r' & added & Hstep & _ & Hsum & _ & _ & _ & Hincl & _).
  assert (Hd : degree deg u <> 0)
    by (pose proof (degree_positive deg u Hpos Hu); lia).
  rewrite (forwarded_total deg alpha u _ Hd) in Hsum.
  destruct (wf_graph_node _ _ _ u Hwf Hu) as (_ & _ & _ & _ & Hnb).
  eexists. split; [exact Hstep|]. cbn [st_q st_p st_r]. split; [|split].
  - apply Forall_app. split; [|assumption].
    apply Forall_forall. intros x Hx. apply Hincl in Hx.
    rewrite Forall_forall in Hnb. apply Hnb. assumption.
  - unfold balanced in *. cbn [st_p st_r] in *.
    rewrite dict_sum_add, Hsum. rewrite <- Hbal at 3. ring.
  - rewrite Hsum. ring.
Qed.

(** On a well-formed graph the loop never fails, whatever [alpha] and
    [epsilon], and its worklist holds nodes. *)
Lemma run_nodes_total (indptr indices deg : list Z) (alpha epsilon : Qc) :
  wf_graph indptr indices deg ->
  forall (k : nat) (st : state),
    Forall (is_node deg) (st_q st) ->
    exists st',
      run indptr indices deg alpha epsilon numba_div k st = Ok st' /\
      Forall (is_node deg) (st_q st').
Proof.
  intros Hwf. induction k as [|k IH]; intros st Hq.
  - exists st. cbn. auto.
  - cbn [run]. destruct st as [p r q]. cbn [st_q] in *.
    destruct q as [|u q]; [exists (mkState p r []); auto|].
    inversion Hq as [|? ? Hu Hq']; subst.
    destruct (step_spec indptr indices deg alpha epsilon Hwf p r u q Hu)
      as (r' & added & Hstep & _ & _ & _ & _ & _ & Hincl & _).
    rewrite Hstep. cbn [bind]. apply IH. cbn [st_q].
    destruct (wf_graph_node _ _ _ u Hwf Hu) as (_ & _ & _ & _ & Hnb).
    apply Forall_app. split; [|assumption].
    apply Forall_forall. intros x Hx. apply Hincl in Hx.
    rewrite Forall_forall in Hnb. apply Hnb. assumption.
Qed.

Lemma balanced_preserved (indptr indices deg : list Z) (alpha epsilon : Qc)
    (st st' : state) :
  wf_graph indptr indices deg -> Forall (fun d => 0 < d) deg ->
  Forall (is_node deg) (st_q st) /\ balanced alpha st -> st_q st <> [] ->
  step indptr indices deg alpha epsilon numba_div st = Ok st' ->
  Forall (is_node deg) (st_q st') /\ balanced alpha st'.
Proof.
  intros Hwf Hpos [Hq Hbal] Hne Hstep.
  destruct (balanced_step indptr indices deg alpha epsilon st Hwf Hpos Hq Hbal Hne)
    as (st1 & Hstep1 & Hq1 & Hbal1 & _).
  rewrite Hstep1 in Hstep. injection Hstep as <-. split; assumption.
Qed.

(** With [0 <= alpha <= 1], a pop forwards at most [(1 - alpha) * res]. *)
Lemma forwarded_total_le (indptr indices deg : list Z) (alpha : Qc) (u : Z)
    (res : Qc) :
  wf_graph indptr indices deg -> is_node deg u ->
  (0 <= alpha <= 1)%Qc -> (0 <= res)%Qc ->
  (0 <= of_int (degree deg u) * forwarded deg alpha u res)%Qc /\
  (of_int (degree deg u) * forwarded deg alpha u res <= (1 - alpha) * res)%Qc.
Proof.
  intros Hwf Hu Ha Hres.
  assert (H1 : (0 <= (1 - alpha) * res)%Qc).
  { apply Qc_le_0_mult; [|assumption]. destruct Ha as [_ Ha]. qc_to_q. lra. }
  destruct (Z.eq_dec (degree deg u) 0) as [E|E].
  - rewrite E. change (of_int 0) with 0%Qc. rewrite Qcmult_0_l.
    split; [apply Qcle_refl|assumption].
  - rewrite (forwarded_total deg alpha u res E).
    split; [assumption|apply Qcle_refl].
Qed.

Lemma bounded_mass_step (indptr indices deg : list Z) (alpha epsilon : Qc)
    (st : state) :
  wf_graph indptr indices deg -> (0 <= alpha <= 1)%Qc ->
  bounded_mass deg alpha st -> st_q st <> [] ->
  exists st',
    step indptr indices deg alpha epsilon numba_div st = Ok st' /\
    bounded_mass deg alpha st' /\
    (dict_sum (st_r st') <= dict_sum (st_r st))%Qc.
Proof.
  intros Hwf Ha [Hb Hle] Hne.
  destruct (st_q st) as [|u q] eqn:Eq; [contradiction|].
  assert (Hu : is_node deg u).
  { destruct Hb as (Hq & _). rewrite Eq in Hq. inversion Hq. assumption. }
  destruct (step_base indptr indices deg alpha epsilon Hwf Ha st u q Hb Eq)
    as (r' & added & Hstep & Hb' & Hres & Hsum & _).
  destruct (forwarded_total_le indptr indices deg alpha u _ Hwf Hu Ha Hres)
    as [HF0 HF1].
  eexists. split; [exact Hstep|]. unfold bounded_mass. cbn [st_p st_r].
  rewrite dict_sum_add, Hsum.
  revert HF0 HF1 Hle Hres.
  generalize (of_int (degree deg u) * forwarded deg alpha u (getd u (st_r st)))%Qc
    (getd u (st_r st)) (dict_sum (st_p st)) (dict_sum (st_r st)).
  intros F res P R HF0 HF1 Hle Hres. destruct Ha as [Ha0 Ha1].
  split; [split; [exact Hb'|]|]; qc_to_q; nra.
Qed.

Lemma bounded_mass_preserved (indptr indices deg : list Z) (alpha epsilon : Qc)
    (st st' : state) :
  wf_graph indptr indices deg -> (0 <= alpha <= 1)%Qc ->
  bounded_mass deg alpha st -> st_q st <> [] ->
  step indptr indices deg alpha epsilon numba_div st = Ok st' ->
  bounded_mass deg alpha st'.
Proof.
  intros Hwf Ha Hb Hne Hstep.
  destruct (bounded_mass_step indptr indices deg alpha epsilon st Hwf Ha Hb Hne)
    as (st1 & Hstep1 & Hb1 & _).
  rewrite Hstep1 in Hstep. injection Hstep as <-. assumption.
Qed.

(** C1, as the code has it.  On every well-formed graph, for every seed,
    [alpha] and [epsilon], the loop never fails.  After each of its
    iterations, in exact arithmetic: when every node has a positive degree,
    [alpha * sum(p) + sum(r) == alpha]; when [0 <= alpha <= 1],
    [alpha * sum(p) + sum(r) <= alpha] (a popped node of degree 0 forwards
    nothing) and the next iteration does not increase [sum(r)]. *)
Theorem scaled_mass_is_conserved
    (indptr indices deg : list Z) (alpha epsilon : Qc) (s : Z) (k : nat) :
  wf_graph indptr indices deg -> is_node deg s ->
  exists st,
    run indptr indices deg alpha epsilon numba_div k (ppr_init alpha s) = Ok st /\
    (Forall (fun d => 0 < d) deg ->
     (alpha * dict_sum (st_p st) + dict_sum (st_r st) = alpha)%Qc) /\
    ((0 <= alpha <= 1)%Qc ->
     (alpha * dict_sum (st_p st) + dict_sum (st_r st) <= alpha)%Qc /\
     (st_q st <> [] ->
      exists st',
        step indptr indices deg alpha epsilon numba_div st = Ok st' /\
        (dict_sum (st_r st') <= dict_sum (st_r st))%Qc)).
Proof.
  intros Hwf Hs.
  assert (Hq0 : Forall (is_node deg) (st_q (ppr_init alpha s)))
    by (cbn; constructor; [assumption|constructor]).
  assert (Hbal0 : balanced alpha (ppr_init alpha s))
    by (unfold balanced; cbn; ring).
  destruct (run_nodes_total indptr indices deg alpha epsilon Hwf k
              (ppr_init alpha s) Hq0) as (st & Hrun & _).
  exists st. split; [exact Hrun|]. split.
  - intros Hpos.
    apply (run_invariant indptr indices deg alpha epsilon
             (fun st => Forall (is_node deg) (st_q st) /\ balanced alpha st)
             (fun st st' => balanced_preserved indptr indices deg alpha epsilon
                              st st' Hwf Hpos)
             k (ppr_init alpha s) st (conj Hq0 Hbal0) Hrun).
  - intros Ha.
    assert (Hb0 : bounded_mass deg alpha (ppr_init alpha s)).
    { split; [apply ppr_init_base; assumption|].
      rewrite Hbal0. apply Qcle_refl. }
    pose proof (run_invariant indptr indices deg alpha epsilon
                  (bounded_mass deg alpha)
                  (fun st st' => bounded_mass_preserved indptr indices deg alpha
                                   epsilon st st' Hwf Ha)
                  k (ppr_init alpha s) st Hb0 Hrun) as Hb.
    split; [apply Hb|]. intros Hne.
    destruct (bounded_mass_step indptr indices deg alpha epsilon st Hwf Ha Hb Hne)
      as (st' & Hstep & _ & Hle).
    exists st'. split; assumption.
Qed.

Lemma scaled_mass_is_conserved_witness :
  wf_graph cycle_indptr cycle_indices cycle_deg /\ is_node cycle_deg 0 /\
  Forall (fun d => 0 < d) cycle_deg /\
  exists st,
    run cycle_indptr cycle_indices cycle_deg half tenth numba_div 3
      (ppr_init half 0) = Ok st /\
    (half * dict_sum (st_p st) + dict_sum (st_r st) = half)%Qc.
Proof.
  assert (H1 : wf_graph cycle_indptr cycle_indices cycle_deg) by reflexivity.
  assert (H2 : is_node cycle_deg 0) by (unfold is_node; simpl; lia).
  assert (H3 : Forall (fun d => 0 < d) cycle_deg)
    by (repeat constructor).
  split; [exact H1|]. split; [exact H2|]. split; [exact H3|].
  destruct (scaled_mass_is_conserved cycle_indptr cycle_indices cycle_deg half
              tenth 0 3 H1 H2) as (st & Hrun & Hbal & _).
  exists st. split; [exact Hrun|exact (Hbal H3)].
Defined.

(** C1, as the specification states it, fails: on the two-node cycle with
    [alpha = 1/2], after the first iteration [sum(p) + sum(r)] is [3/4]. *)
Lemma unscaled_mass_is_not_conserved :
  exists st,
    run cycle_indptr cycle_indices cycle_deg half tenth numba_div 1
      (ppr_init half 0) = Ok st /\
    (dict_sum (st_p st) + dict_sum (st_r st))%Qc = Q2Qc (3 # 4) /\
    (dict_sum (st_p st) + dict_sum (st_r st))%Qc <> half.
Proof.
  eexists. split; [vm_compute; reflexivity|]. split.
  - apply Qc_is_canon. vm_compute. reflexivity.
  - intros H. apply (f_equal this) in H. vm_compute in H. discriminate.
Qed.

(** ** Restart probability one (C2) *)

Lemma nonneg_sum_zero (d : dict) :
  nonneg d -> dict_sum d = 0%Qc -> forall k, getd k d = 0%Qc.
Proof.
  intros Hd. induction Hd as [|[k' v] d Hv Hd IH]; intros Hsum k.
  - reflexivity.
  - cbn [dict_sum fold_right snd] in Hsum. fold (dict_sum d) in Hsum.
    cbn [snd] in Hv. pose proof (nonneg_sum d Hd) as Hs.
    assert (Hv0 : v = 0%Qc).
    { revert Hsum Hs Hv. generalize (dict_sum d). intros S Hsum Hs Hv.
      apply Qcle_antisym; [|assumption]. qc_to_q. lra. }
    assert (Hs0 : dict_sum d = 0%Qc).
    { subst v. rewrite Qcplus_0_l in Hsum. assumption. }
    unfold getd. cbn [dict_get]. destruct (k =? k'); [assumption|].
    apply IH. assumption.
Qed.

Lemma dict_set_forall (P : Z * Qc -> Prop) (k : Z) (v : Qc) (d : dict) :
  Forall P d -> P (k, v) -> Forall P (dict_set k v d).
Proof.
  intros Hd Hk. induction Hd as [|[k' v'] d Hv Hd IH]; cbn.
  - constructor; [assumption|constructor].
  - destruct (k =? k'); constructor; assumption.
Qed.

Lemma dict_add_cons_neq (k k' : Z) (x v : Qc) (d : dict) :
  k <> k' -> dict_add k x ((k', v) :: d) = (k', v) :: dict_add k x d.
Proof.
  intros Hne. unfold dict_add. cbn [dict_get].
  destruct (k =? k') eqn:E; [apply Z.eqb_eq in E; contradiction|].
  destruct (dict_get k d); cbn [dict_set]; rewrite E; reflexivity.
Qed.

Lemma values_all_zero (d : dict) :
  Forall (fun kv => snd kv = 0%Qc) d ->
  values d = repeat 0%Qc (length (keys d)).
Proof.
  intros H. induction H as [|[k v] d Hv H IH]; cbn; [reflexivity|].
  cbn in Hv. subst v. f_equal. exact IH.
Qed.

Section RestartOne.

Variables indptr indices deg : list Z.
Variable epsilon : Qc.
Variable s : Z.
Hypothesis Hwf : wf_graph indptr indices deg.
Hypothesis Hs : is_node deg s.
Hypothesis Heps : (0 < epsilon)%Qc.

Local Abbreviation dang := (dangling indptr indices deg s).
Local Abbreviation settled := (settled_one indptr indices deg s).

Lemma settled_one_first (st' : state) :
  step indptr indices deg 1%Qc epsilon numba_div (ppr_init 1%Qc s) = Ok st' ->
  settled st'.
Proof.
  intros Hstep.
  destruct (step_spec indptr indices deg 1%Qc epsilon Hwf
              [(s, 0%Qc)] [(s, 1%Qc)] s [] Hs)
    as (r' & added & Hstep' & _ & Hsum & _ & _ & _ & Hincl & _).
  unfold ppr_init in Hstep. rewrite Hstep' in Hstep. injection Hstep as <-.
  unfold settled_one. cbn [st_p st_r st_q]. split; [|split].
  - rewrite Hsum. unfold getd, forwarded, Qcdiv. cbn [dict_get dict_sum fold_right snd].
    rewrite Z.eqb_refl. ring.
  - intros w Hw. rewrite app_nil_r in Hw. apply Hincl. assumption.
  - exists []. split; [|constructor].
    unfold dict_add, getd. cbn [dict_get]. rewrite Z.eqb_refl.
    cbn [dict_set]. rewrite Z.eqb_refl, Qcplus_0_l. reflexivity.
Qed.

Lemma settled_one_step (st st' : state) :
  base_inv deg st -> active_inv deg 1%Qc epsilon st -> settled st ->
  st_q st <> [] ->
  step indptr indices deg 1%Qc epsilon numba_div st = Ok st' ->
  settled st'.
Proof.
  intros Hb Ha (Hsum & Hq & p0 & Hp & Hp0) Hne Hstep.
  destruct st as [p r q]. cbn [st_p st_r st_q] in *.
  destruct q as [|u q]; [contradiction|].
  destruct Hb as (Hnodes & Hnd & Hr). cbn [st_q st_r] in *.
  inversion Hnodes as [|? ? Hu Hnodes']; subst.
  assert (Hzero : forall k, getd k r = 0%Qc)
    by (apply nonneg_sum_zero; assumption).
  assert (Hd : degree deg u = 0).
  { pose proof (Ha u (or_introl eq_refl)) as Ht. cbn [st_r] in Ht.
    rewrite Hzero in Ht. unfold alpha_eps in Ht. rewrite Qcmult_1_l in Ht.
    pose proof (degree_nonneg indptr indices deg Hwf u Hu) as Hd0.
    destruct (Z.eq_dec (degree deg u) 0) as [E|E]; [assumption|].
    exfalso. assert (Hpos : (0 < epsilon * of_int (degree deg u))%Qc)
      by (apply Qc_lt_0_mult; [assumption|apply of_int_pos; lia]).
    revert Ht Hpos. generalize (epsilon * of_int (degree deg u))%Qc.
    intros x Ht Hpos. qc_to_q. lra. }
  assert (Hus : u <> s).
  { intros ->. pose proof (Hq s (or_introl eq_refl)) as Hin.
    destruct (wf_graph_node _ _ _ s Hwf Hs) as (_ & _ & _ & Hlen & _).
    rewrite Hd in Hlen. destruct (neighbours indptr indices s);
      [contradiction|cbn in Hlen; lia]. }
  rewrite (step_degree_zero numba_div indptr indices deg 1%Qc epsilon
             ((s, 1%Qc) :: p0) r u q Hwf Hu Hd) in Hstep.
  injection Hstep as <-. unfold settled_one. cbn [st_p st_r st_q].
  split; [|split].
  - rewrite dict_sum_set, Hsum, Hzero. ring.
  - intros w Hw. apply Hq. right. assumption.
  - exists (dict_add u 0%Qc p0). rewrite Hzero.
    split; [apply dict_add_cons_neq; assumption|].
    unfold dict_add. destruct (dict_get u p0) as [y|] eqn:E.
    + apply dict_set_forall; [assumption|].
      rewrite Forall_forall in Hp0. apply dict_get_in in E.
      destruct (Hp0 _ E) as [Hy Hdang]. cbn [fst snd] in *. subst y.
      split; [cbn; ring|assumption].
    + apply dict_set_forall; [assumption|].
      split; [reflexivity|]. split; [apply Hq; left; reflexivity|assumption].
Qed.

Lemma restart_one_result (fuel : nat) :
  (pop_bound deg 1%Qc epsilon s <= fuel)%nat ->
  exists ks',
    _calc_ppr_node fuel s indptr indices deg 1%Qc epsilon =
    Ok (s :: ks', 1%Qc :: repeat 0%Qc (length ks')) /\
    Forall dang ks'.
Proof.
  intros Hfuel.
  assert (Ha : (0 < 1)%Qc /\ (1 <= 1)%Qc)
    by (split; [reflexivity|apply Qcle_refl]).
  destruct (ppr_loop_total indptr indices deg 1%Qc epsilon Hwf Ha Heps
              settled s Hs settled_one_first settled_one_step fuel Hfuel)
    as (st & Hloop & _ & _ & _ & _ & p0 & Hp & Hp0).
  exists (keys p0). rewrite (calc_ppr_node_of_loop _ _ _ _ _ _ _ _ Hloop).
  rewrite Hp. cbn [keys values map fst snd]. split.
  - f_equal. f_equal. f_equal. apply values_all_zero.
    eapply Forall_impl; [|exact Hp0]. intros kv H. apply H.
  - unfold keys. apply Forall_map.
    eapply Forall_impl; [|exact Hp0]. intros kv H. apply H.
Qed.

End RestartOne.

(** C2, as the code has it.  With [alpha = 1] and [epsilon > 0], on every
    well-formed graph and for every seed [s], the push returns [s] with
    value exactly 1, followed only by out-neighbours of [s] that have
    degree 0, each with the explicit value 0.  When no out-neighbour of [s]
    has degree 0 the result is exactly [{s: 1}]. *)
Theorem restart_one_settles_seed
    (indptr indices deg : list Z) (epsilon : Qc) (s : Z) (fuel : nat) :
  wf_graph indptr indices deg -> is_node deg s -> (0 < epsilon)%Qc ->
  (pop_bound deg 1%Qc epsilon s <= fuel)%nat ->
  (exists ks',
     _calc_ppr_node fuel s indptr indices deg 1%Qc epsilon =
     Ok (s :: ks', 1%Qc :: repeat 0%Qc (length ks')) /\
     Forall (fun v => In v (neighbours indptr indices s) /\ degree deg v = 0)
       ks') /\
  (Forall (fun v => degree deg v <> 0) (neighbours indptr indices s) ->
   _calc_ppr_node fuel s indptr indices deg 1%Qc epsilon = Ok ([s], [1%Qc])).
Proof.
  intros Hwf Hs He Hfuel.
  destruct (restart_one_result indptr indices deg epsilon s Hwf Hs He fuel Hfuel)
    as (ks' & Hres & Hks).
  split; [exists ks'; split; assumption|].
  intros Hnz. rewrite Hres. destruct ks' as [|v ks']; [reflexivity|].
  exfalso. inversion Hks as [|? ? [Hin Hd] _]; subst.
  rewrite Forall_forall in Hnz. apply (Hnz v Hin). assumption.
Qed.

Lemma restart_one_settles_seed_witness :
  wf_graph cycle_indptr cycle_indices cycle_deg /\ is_node cycle_deg 0 /\
  (0 < tenth)%Qc /\ (pop_bound cycle_deg 1%Qc tenth 0 <= 20)%nat /\
  Forall (fun v => degree cycle_deg v <> 0)
    (neighbours cycle_indptr cycle_indices 0) /\
  _calc_ppr_node 20 0 cycle_indptr cycle_indices cycle_deg 1%Qc tenth
  = Ok ([0], [1%Qc]).
Proof.
  assert (H1 : wf_graph cycle_indptr cycle_indices cycle_deg) by reflexivity.
  assert (H2 : is_node cycle_deg 0) by (unfold is_node; simpl; lia).
  assert (H3 : (0 < tenth)%Qc) by reflexivity.
  assert (H4 : (pop_bound cycle_deg 1%Qc tenth 0 <= 20)%nat)
    by (vm_compute; lia).
  assert (H5 : Forall (fun v => degree cycle_deg v <> 0)
                 (neighbours cycle_indptr cycle_indices 0))
    by (repeat constructor; vm_compute; discriminate).
  split; [exact H1|]. split; [exact H2|]. split; [exact H3|].
  split; [exact H4|]. split; [exact H5|].
  exact (proj2 (restart_one_settles_seed cycle_indptr cycle_indices cycle_deg
                  tenth 0 20 H1 H2 H3 H4) H5).
Defined.

(** C2, as the specification states it, fails: with [alpha = 1] on the graph
    0 -> 1 where node 1 has no out-edge, the push from 0 also returns node 1,
    with value 0. *)
Lemma restart_one_returns_other_nodes :
  _calc_ppr_node 10 0 tail_indptr tail_indices tail_deg 1%Qc tenth
  = Ok ([0; 1], [1%Qc; 0%Qc]) /\
  _calc_ppr_node 10 0 tail_indptr tail_indices tail_deg 1%Qc tenth
  <> Ok ([0], [1%Qc]).
Proof.
  assert (E : _calc_ppr_node 10 0 tail_indptr tail_indices tail_deg 1%Qc tenth
              = Ok ([0; 1], [1%Qc; 0%Qc])) by (vm_compute; reflexivity).
  split; [exact E|]. rewrite E. discriminate.
Qed.

(** ** Values settled by the push *)


Section Positive.

Variables indptr indices deg : list Z.
Variables alpha epsilon : Qc.
Hypothesis Hwf : wf_graph indptr indices deg.
Hypothesis Halpha : (0 < alpha)%Qc /\ (alpha < 1)%Qc.

Local Abbreviation step' := (step indptr indices deg alpha epsilon numba_div).
Local Abbreviation push_edges' := (push_edges deg alpha epsilon numba_div).
Local Abbreviation fwd := (forwarded deg alpha).
Local Abbreviation base := (base_inv deg).

Let Halpha' : (0 <= alpha <= 1)%Qc.
Proof. split; apply Qclt_le_weak; apply Halpha. Qed.




Hypothesis Heps : (0 < epsilon)%Qc.


End Positive.

(** ** Explicit zero entries (C10) *)










(** ** Unknown normalization (C4) *)

Lemma activate_new (deg : list Z) (alpha epsilon : Qc) (v : Z) (r : dict)
    (q : list Z) :
  (alpha_eps alpha epsilon * of_int (degree deg v) <= getd v r)%Qc ->
  ~ In v q -> activate deg alpha epsilon v r q = v :: q.
Proof.
  intros Hge Hnin. unfold activate.
  apply geb_true in Hge. rewrite Hge.
  apply in_list_false in Hnin. rewrite Hnin. reflexivity.
Qed.

Lemma cycle_wf : wf_graph cycle_indptr cycle_indices cycle_deg.
Proof. reflexivity. Qed.

(** On the two-node cycle with [epsilon = 0], a pop of one node puts the
    other node in the worklist. *)
Lemma cycle_step (p r : dict) (u : Z) :
  u = 0 \/ u = 1 -> nonneg r ->
  exists p' r',
    step cycle_indptr cycle_indices cycle_deg half 0%Qc numba_div
      (mkState p r [u]) = Ok (mkState p' r' [1 - u]) /\
    nonneg r'.
Proof.
  intros Hu Hr.
  assert (Hnode : forall w, w = 0 \/ w = 1 -> is_node cycle_deg w)
    by (intros w [->| ->]; unfold is_node; simpl; lia).
  assert (Hnb : neighbours cycle_indptr cycle_indices u = [1 - u])
    by (destruct Hu as [->| ->]; reflexivity).
  assert (Hd : degree cycle_deg u <> 0)
    by (destruct Hu as [->| ->]; vm_compute; discriminate).
  assert (Hv : 1 - u = 0 \/ 1 - u = 1) by lia.
  assert (Hthr : (alpha_eps half 0 * of_int (degree cycle_deg (1 - u)) = 0)%Qc)
    by (unfold alpha_eps; rewrite Qcmult_0_r, Qcmult_0_l; reflexivity).
  unfold step. cbn [st_q st_p st_r].
  destruct (wf_graph_node _ _ _ u cycle_wf (Hnode u Hu)) as (Hlo & Hhi & _).
  rewrite Hlo, Hhi. cbn [bind]. fold (neighbours cycle_indptr cycle_indices u).
  rewrite Hnb. cbn [push_edges].
  rewrite (push_edge_ok cycle_indptr cycle_indices cycle_deg half 0%Qc cycle_wf
             u (1 - u) _ _ _ (Hnode u Hu) Hd (Hnode _ Hv)).
  cbn [bind].
  set (r1 := dict_add (1 - u) _ _).
  assert (Hr1 : nonneg r1).
  { unfold r1. apply nonneg_add.
    - apply nonneg_set; [assumption|apply Qcle_refl].
    - apply (forwarded_nonneg cycle_indptr cycle_indices cycle_deg half cycle_wf);
        [apply Hnode; assumption|split; vm_compute; discriminate|].
      apply nonneg_getd. assumption. }
  rewrite activate_new.
  - eexists _, r1. split; [reflexivity|assumption].
  - rewrite Hthr. apply nonneg_getd. assumption.
  - intros [].
Qed.

Lemma cycle_loop_diverges (fuel : nat) :
  forall (p r : dict) (u : Z),
    u = 0 \/ u = 1 -> nonneg r ->
    loop cycle_indptr cycle_indices cycle_deg half 0%Qc numba_div fuel
      (mkState p r [u]) = OutOfFuel.
Proof.
  induction fuel as [|fuel IH]; intros p r u Hu Hr; cbn [loop st_q].
  - reflexivity.
  - destruct (cycle_step p r u Hu Hr) as (p' & r' & Hstep & Hr').
    rewrite Hstep. cbn [bind]. apply IH; [lia|assumption].
Qed.

Lemma cycle_push_diverges (fuel : nat) :
  _calc_ppr_node fuel 0 cycle_indptr cycle_indices cycle_deg half 0%Qc
  = OutOfFuel.
Proof.
  unfold _calc_ppr_node, ppr_init. rewrite cycle_loop_diverges.
  - reflexivity.
  - left. reflexivity.
  - constructor; [vm_compute; discriminate|constructor].
Qed.

(** C4, as the specification states it, fails: the normalization string is
    examined after the PPR computation.  The two-node cycle is the combined
    adjacency [A] of a 1 x 1 [adj_matrix] with one entry; on it, with
    [epsilon = 0], the push does not terminate, and a call with the unknown
    normalization 'bogus' raises no error, whatever the bound on pops. *)
Lemma unknown_normalization_checked_late :
  ~ exists (fuel : nat) (e : exn),
      topk_ppr_matrix insertion_argsort (fun _ _ m => Ok m) (fun _ _ m => Ok m)
        [0%nat] fuel cycle_csr 1 true half 0%Qc [0] 0 "bogus" = Raise e.
Proof.
  intros (fuel & e & H).
  unfold topk_ppr_matrix, ppr_topk, calc_ppr_topk_parallel in H.
  cbn [fold_left bind length repeat] in H. unfold ppr_iteration in H.
  change (getitem [0] (Z.of_nat 0)) with (@Ok Z 0) in H. cbn [bind] in H.
  change (csr_indptr cycle_csr) with cycle_indptr in H.
  change (csr_indices cycle_csr) with cycle_indices in H.
  change (out_degree cycle_csr) with cycle_deg in H.
  rewrite cycle_push_diverges in H. cbn [bind] in H. discriminate.
Qed.

(** C4, as the code has it.  When [topk_ppr_matrix] is called with a
    normalization other than 'sym', 'col' and 'row': once the PPR
    computation has returned, the call raises [ValueError] with a message
    that names the string; it returns no matrix in any case; and the string
    is examined after the PPR computation, so that an error of that
    computation, or its running out of pops, is the outcome of the call. *)
Theorem unknown_normalization_raises_after_ppr
    (argsort : list Qc -> list Z)
    (rescale_sym rescale_col : csr -> list Z -> sparse -> result sparse)
    (sched : list nat) (fuel : nat) (A : csr) (size0 : Z) (flag : bool)
    (alpha eps : Qc) (idx : list Z) (topk : Z) (normalization : string) :
  String.eqb normalization "sym" = false ->
  String.eqb normalization "col" = false ->
  String.eqb normalization "row" = false ->
  let call :=
    topk_ppr_matrix argsort rescale_sym rescale_col sched fuel A size0 flag
      alpha eps idx topk normalization in
  let ppr := ppr_topk argsort sched fuel A alpha eps idx topk in
  let err := ValueError ("Unknown PPR normalization: " ++ normalization) in
  (forall m, ppr = Ok m -> call = Raise err) /\
  (forall m, call <> Ok m) /\
  (forall e, ppr = Raise e -> call = Raise e) /\
  (ppr = OutOfFuel -> call = OutOfFuel).
Proof.
  intros H1 H2 H3 call ppr err. unfold call, topk_ppr_matrix. fold ppr.
  rewrite H1, H2, H3. fold err.
  destruct ppr as [m| | |]; cbn [bind];
    (split; [|split; [|split]]); intros; try discriminate; try reflexivity;
    try assumption.
Qed.

Lemma unknown_normalization_raises_after_ppr_witness :
  String.eqb "bogus" "sym" = false /\ String.eqb "bogus" "col" = false /\
  String.eqb "bogus" "row" = false /\
  forall m,
    ppr_topk insertion_argsort [0%nat] 30 cycle_csr half tenth [0] 0 = Ok m ->
    topk_ppr_matrix insertion_argsort (fun _ _ m => Ok m) (fun _ _ m => Ok m)
      [0%nat] 30 cycle_csr 1 true half tenth [0] 0 "bogus"
    = Raise (ValueError "Unknown PPR normalization: bogus").
Proof.
  assert (H1 : String.eqb "bogus" "sym" = false) by reflexivity.
  assert (H2 : String.eqb "bogus" "col" = false) by reflexivity.
  assert (H3 : String.eqb "bogus" "row" = false) by reflexivity.
  split; [exact H1|]. split; [exact H2|]. split; [exact H3|].
  exact (proj1 (unknown_normalization_raises_after_ppr insertion_argsort
                  (fun _ _ m => Ok m) (fun _ _ m => Ok m) [0%nat] 30 cycle_csr
                  1 true half tenth [0] 0 "bogus" H1 H2 H3)).
Defined.

(** * Further properties of the code *)

(** ** The keys of the returned row *)

(** What a pop does to [p], whatever the graph and the division. *)
Lemma step_p (indptr indices deg : list Z) (alpha epsilon : Qc)
    (divide : Qc -> Z -> result Qc) (st st' : state) :
  step indptr indices deg alpha epsilon divide st = Ok st' ->
  exists u q, st_q st = u :: q /\
              st_p st' = dict_add u (getd u (st_r st)) (st_p st).
Proof.
  unfold step. destruct (st_q st) as [|u q]; [discriminate|].
  destruct (getitem indptr u); cbn [bind]; try discriminate.
  destruct (getitem indptr (u + 1)); cbn [bind]; try discriminate.
  destruct (push_edges _ _ _ _ _ _ _ _) as [[r' q']| | |]; cbn [bind];
    try discriminate.
  intros [= <-]. exists u, q. split; reflexivity.
Qed.

(** A property kept by the iterations holds when the loop returns. *)
Lemma loop_invariant (indptr indices deg : list Z) (alpha epsilon : Qc)
    (divide : Qc -> Z -> result Qc) (J : state -> Prop) :
  (forall st st', J st ->
     step indptr indices deg alpha epsilon divide st = Ok st' -> J st') ->
  forall (fuel : nat) (st st' : state),
    J st -> loop indptr indices deg alpha epsilon divide fuel st = Ok st' ->
    J st' /\ st_q st' = [].
Proof.
  intros HJ. induction fuel as [|fuel IH]; intros st st' Hj Hloop;
    cbn [loop] in Hloop.
  - destruct (st_q st) eqn:Eq; [|discriminate].
    injection Hloop as <-. auto.
  - destruct (st_q st) eqn:Eq.
    + injection Hloop as <-. auto.
    + destruct (step _ _ _ _ _ _ st) as [st1| | |] eqn:Es; cbn [bind] in Hloop;
        try discriminate.
      apply (IH st1 st'); [apply (HJ st st1); assumption|assumption].
Qed.

Lemma loop_keys_grow (indptr indices deg : list Z) (alpha epsilon : Qc)
    (divide : Qc -> Z -> result Qc) (fuel : nat) (st st' : state) :
  NoDup (keys (st_p st)) ->
  loop indptr indices deg alpha epsilon divide fuel st = Ok st' ->
  NoDup (keys (st_p st')) /\ exists tail, keys (st_p st') = keys (st_p st) ++ tail.
Proof.
  intros Hnd Hloop.
  apply (loop_invariant indptr indices deg alpha epsilon divide
           (fun x => NoDup (keys (st_p x)) /\
                     exists tail, keys (st_p x) = keys (st_p st) ++ tail))
    in Hloop.
  - apply Hloop.
  - intros s1 s2 [Hn [tail Ht]] Hstep.
    apply step_p in Hstep. destruct Hstep as (u & q & _ & Hp). rewrite Hp.
    split; [apply keys_dict_add_nodup; assumption|].
    destruct (keys_dict_add_prefix u (getd u (st_r s1)) (st_p s1)) as [t2 E].
    exists (tail ++ t2). rewrite E, Ht, app_assoc. reflexivity.
  - split; [assumption|]. exists []. rewrite app_nil_r. reflexivity.
Qed.

(** X1.  Whenever the single-seed push returns, whatever the graph and the
    parameters, the node ids it returns are pairwise distinct, there are as
    many values as node ids, and the first node id is the seed. *)
Theorem push_keys_distinct_seed_first
    (fuel : nat) (s : Z) (indptr indices deg : list Z) (alpha epsilon : Qc)
    (ks : list Z) (vs : list Qc) :
  _calc_ppr_node fuel s indptr indices deg alpha epsilon = Ok (ks, vs) ->
  NoDup ks /\ length ks = length vs /\ exists tail, ks = s :: tail.
Proof.
  intros H. pose proof (calc_ppr_node_lengths _ _ _ _ _ _ _ _ _ H) as Hlen.
  unfold _calc_ppr_node in H.
  destruct (loop _ _ _ _ _ _ _ _) as [st| | |] eqn:El; cbn [bind] in H;
    try discriminate.
  injection H as <- <-.
  apply loop_keys_grow in El;
    [|cbn; constructor; [intros []|constructor]].
  destruct El as [Hnd [tail Ht]]. split; [assumption|]. split; [assumption|].
  exists tail. rewrite Ht. reflexivity.
Qed.

Lemma push_keys_distinct_seed_first_witness :
  exists ks vs,
    _calc_ppr_node 30 0 cycle_indptr cycle_indices cycle_deg half tenth
    = Ok (ks, vs) /\
    NoDup ks /\ length ks = length vs /\ exists tail, ks = 0 :: tail.
Proof.
  destruct (_calc_ppr_node 30 0 cycle_indptr cycle_indices cycle_deg half tenth)
    as [[ks vs]| | |] eqn:E;
    [|exfalso; vm_compute in E; discriminate..].
  exists ks, vs. split; [reflexivity|].
  exact (push_keys_distinct_seed_first _ _ _ _ _ _ _ _ _ E).
Defined.

Lemma keys_fold_set (v : Qc) (seeds : list Z) :
  forall d : dict,
    NoDup (keys d) ->
    NoDup (keys (fold_left (fun d i => dict_set i v d) seeds d)) /\
    incl seeds (keys (fold_left (fun d i => dict_set i v d) seeds d)) /\
    incl (keys d) (keys (fold_left (fun d i => dict_set i v d) seeds d)) /\
    (NoDup seeds -> (forall x, In x seeds -> ~ In x (keys d)) ->
     keys (fold_left (fun d i => dict_set i v d) seeds d) = keys d ++ seeds).
Proof.
  induction seeds as [|i seeds IH]; intros d Hd; cbn [fold_left].
  - split; [assumption|]. split; [intros x []|]. split; [apply incl_refl|].
    intros _ _. rewrite app_nil_r. reflexivity.
  - destruct (IH (dict_set i v d) (keys_dict_set_nodup i v d Hd))
      as (Hn & Hin & Hd' & Heq).
    assert (Hi : In i (keys (dict_set i v d))).
    { destruct (in_dec Z.eq_dec i (keys d)) as [H|H].
      - rewrite keys_dict_set_present; assumption.
      - rewrite keys_dict_set_absent by assumption.
        apply in_or_app. right. left. reflexivity. }
    assert (Hd2 : incl (keys d) (keys (dict_set i v d))).
    { destruct (keys_dict_set i v d) as [E|[_ E]]; rewrite E;
        [apply incl_refl|apply incl_appl, incl_refl]. }
    split; [assumption|]. split; [|split].
    + intros x [<-|Hx]; [apply Hd'; assumption|apply Hin; assumption].
    + intros x Hx. apply Hd', Hd2. assumption.
    + intros Hnd Hfresh. inversion Hnd as [|? ? Hni Hnd']; subst.
      rewrite Heq; [|assumption|].
      * rewrite keys_dict_set_absent by (apply Hfresh; left; reflexivity).
        rewrite <- app_assoc. reflexivity.
      * intros x Hx.
        rewrite keys_dict_set_absent by (apply Hfresh; left; reflexivity).
        intros H. apply in_app_or in H. destruct H as [H|[<-|[]]].
        -- apply (Hfresh x); [right; assumption|assumption].
        -- contradiction.
Qed.

(** X2.  Whenever the multi-seed push returns, whatever the graph and the
    parameters, the node ids it returns are pairwise distinct, every seed
    is among them, and when the seeds are pairwise distinct they come
    first, in their order. *)
Theorem class_push_keys_hold_seeds
    (fuel : nat) (seeds : list Z) (indptr indices deg : list Z)
    (alpha epsilon : Qc) (ks : list Z) (vs : list Qc) :
  _calc_gpr_node fuel seeds indptr indices deg alpha epsilon = Ok (ks, vs) ->
  NoDup ks /\ length ks = length vs /\ incl seeds ks /\
  (NoDup seeds -> exists tail, ks = seeds ++ tail).
Proof.
  intros H. unfold _calc_gpr_node in H.
  destruct (loop _ _ _ _ _ _ _ _) as [st| | |] eqn:El; cbn [bind] in H;
    try discriminate.
  injection H as <- <-.
  destruct (keys_fold_set 0%Qc seeds [] (NoDup_nil Z))
    as (Hn & Hin & _ & Heq).
  apply loop_keys_grow in El; [|exact Hn].
  destruct El as [Hnd [tail Ht]]. cbn [gpr_init st_p] in Ht.
  split; [assumption|]. split.
  { unfold keys, values. rewrite !length_map. reflexivity. }
  split.
  - intros x Hx. rewrite Ht. apply in_or_app. left. apply Hin. assumption.
  - intros Hs. exists tail. rewrite Ht, Heq; [reflexivity|assumption|].
    intros x _ [].
Qed.

Lemma class_push_keys_hold_seeds_witness :
  exists ks vs,
    _calc_gpr_node 30 [1; 0] cycle_indptr cycle_indices cycle_deg half tenth
    = Ok (ks, vs) /\
    NoDup ks /\ length ks = length vs /\ incl [1; 0] ks /\
    (NoDup [1; 0] -> exists tail, ks = [1; 0] ++ tail).
Proof.
  destruct (_calc_gpr_node 30 [1; 0] cycle_indptr cycle_indices cycle_deg half
              tenth) as [[ks vs]| | |] eqn:E;
    [|exfalso; vm_compute in E; discriminate..].
  exists ks, vs. split; [reflexivity|].
  exact (class_push_keys_hold_seeds _ _ _ _ _ _ _ _ _ E).
Defined.

(** ** The returned row as a sub-probability vector *)

Lemma nonneg_get_le_sum (k : Z) (x : Qc) (d : dict) :
  nonneg d -> dict_get k d = Some x -> (x <= dict_sum d)%Qc.
Proof.
  intros Hd. induction Hd as [|[k' v] d Hv Hd IH]; cbn [dict_get];
    [discriminate|].
  cbn [dict_sum fold_right snd]. fold (dict_sum d). cbn [snd] in Hv.
  pose proof (nonneg_sum d Hd) as Hs. destruct (k =? k').
  - intros [= <-]. revert Hs. generalize (dict_sum d). intros S Hs.
    qc_to_q. lra.
  - intros H. apply IH in H. revert H Hs Hv. generalize (dict_sum d).
    intros S H Hs Hv. qc_to_q. lra.
Qed.

Lemma nonneg_values_le_sum (d : dict) :
  nonneg d -> Forall (fun v => (0 <= v <= dict_sum d)%Qc) (values d).
Proof.
  intros Hd. unfold values. apply Forall_map. apply Forall_forall.
  intros [k v] Hin. cbn [snd]. split.
  - unfold nonneg in Hd. rewrite Forall_forall in Hd. apply (Hd _ Hin).
  - pose proof (nonneg_sum d Hd) as Hs. revert Hin.
    induction Hd as [|[k' v'] d Hv Hd IH]; intros Hin; [destruct Hin|].
    cbn [dict_sum fold_right snd]. fold (dict_sum d). cbn [snd] in Hv.
    pose proof (nonneg_sum d Hd) as Hs'. destruct Hin as [E|Hin].
    + injection E as -> ->. revert Hs'. generalize (dict_sum d). intros S Hs'.
      qc_to_q. lra.
    + specialize (IH Hs' Hin). revert IH Hv. generalize (dict_sum d).
      intros S IH Hv. qc_to_q. lra.
Qed.

Lemma row_inv_step (indptr indices deg : list Z) (alpha epsilon : Qc) (s : Z)
    (st st' : state) :
  wf_graph indptr indices deg -> (0 <= alpha <= 1)%Qc ->
  base_inv deg st -> row_inv deg alpha s st -> st_q st <> [] ->
  step indptr indices deg alpha epsilon numba_div st = Ok st' ->
  row_inv deg alpha s st'.
Proof.
  intros Hwf Ha Hb (Hp & Hk & Hm & x & Hx & Hseed) Hne Hstep.
  destruct (st_q st) as [|u q] eqn:Eq; [contradiction|].
  assert (Hu : is_node deg u).
  { destruct Hb as (Hn & _). rewrite Eq in Hn. inversion Hn. assumption. }
  destruct (step_base indptr indices deg alpha epsilon Hwf Ha st u q Hb Eq)
    as (r' & added & Hstep' & _ & Hres & _ & _ & _ & _ & Hmono).
  assert (Hbm : bounded_mass deg alpha st') .
  { apply (bounded_mass_preserved indptr indices deg alpha epsilon st st' Hwf Ha);
      [split; assumption|rewrite Eq; discriminate|assumption]. }
  rewrite Hstep' in Hstep. injection Hstep as <-.
  unfold row_inv. cbn [st_p st_r st_q] in *.
  split; [apply nonneg_add; assumption|]. split; [|split; [apply Hbm|]].
  - apply Forall_forall. intros y Hy.
    destruct (keys_dict_add u (getd u (st_r st)) (st_p st)) as [E|[_ E]];
      rewrite E in Hy.
    + rewrite Forall_forall in Hk. apply Hk. assumption.
    + apply in_app_or in Hy. destruct Hy as [Hy|[<-|[]]]; [|assumption].
      rewrite Forall_forall in Hk. apply Hk. assumption.
  - destruct (Z.eq_dec s u) as [<-|Hsu].
    + rewrite dict_get_add_eq. eexists. split; [reflexivity|]. left.
      unfold getd at 1. rewrite Hx.
      destruct Hseed as [Hle|[_ Hle]].
      * revert Hle Hres. generalize (getd s (st_r st)). intros y Hle Hres.
        qc_to_q. lra.
      * pose proof (nonneg_get s (st_p st) x Hp Hx) as Hx0.
        revert Hle Hx0. generalize (getd s (st_r st)). intros y Hle Hx0.
        qc_to_q. lra.
    + rewrite dict_get_add_neq by assumption. exists x. split; [assumption|].
      destruct Hseed as [Hle|[Hin Hle]]; [left; assumption|right].
      destruct Hin as [Hin|Hin]; [congruence|].
      split; [apply in_or_app; right; assumption|].
      eapply Qcle_trans; [exact Hle|apply Hmono; assumption].
Qed.

Lemma row_inv_init (deg : list Z) (alpha : Qc) (s : Z) :
  is_node deg s -> row_inv deg alpha s (ppr_init alpha s).
Proof.
  intros Hs. unfold row_inv, ppr_init. cbn [st_p st_r st_q].
  split; [constructor; [apply Qcle_refl|constructor]|].
  split; [constructor; [assumption|constructor]|]. split.
  - cbn. replace (alpha * (0 + 0) + (alpha + 0))%Qc with alpha by ring.
    apply Qcle_refl.
  - exists 0%Qc. cbn [dict_get]. rewrite Z.eqb_refl. split; [reflexivity|].
    right. split; [left; reflexivity|].
    unfold getd. cbn [dict_get]. rewrite Z.eqb_refl. apply Qcle_refl.
Qed.

(** The push from a seed terminates and [row_inv] holds at its end. *)
Lemma ppr_loop_row (indptr indices deg : list Z) (alpha epsilon : Qc) (s : Z)
    (fuel : nat) :
  wf_graph indptr indices deg -> is_node deg s ->
  (0 < alpha)%Qc -> (alpha <= 1)%Qc -> (0 < epsilon)%Qc ->
  (pop_bound deg alpha epsilon s <= fuel)%nat ->
  exists st,
    loop indptr indices deg alpha epsilon numba_div fuel (ppr_init alpha s)
    = Ok st /\
    st_q st = [] /\ base_inv deg st /\ row_inv deg alpha s st.
Proof.
  intros Hwf Hs Ha0 Ha1 He Hfuel.
  assert (Ha : (0 < alpha)%Qc /\ (alpha <= 1)%Qc) by (split; assumption).
  assert (Ha' : (0 <= alpha <= 1)%Qc)
    by (split; [apply Qclt_le_weak; assumption|assumption]).
  pose proof (ppr_init_base deg alpha Ha' s Hs) as Hb0.
  apply (ppr_loop_total indptr indices deg alpha epsilon Hwf Ha He
           (row_inv deg alpha s) s Hs); [| |assumption].
  - intros st' Hstep.
    apply (row_inv_step indptr indices deg alpha epsilon s (ppr_init alpha s) st'
             Hwf Ha' Hb0 (row_inv_init deg alpha s Hs));
      [discriminate|assumption].
  - intros st st' Hb _ Hj Hne Hstep.
    apply (row_inv_step indptr indices deg alpha epsilon s st st'); assumption.
Qed.

Lemma dict_sum_values (d : dict) :
  fold_right Qcplus 0%Qc (values d) = dict_sum d.
Proof.
  unfold values, dict_sum. induction d as [|[k v] d IH]; cbn; [reflexivity|].
  rewrite IH. reflexivity.
Qed.

(** What [row_inv] gives when the worklist is empty. *)
Lemma row_inv_final (deg : list Z) (alpha : Qc) (s : Z) (st : state) :
  (0 < alpha)%Qc -> base_inv deg st -> row_inv deg alpha s st -> st_q st = [] ->
  Forall (fun v => (0 <= v <= 1)%Qc) (values (st_p st)) /\
  (alpha <= dict_sum (st_p st))%Qc /\ (dict_sum (st_p st) <= 1)%Qc /\
  exists x, dict_get s (st_p st) = Some x /\ (alpha <= x)%Qc.
Proof.
  intros Ha0 Hb (Hp & Hk & Hm & x & Hx & Hseed) Hq.
  assert (Hle1 : (dict_sum (st_p st) <= 1)%Qc).
  { pose proof (nonneg_sum _ (proj2 (proj2 Hb))) as Hr.
    apply (Qcmult_lt_0_le_reg_r _ _ alpha Ha0). rewrite Qcmult_1_l.
    revert Hm Hr. rewrite (Qcmult_comm (dict_sum (st_p st)) alpha).
    generalize (alpha * dict_sum (st_p st))%Qc (dict_sum (st_r st)).
    intros a b Hm Hr. qc_to_q. lra. }
  assert (Hxa : (alpha <= x)%Qc).
  { destruct Hseed as [H|[Hin _]]; [assumption|].
    rewrite Hq in Hin. destruct Hin. }
  split; [|split; [|split; [assumption|]]].
  - eapply Forall_impl; [|apply nonneg_values_le_sum; assumption].
    intros v [H0 H1]. split; [assumption|].
    eapply Qcle_trans; eassumption.
  - eapply Qcle_trans; [exact Hxa|].
    apply (nonneg_get_le_sum s x); assumption.
  - exists x. split; assumption.
Qed.

(** X3.  On a well-formed graph, for [alpha] in (0, 1] and [epsilon > 0],
    the push from a seed returns a sub-probability vector over the nodes of
    the graph: every returned id is a node, every value lies between 0 and
    1, and the values sum to at least [alpha] and at most 1. *)
Theorem push_row_is_subprobability
    (indptr indices deg : list Z) (alpha epsilon : Qc) (s : Z) (fuel : nat) :
  wf_graph indptr indices deg -> is_node deg s ->
  (0 < alpha)%Qc -> (alpha <= 1)%Qc -> (0 < epsilon)%Qc ->
  (pop_bound deg alpha epsilon s <= fuel)%nat ->
  exists ks vs,
    _calc_ppr_node fuel s indptr indices deg alpha epsilon = Ok (ks, vs) /\
    Forall (is_node deg) ks /\
    Forall (fun v => (0 <= v <= 1)%Qc) vs /\
    (alpha <= fold_right Qcplus 0%Qc vs)%Qc /\
    (fold_right Qcplus 0%Qc vs <= 1)%Qc.
Proof.
  intros Hwf Hs Ha0 Ha1 He Hfuel.
  destruct (ppr_loop_row indptr indices deg alpha epsilon s fuel Hwf Hs Ha0 Ha1
              He Hfuel) as (st & Hloop & Hq & Hb & Hrow).
  destruct (row_inv_final deg alpha s st Ha0 Hb Hrow Hq)
    as (Hvals & Hlow & Hhigh & _).
  exists (keys (st_p st)), (values (st_p st)).
  split; [apply calc_ppr_node_of_loop; assumption|].
  split; [apply Hrow|]. split; [assumption|].
  rewrite dict_sum_values. split; assumption.
Qed.

Lemma push_row_is_subprobability_witness :
  wf_graph cycle_indptr cycle_indices cycle_deg /\ is_node cycle_deg 0 /\
  (0 < half)%Qc /\ (half <= 1)%Qc /\ (0 < tenth)%Qc /\
  (pop_bound cycle_deg half tenth 0 <= 30)%nat /\
  exists ks vs,
    _calc_ppr_node 30 0 cycle_indptr cycle_indices cycle_deg half tenth
    = Ok (ks, vs) /\
    Forall (is_node cycle_deg) ks /\
    Forall (fun v => (0 <= v <= 1)%Qc) vs /\
    (half <= fold_right Qcplus 0%Qc vs)%Qc /\
    (fold_right Qcplus 0%Qc vs <= 1)%Qc.
Proof.
  assert (H1 : wf_graph cycle_indptr cycle_indices cycle_deg) by reflexivity.
  assert (H2 : is_node cycle_deg 0) by (unfold is_node; simpl; lia).
  assert (H3 : (0 < half)%Qc) by reflexivity.
  assert (H4 : (half <= 1)%Qc) by (vm_compute; discriminate).
  assert (H5 : (0 < tenth)%Qc) by reflexivity.
  assert (H6 : (pop_bound cycle_deg half tenth 0 <= 30)%nat)
    by (vm_compute; lia).
  split; [exact H1|]. split; [exact H2|]. split; [exact H3|].
  split; [exact H4|]. split; [exact H5|]. split; [exact H6|].
  exact (push_row_is_subprobability cycle_indptr cycle_indices cycle_deg half
           tenth 0 30 H1 H2 H3 H4 H5 H6).
Defined.

(** ** The stopping criterion *)

Lemma push_edge_quiet (deg : list Z) (alpha epsilon : Qc)
    (divide : Qc -> Z -> result Qc) (u : Z) (res : Qc) (r : dict) (q : list Z)
    (v : Z) (r1 : dict) (q1 : list Z) :
  quiet deg alpha epsilon r q ->
  push_edge deg alpha epsilon divide u res (r, q) v = Ok (r1, q1) ->
  quiet deg alpha epsilon r1 q1.
Proof.
  intros Hq. unfold push_edge.
  destruct (getitem deg u) as [du| | |]; cbn [bind]; try discriminate.
  destruct (divide _ du) as [F| | |]; cbn [bind]; try discriminate.
  destruct (getitem deg v) as [dv| | |] eqn:Ev; cbn [bind]; try discriminate.
  assert (Hother : forall w dw, getitem deg w = Ok dw -> w <> v -> ~ In w q ->
            (getd w (dict_add v F r) < alpha_eps alpha epsilon * of_int dw)%Qc \/
            getd w (dict_add v F r) = 0%Qc).
  { intros w dw Hw Hne Hnin. rewrite getd_add_neq by assumption.
    apply Hq; assumption. }
  destruct (geb _ _) eqn:G; [destruct (in_list v q) eqn:I; cbn [negb]|];
    intros [= <- <-]; intros w dw Hw Hnin.
  - apply in_list_true in I. apply Hother; try assumption.
    intros ->. contradiction.
  - apply Hother; try assumption.
    + intros ->. apply Hnin. left. reflexivity.
    + intros H. apply Hnin. right. assumption.
  - destruct (Z.eq_dec w v) as [->|Hne]; [|apply Hother; assumption].
    rewrite Ev in Hw. injection Hw as <-. left. apply geb_false. assumption.
Qed.

Lemma push_edges_quiet (deg : list Z) (alpha epsilon : Qc)
    (divide : Qc -> Z -> result Qc) (u : Z) (res : Qc) (vs : list Z) :
  forall (r : dict) (q : list Z) (r' : dict) (q' : list Z),
    quiet deg alpha epsilon r q ->
    push_edges deg alpha epsilon divide u res (r, q) vs = Ok (r', q') ->
    quiet deg alpha epsilon r' q'.
Proof.
  induction vs as [|v vs IH]; intros r q r' q' Hq Hrun; cbn [push_edges] in Hrun.
  - injection Hrun as <- <-. assumption.
  - destruct (push_edge deg alpha epsilon divide u res (r, q) v)
      as [[r1 q1]| | |] eqn:E; cbn [bind] in Hrun; try discriminate.
    apply (IH r1 q1 r' q'); [|assumption].
    apply (push_edge_quiet _ _ _ _ _ _ _ _ _ _ _ Hq E).
Qed.

Lemma step_quiet (indptr indices deg : list Z) (alpha epsilon : Qc)
    (divide : Qc -> Z -> result Qc) (st st' : state) :
  quiet deg alpha epsilon (st_r st) (st_q st) ->
  step indptr indices deg alpha epsilon divide st = Ok st' ->
  quiet deg alpha epsilon (st_r st') (st_q st').
Proof.
  intros Hq. unfold step. destruct (st_q st) as [|u q] eqn:Eq; [discriminate|].
  destruct (getitem indptr u); cbn [bind]; try discriminate.
  destruct (getitem indptr (u + 1)); cbn [bind]; try discriminate.
  destruct (push_edges _ _ _ _ _ _ _ _) as [[r' q']| | |] eqn:E; cbn [bind];
    try discriminate.
  intros [= <-]. cbn [st_r st_q].
  refine (push_edges_quiet _ _ _ _ _ _ _ _ _ _ _ _ E).
  intros v dv Hv Hnin.
  destruct (Z.eq_dec v u) as [->|Hne].
  - right. apply getd_set_eq.
  - rewrite getd_set_neq by assumption. apply (Hq v dv Hv).
    intros [H|H]; [congruence|contradiction].
Qed.

Lemma fold_set_absent (alpha : Qc) (v : Z) (seeds : list Z) :
  ~ In v seeds ->
  forall d, dict_get v d = None ->
    dict_get v (fold_left (fun d inode => dict_set inode alpha d) seeds d) = None.
Proof.
  induction seeds as [|i l IH]; intros Hn d Hd; cbn [fold_left]; [assumption|].
  apply IH; [intros H; apply Hn; right; assumption|].
  rewrite dict_get_set_neq; [assumption|].
  intros ->. apply Hn. left. reflexivity.
Qed.

Lemma loop_quiet (indptr indices deg : list Z) (alpha epsilon : Qc)
    (divide : Qc -> Z -> result Qc) (fuel : nat) (st0 st : state) :
  quiet deg alpha epsilon (st_r st0) (st_q st0) ->
  loop indptr indices deg alpha epsilon divide fuel st0 = Ok st ->
  forall v dv, getitem deg v = Ok dv ->
    (getd v (st_r st) < alpha * epsilon * of_int dv)%Qc \/
    getd v (st_r st) = 0%Qc.
Proof.
  intros H0 Hloop.
  apply (loop_invariant indptr indices deg alpha epsilon divide
           (fun x => quiet deg alpha epsilon (st_r x) (st_q x))) in Hloop.
  - destruct Hloop as [Hq Hnil]. intros v dv Hv.
    apply (Hq v dv Hv). rewrite Hnil. intros [].
  - intros s1 s2. apply step_quiet.
  - assumption.
Qed.

(** X4.  When the [while] loop of a push returns - from a single seed or
    from a seed set, on any graph, with any parameters - every node is
    below its activation threshold: its residual is lower than
    [alpha * epsilon * deg[v]], or it has no residual. *)
Theorem residuals_below_threshold_at_exit
    (indptr indices deg : list Z) (alpha epsilon : Qc)
    (divide : Qc -> Z -> result Qc) (fuel : nat) :
  (forall (s : Z) (st : state),
     loop indptr indices deg alpha epsilon divide fuel (ppr_init alpha s) = Ok st ->
     forall v dv, getitem deg v = Ok dv ->
       (getd v (st_r st) < alpha * epsilon * of_int dv)%Qc \/
       getd v (st_r st) = 0%Qc) /\
  (forall (seeds : list Z) (st : state),
     loop indptr indices deg alpha epsilon divide fuel (gpr_init alpha seeds)
     = Ok st ->
     forall v dv, getitem deg v = Ok dv ->
       (getd v (st_r st) < alpha * epsilon * of_int dv)%Qc \/
       getd v (st_r st) = 0%Qc).
Proof.
  split.
  - intros s st. apply loop_quiet.
    intros v dv Hv Hnin. right. cbn [ppr_init st_r st_q] in *.
    unfold getd. cbn [dict_get].
    destruct (v =? s) eqn:E; [|reflexivity].
    apply Z.eqb_eq in E. exfalso. apply Hnin. left. congruence.
  - intros seeds st. apply loop_quiet.
    intros v dv Hv Hnin. right. cbn [gpr_init st_r st_q] in *.
    assert (Hn : ~ In v seeds)
      by (intros H; apply Hnin; apply -> in_rev; assumption).
    unfold getd. rewrite (fold_set_absent alpha v seeds Hn [] eq_refl).
    reflexivity.
Qed.

Lemma residuals_below_threshold_at_exit_witness :
  exists st,
    loop cycle_indptr cycle_indices cycle_deg half tenth numba_div 30
      (ppr_init half 0) = Ok st /\
    forall v dv, getitem cycle_deg v = Ok dv ->
      (getd v (st_r st) < half * tenth * of_int dv)%Qc \/
      getd v (st_r st) = 0%Qc.
Proof.
  destruct (loop cycle_indptr cycle_indices cycle_deg half tenth numba_div 30
              (ppr_init half 0)) as [st| | |] eqn:E;
    [|exfalso; vm_compute in E; discriminate..].
  exists st. split; [reflexivity|].
  exact (proj1 (residuals_below_threshold_at_exit cycle_indptr cycle_indices
                  cycle_deg half tenth numba_div 30) 0 st E).
Defined.

(** ** The two runtimes

    [_calc_ppr_node] is compiled by numba and [_calc_gpr_node] is
    interpreted; their loops have the same text and differ in what a
    division by a zero degree does. *)

Lemma push_edge_runtimes (deg : list Z) (alpha epsilon : Qc) (u : Z) (res : Qc)
    (rq : dict * list Z) (v : Z) :
  push_edge deg alpha epsilon numpy_div u res rq v =
  push_edge deg alpha epsilon numba_div u res rq v \/
  (push_edge deg alpha epsilon numba_div u res rq v = Raise ZeroDivisionError /\
   push_edge deg alpha epsilon numpy_div u res rq v = NonFinite).
Proof.
  unfold push_edge. destruct rq as [r q].
  destruct (getitem deg u) as [du| | |]; cbn [bind]; try (left; reflexivity).
  unfold numba_div, numpy_div. destruct (du =? 0); cbn [bind].
  - right. split; reflexivity.
  - left. reflexivity.
Qed.

Lemma push_edges_runtimes (deg : list Z) (alpha epsilon : Qc) (u : Z) (res : Qc)
    (vs : list Z) :
  forall rq : dict * list Z,
  push_edges deg alpha epsilon numpy_div u res rq vs =
  push_edges deg alpha epsilon numba_div u res rq vs \/
  (push_edges deg alpha epsilon numba_div u res rq vs = Raise ZeroDivisionError /\
   push_edges deg alpha epsilon numpy_div u res rq vs = NonFinite).
Proof.
  induction vs as [|v vs IH]; intros rq; cbn [push_edges]; [left; reflexivity|].
  destruct (push_edge_runtimes deg alpha epsilon u res rq v) as [E|[E1 E2]].
  - rewrite E.
    destruct (push_edge deg alpha epsilon numba_div u res rq v) as [rq'| | |];
      cbn [bind]; try (left; reflexivity).
    apply IH.
  - rewrite E1, E2. right. split; reflexivity.
Qed.

Lemma step_runtimes (indptr indices deg : list Z) (alpha epsilon : Qc)
    (st : state) :
  step indptr indices deg alpha epsilon numpy_div st =
  step indptr indices deg alpha epsilon numba_div st \/
  (step indptr indices deg alpha epsilon numba_div st = Raise ZeroDivisionError /\
   step indptr indices deg alpha epsilon numpy_div st = NonFinite).
Proof.
  unfold step. destruct (st_q st) as [|u q]; [left; reflexivity|].
  destruct (getitem indptr u) as [lo| | |]; cbn [bind]; try (left; reflexivity).
  destruct (getitem indptr (u + 1)) as [hi| | |]; cbn [bind];
    try (left; reflexivity).
  destruct (push_edges_runtimes deg alpha epsilon u (getd u (st_r st))
              (slice indices lo hi) (dict_set u 0%Qc (st_r st), q))
    as [E|[E1 E2]].
  - rewrite E. left. reflexivity.
  - rewrite E1, E2. right. split; reflexivity.
Qed.

(** The interpreted loop and the compiled loop have the same outcome,
    except where the compiled one raises [ZeroDivisionError] and the
    interpreted one goes on with a non-finite value. *)
Lemma loop_runtimes (indptr indices deg : list Z) (alpha epsilon : Qc)
    (fuel : nat) :
  forall st : state,
  loop indptr indices deg alpha epsilon numpy_div fuel st =
  loop indptr indices deg alpha epsilon numba_div fuel st \/
  (loop indptr indices deg alpha epsilon numba_div fuel st
   = Raise ZeroDivisionError /\
   loop indptr indices deg alpha epsilon numpy_div fuel st = NonFinite).
Proof.
  induction fuel as [|fuel IH]; intros st; cbn [loop].
  - left. reflexivity.
  - destruct (st_q st) as [|u q]; [left; reflexivity|].
    destruct (step_runtimes indptr indices deg alpha epsilon st) as [E|[E1 E2]].
    + rewrite E.
      destruct (step indptr indices deg alpha epsilon numba_div st)
        as [st1| | |]; cbn [bind]; try (left; reflexivity).
      apply IH.
    + rewrite E1, E2. right. split; reflexivity.
Qed.

Lemma gpr_init_single (alpha : Qc) (s : Z) :
  gpr_init alpha [s] = ppr_init alpha s.
Proof. reflexivity. Qed.


(** ** Rows without a positive entry *)

Lemma length_out_degree (a : csr) :
  length (out_degree a) = Z.to_nat (csr_nrows a).
Proof. unfold out_degree. rewrite length_map, length_seq. reflexivity. Qed.

Lemma out_degree_nth (a : csr) (u : nat) :
  Z.of_nat u < csr_nrows a ->
  nth u (out_degree a) 0 =
  Z.of_nat
    (length
       (filter (fun x : Qc => negb (geb 0%Qc x))
          (slice (csr_data a) (nth u (csr_indptr a) 0)
             (nth (S u) (csr_indptr a) 0)))).
Proof.
  intros Hu. unfold out_degree.
  set (f := fun u0 : nat => Z.of_nat (length (filter _ (slice _ (nth u0 _ _) _)))).
  rewrite (nth_indep _ 0 (f 0%nat)) by (rewrite length_map, length_seq; lia).
  rewrite map_nth, seq_nth by lia. reflexivity.
Qed.

Lemma filter_none {A : Type} (f : A -> bool) (l : list A) :
  Forall (fun x => f x = false) l -> filter f l = [].
Proof.
  intros H. induction H as [|x l Hx H IH]; cbn; [reflexivity|].
  rewrite Hx. assumption.
Qed.

Lemma step_zero_degree_raise (indptr indices deg : list Z) (alpha epsilon : Qc)
    (divide : Qc -> Z -> result Qc) (e : exn) (st : state) (u lo hi : Z)
    (q : list Z) :
  (forall x, divide x 0 = Raise e) ->
  st_q st = u :: q ->
  getitem indptr u = Ok lo -> getitem indptr (u + 1) = Ok hi ->
  slice indices lo hi <> [] -> getitem deg u = Ok 0 ->
  step indptr indices deg alpha epsilon divide st = Raise e.
Proof.
  intros Hdiv Eq Hlo Hhi Hne Hdeg. unfold step.
  rewrite Eq, Hlo, Hhi. cbn [bind].
  destruct (slice indices lo hi) as [|v vs]; [contradiction|].
  cbn [push_edges]. unfold push_edge. rewrite Hdeg. cbn [bind].
  rewrite Hdiv. reflexivity.
Qed.

Lemma step_zero_degree_nonfinite (indptr indices deg : list Z)
    (alpha epsilon : Qc) (divide : Qc -> Z -> result Qc) (st : state)
    (u lo hi : Z) (q : list Z) :
  (forall x, divide x 0 = NonFinite) ->
  st_q st = u :: q ->
  getitem indptr u = Ok lo -> getitem indptr (u + 1) = Ok hi ->
  slice indices lo hi <> [] -> getitem deg u = Ok 0 ->
  step indptr indices deg alpha epsilon divide st = NonFinite.
Proof.
  intros Hdiv Eq Hlo Hhi Hne Hdeg. unfold step.
  rewrite Eq, Hlo, Hhi. cbn [bind].
  destruct (slice indices lo hi) as [|v vs]; [contradiction|].
  cbn [push_edges]. unfold push_edge. rewrite Hdeg. cbn [bind].
  rewrite Hdiv. reflexivity.
Qed.

(** X6.  [ppr_topk] and [topk_gpr_matrix] take the degree of a node to be
    the number of POSITIVE entries stored in its row, and the loop runs
    over ALL the entries stored in the row.  For a seed [s] whose row
    stores entries none of which is positive, the degree is 0 and the
    first pop divides by it: the compiled push raises
    [ZeroDivisionError], and the interpreted push computes a non-finite
    value.  [ppr_topk] does not raise: whenever it returns, the matrix
    stores no entry in the row of [s], and for the seed [s] alone it
    returns a matrix of one row without entries. *)
Theorem seed_without_positive_entry_gets_no_row
    (argsort : list Qc -> list Z) (a : csr) (alpha epsilon : Qc) (s : Z) :
  0 <= s < csr_nrows a ->
  slice (csr_indices a) (nth (Z.to_nat s) (csr_indptr a) 0)
    (nth (S (Z.to_nat s)) (csr_indptr a) 0) <> [] ->
  Forall (fun x => (x <= 0)%Qc)
    (slice (csr_data a) (nth (Z.to_nat s) (csr_indptr a) 0)
       (nth (S (Z.to_nat s)) (csr_indptr a) 0)) ->
  (forall fuel,
     _calc_ppr_node (S fuel) s (csr_indptr a) (csr_indices a) (out_degree a)
       alpha epsilon = Raise ZeroDivisionError) /\
  (forall fuel,
     _calc_gpr_node (S fuel) [s] (csr_indptr a) (csr_indices a) (out_degree a)
       alpha epsilon = NonFinite) /\
  (forall sched fuel nodes topk i m,
     nth_error nodes i = Some s ->
     ppr_topk argsort sched fuel a alpha epsilon nodes topk = Ok m ->
     ~ In (Z.of_nat i) (sp_row m)) /\
  (forall fuel topk,
     ppr_topk argsort [0%nat] (S fuel) a alpha epsilon [s] topk
     = Ok (mkSparse (1, csr_nrows a) [] [] [])).
Proof.
  intros Hs Hne Hdata.
  set (lo := nth (Z.to_nat s) (csr_indptr a) 0) in *.
  set (hi := nth (S (Z.to_nat s)) (csr_indptr a) 0) in *.
  unfold csr_nrows in Hs.
  assert (Hlo : getitem (csr_indptr a) s = Ok lo)
    by (apply getitem_ok; lia).
  assert (Hhi : getitem (csr_indptr a) (s + 1) = Ok hi).
  { rewrite (getitem_ok _ _ 0) by lia.
    replace (Z.to_nat (s + 1)) with (S (Z.to_nat s)) by lia. reflexivity. }
  assert (Hdeg : getitem (out_degree a) s = Ok 0).
  { rewrite (getitem_ok _ _ 0) by (rewrite length_out_degree; unfold csr_nrows; lia).
    rewrite out_degree_nth by (unfold csr_nrows; lia). fold lo hi.
    rewrite filter_none; [reflexivity|].
    eapply Forall_impl; [|exact Hdata]. intros x Hx. cbn beta.
    unfold geb. apply Qle_bool_iff in Hx. rewrite Hx. reflexivity. }
  assert (Hppr : forall fuel,
    _calc_ppr_node (S fuel) s (csr_indptr a) (csr_indices a) (out_degree a)
      alpha epsilon = Raise ZeroDivisionError).
  { intros fuel. unfold _calc_ppr_node. cbn [loop ppr_init st_q].
    fold (ppr_init alpha s).
    rewrite (step_zero_degree_raise _ _ _ _ _ numba_div ZeroDivisionError
               (ppr_init alpha s) s lo hi []); try assumption; reflexivity. }
  split; [exact Hppr|]. split; [|split].
  - intros fuel. unfold _calc_gpr_node. rewrite gpr_init_single.
    cbn [loop ppr_init st_q]. fold (ppr_init alpha s).
    rewrite (step_zero_degree_nonfinite _ _ _ _ _ numpy_div
               (ppr_init alpha s) s lo hi []); try assumption; reflexivity.
  - intros sched fuel nodes topk i m Hi H. unfold ppr_topk in H.
    rewrite calc_ppr_topk_parallel_rows in H.
    destruct (run_rows_prange _ _ _) as [[js vals]| | |] eqn:E; cbn [bind] in H;
      try discriminate.
    assert (Hlt : (i < length nodes)%nat) by (apply nth_error_Some; congruence).
    assert (Hrow : nth_error js i = Some []).
    { apply run_rows_prange_spec in E. rewrite !repeat_length in E.
      destruct E as (_ & _ & Hin & Hout).
      assert (Hinit : nth_error (repeat (@nil Z) (length nodes)) i = Some [])
        by (rewrite nth_error_repeat by assumption; reflexivity).
      destruct (in_dec Nat.eq_dec i sched) as [Hsch|Hsch];
        [|rewrite (proj1 (Hout i Hsch)); exact Hinit].
      destruct (Hin i Hsch) as [(j & val & Hr & _)|(_ & Hj & _)];
        [|rewrite Hj; exact Hinit].
      exfalso. unfold ppr_row in Hr.
      rewrite (getitem_nth_error _ _ _ Hi) in Hr. cbn [bind] in Hr.
      destruct fuel as [|fuel].
      - cbn in Hr. discriminate.
      - rewrite Hppr in Hr. cbn [bind] in Hr. discriminate. }
    rewrite (construct_sparse_rows _ _ _ _ H). intros Hmem.
    apply repeat_rows_in in Hmem. destruct Hmem as (_ & row & Hr & Hnil).
    rewrite Z.sub_0_r, Nat2Z.id, Hrow in Hr. injection Hr as <-.
    apply Hnil. reflexivity.
  - intros fuel topk. unfold ppr_topk, calc_ppr_topk_parallel.
    cbn [fold_left bind length repeat]. unfold ppr_iteration.
    change (getitem [s] (Z.of_nat 0)) with (@Ok Z s). cbn [bind].
    rewrite Hppr. cbn [bind]. reflexivity.
Qed.

Lemma seed_without_positive_entry_gets_no_row_witness :
  ppr_topk insertion_argsort [0%nat] 5 (mkCsr [0; 1; 2] [1; 0] [0%Qc; 1%Qc])
    half tenth [0] 0
  = Ok (mkSparse (1, csr_nrows (mkCsr [0; 1; 2] [1; 0] [0%Qc; 1%Qc])) [] [] []).
Proof.
  refine (proj2 (proj2 (proj2
            (seed_without_positive_entry_gets_no_row insertion_argsort
               (mkCsr [0; 1; 2] [1; 0] [0%Qc; 1%Qc]) half tenth 0 _ _ _)))
            4%nat 0).
  - unfold csr_nrows. simpl. lia.
  - simpl. discriminate.
  - simpl. constructor; [vm_compute; discriminate|constructor].
Defined.

(** ** Calls without a seed or without a class *)

Lemma np_max_negative (train_idx : list Z) (m : Z) :
  Forall (fun c => c < 0) train_idx -> np_max train_idx = Ok m -> m < 0.
Proof.
  unfold np_max. destruct train_idx as [|x rest]; [discriminate|].
  intros H [= <-]. inversion H as [|? ? Hx Hrest]; subst. clear H.
  revert x Hx. induction Hrest as [|y rest Hy Hrest IH]; intros x Hx; cbn.
  - assumption.
  - apply IH. lia.
Qed.

(** X7.  No matrix is built from nothing.  With an empty array of seeds
    [topk_ppr_matrix] raises the [ValueError] of [np.concatenate], whatever
    the graph, the parameters and the normalization string (also an unknown
    one).  [topk_gpr_matrix] raises [ValueError] when no label is
    non-negative: from [np.max] when [train_idx] is empty, and from
    [np.concatenate] otherwise, the number of classes [max + 1] being 0 or
    less. *)
Theorem calls_without_rows_raise_value_error
    (argsort : list Qc -> list Z)
    (rescale_sym rescale_col : csr -> list Z -> sparse -> result sparse)
    (fuel : nat) (A : csr) (alpha eps : Qc) (topk : Z) :
  (forall (sched : list nat) (size0 : Z) (flag : bool) (normalization : string),
     Permutation sched (seq 0 (length (@nil Z))) ->
     topk_ppr_matrix argsort rescale_sym rescale_col sched fuel A size0 flag
       alpha eps [] topk normalization
     = Raise (ValueError "need at least one array to concatenate")) /\
  (forall train_idx : list Z,
     Forall (fun c => c < 0) train_idx ->
     exists msg,
       topk_gpr_matrix argsort fuel A alpha eps train_idx topk
       = Raise (ValueError msg)).
Proof.
  split.
  - intros sched size0 flag normalization Hperm. cbn [length seq] in Hperm.
    apply Permutation_sym, Permutation_nil in Hperm. subst sched.
    reflexivity.
  - intros train_idx Hneg. unfold topk_gpr_matrix.
    destruct (np_max train_idx) as [m| | |] eqn:E.
    + pose proof (np_max_negative train_idx m Hneg E) as Hm. cbn [bind].
      unfold calc_gpr_topk_parallel.
      replace (Z.to_nat (m + 1)) with 0%nat by lia.
      cbn [seq fold_left repeat bind construct_sparse]. eexists. reflexivity.
    + unfold np_max in E. destruct train_idx; [|discriminate].
      injection E as <-. cbn [bind]. eexists. reflexivity.
    + unfold np_max in E. destruct train_idx; discriminate.
    + unfold np_max in E. destruct train_idx; discriminate.
Qed.

Lemma calls_without_rows_raise_value_error_witness :
  topk_ppr_matrix insertion_argsort (fun _ _ m => Ok m) (fun _ _ m => Ok m) []
    5 cycle_csr 1 true half tenth [] 2 "row"
  = Raise (ValueError "need at least one array to concatenate") /\
  exists msg,
    topk_gpr_matrix insertion_argsort 5 cycle_csr half tenth [-1; -1] 2
    = Raise (ValueError msg).
Proof.
  pose proof (calls_without_rows_raise_value_error insertion_argsort
                (fun _ _ m => Ok m) (fun _ _ m => Ok m) 5 cycle_csr half
                tenth 2) as [Hppr Hgpr].
  split.
  - apply Hppr. apply Permutation_refl.
  - apply Hgpr. constructor; [lia|]. constructor; [lia|]. constructor.
Defined.

(** ** The assembled matrix *)

Lemma combine_app_same {A B : Type} (l1 l2 : list A) (m1 m2 : list B) :
  length l1 = length m1 ->
  combine (l1 ++ l2) (m1 ++ m2) = combine l1 m1 ++ combine l2 m2.
Proof.
  revert m1. induction l1 as [|x l1 IH]; intros [|y m1] H; cbn in *;
    try discriminate; [reflexivity|].
  f_equal. apply IH. congruence.
Qed.

Lemma length_repeat_rows (k : Z) (rs : list (list Z)) :
  length (repeat_rows k rs) = length (concat rs).
Proof.
  revert k. induction rs as [|r rs IH]; intros k; cbn; [reflexivity|].
  rewrite !length_app, repeat_length, IH. reflexivity.
Qed.

Lemma length_concat_same (ns : list (list Z)) (ws : list (list Qc)) :
  Forall2 (fun r w => length r = length w) ns ws ->
  length (concat ns) = length (concat ws).
Proof.
  intros H. induction H as [|r w ns ws Hrw H IH]; cbn; [reflexivity|].
  rewrite !length_app. congruence.
Qed.

(** The entries that one row contributes. *)
Lemma row_entries (k : Z) (r : list Z) (w : list Qc) (i c : Z) (v : Qc) :
  In (i, c, v) (combine (combine (repeat k (length r)) r) w) <->
  i = k /\ In (c, v) (combine r w).
Proof.
  revert w. induction r as [|c0 r IH]; intros [|v0 w]; cbn;
    try solve [split; [intros []|intros [_ []]]].
  rewrite IH. split.
  - intros [[= <- <- <-]|[-> H]]; split; auto.
  - intros [-> [[= <- <-]|H]]; auto.
Qed.

(** The entries of the coordinate arrays of [construct_sparse], the row
    indices starting at [k]. *)
Lemma rows_entries (ns : list (list Z)) (ws : list (list Qc)) :
  Forall2 (fun r w => length r = length w) ns ws ->
  forall (k i c : Z) (v : Qc),
  In (i, c, v)
    (combine (combine (repeat_rows k ns) (concat ns)) (concat ws)) <->
  k <= i /\
  exists r w,
    nth_error ns (Z.to_nat (i - k)) = Some r /\
    nth_error ws (Z.to_nat (i - k)) = Some w /\
    In (c, v) (combine r w).
Proof.
  intros H. induction H as [|r0 w0 ns ws Hrw H IH]; intros k i c v.
  - cbn. split; [intros []|].
    intros (_ & r & w & Hr & _). destruct (Z.to_nat (i - k)); discriminate.
  - cbn [repeat_rows concat].
    rewrite combine_app_same by (rewrite repeat_length; reflexivity).
    rewrite combine_app_same
      by (rewrite length_combine, repeat_length, Nat.min_id; assumption).
    rewrite in_app_iff, row_entries, IH. split.
    + intros [[-> Hin]|(Hk & r & w & Hr & Hw & Hin)].
      * split; [lia|]. exists r0, w0. rewrite Z.sub_diag. cbn. auto.
      * split; [lia|]. exists r, w.
        replace (Z.to_nat (i - k)) with (S (Z.to_nat (i - (k + 1)))) by lia.
        cbn. auto.
    + intros (Hk & r & w & Hr & Hw & Hin).
      destruct (Z.eq_dec i k) as [->|Hne].
      * left. rewrite Z.sub_diag in Hr, Hw. cbn in Hr, Hw.
        injection Hr as <-. injection Hw as <-. auto.
      * right. split; [lia|]. exists r, w.
        replace (Z.to_nat (i - k)) with (S (Z.to_nat (i - (k + 1)))) in Hr, Hw
          by lia.
        cbn in Hr, Hw. auto.
Qed.

Lemma existsb_none {A : Type} (f : A -> bool) (l : list A) :
  (forall x, In x l -> f x = false) -> existsb f l = false.
Proof.
  intros H. destruct (existsb f l) eqn:E; [|reflexivity].
  apply existsb_exists in E. destruct E as (x & Hx & Hf).
  rewrite (H x Hx) in Hf. discriminate.
Qed.

(** The checks of [sp.coo_matrix] pass on rows of matching lengths that
    fit the shape. *)
Lemma construct_sparse_ok (neighbors : list (list Z)) (weights : list (list Qc))
    (nrows ncols : Z) :
  neighbors <> [] ->
  Forall2 (fun r w => length r = length w) neighbors weights ->
  Z.of_nat (length neighbors) <= nrows ->
  Forall (Forall (fun c => 0 <= c < ncols)) neighbors ->
  construct_sparse neighbors weights (nrows, ncols) =
  Ok (mkSparse (nrows, ncols) (repeat_rows 0 neighbors) (concat neighbors)
        (concat weights)).
Proof.
  intros Hne Hsame Hrows Hcols.
  pose proof (length_repeat_rows 0 neighbors) as L1.
  pose proof (length_concat_same neighbors weights Hsame) as L2.
  assert (Hr : forall x, In x (repeat_rows 0 neighbors) ->
                         0 <= x < Z.of_nat (length neighbors)).
  { intros x Hx. apply repeat_rows_in in Hx.
    destruct Hx as (H0 & row & Hrow & _). split; [assumption|].
    assert (Z.to_nat (x - 0) < length neighbors)%nat
      by (apply nth_error_Some; congruence).
    lia. }
  assert (Hc : forall x, In x (concat neighbors) -> 0 <= x < ncols).
  { intros x Hx. apply in_concat in Hx. destruct Hx as (row & Hrow & Hx).
    rewrite Forall_forall in Hcols. specialize (Hcols row Hrow).
    rewrite Forall_forall in Hcols. apply Hcols. assumption. }
  unfold construct_sparse.
  destruct neighbors as [|r0 ns]; [contradiction|].
  destruct weights as [|w0 ws]; [inversion Hsame|].
  unfold coo_matrix. rewrite L1, <- L2, !Nat.eqb_refl. cbn [andb negb fst snd].
  rewrite existsb_none by (intros x Hx; apply Hr in Hx; lia).
  rewrite existsb_none by (intros x Hx; apply Hc in Hx; lia).
  rewrite existsb_none by (intros x Hx; apply Hr in Hx; lia).
  rewrite existsb_none by (intros x Hx; apply Hc in Hx; lia).
  reflexivity.
Qed.

(** X8.  [construct_sparse] accepts every non-empty list of rows whose
    index and weight arrays have the same lengths, when the matrix has a
    row for each of them and every index is a column of the matrix.  The
    matrix it returns has the requested shape and stores the entry
    [(i, c, v)] exactly when [(c, v)] is a pair of row [i]:
    [c = neighbors[i][k]] and [v = weights[i][k]] for some [k]. *)
Theorem construct_sparse_stores_the_rows
    (neighbors : list (list Z)) (weights : list (list Qc)) (nrows ncols : Z) :
  neighbors <> [] ->
  Forall2 (fun r w => length r = length w) neighbors weights ->
  Z.of_nat (length neighbors) <= nrows ->
  Forall (Forall (fun c => 0 <= c < ncols)) neighbors ->
  exists m,
    construct_sparse neighbors weights (nrows, ncols) = Ok m /\
    sp_shape m = (nrows, ncols) /\
    length (sp_row m) = length (sp_col m) /\
    length (sp_col m) = length (sp_data m) /\
    forall (i c : Z) (v : Qc),
      In (i, c, v) (combine (combine (sp_row m) (sp_col m)) (sp_data m)) <->
      0 <= i /\
      exists r w,
        nth_error neighbors (Z.to_nat i) = Some r /\
        nth_error weights (Z.to_nat i) = Some w /\
        In (c, v) (combine r w).
Proof.
  intros Hne Hsame Hrows Hcols.
  eexists. split;
    [apply construct_sparse_ok; assumption|].
  cbn [sp_shape sp_row sp_col sp_data]. split; [reflexivity|].
  split; [apply length_repeat_rows|].
  split; [apply length_concat_same; assumption|].
  intros i c v. rewrite (rows_entries neighbors weights Hsame 0 i c v).
  rewrite Z.sub_0_r. reflexivity.
Qed.

Lemma construct_sparse_stores_the_rows_witness :
  exists m,
    construct_sparse [[0; 1]; []] [[half; quarter]; []] (2, 2) = Ok m /\
    sp_shape m = (2, 2) /\
    length (sp_row m) = length (sp_col m) /\
    length (sp_col m) = length (sp_data m) /\
    forall (i c : Z) (v : Qc),
      In (i, c, v) (combine (combine (sp_row m) (sp_col m)) (sp_data m)) <->
      0 <= i /\
      exists r w,
        nth_error [[0; 1]; []] (Z.to_nat i) = Some r /\
        nth_error [[half; quarter]; []] (Z.to_nat i) = Some w /\
        In (c, v) (combine r w).
Proof.
  apply (construct_sparse_stores_the_rows [[0; 1]; []] [[half; quarter]; []] 2 2).
  - discriminate.
  - constructor; [reflexivity|]. constructor; [reflexivity|]. constructor.
  - simpl. lia.
  - constructor; [|constructor; [constructor|constructor]].
    constructor; [lia|]. constructor; [lia|]. constructor.
Defined.

(** ** Batches of seeds *)

Lemma rows_from_app (f : Z -> result (list Z * list Qc)) (a b : list Z) :
  rows_from f (a ++ b) =
  ('(js1, vals1) <- rows_from f a ;;
   '(js2, vals2) <- rows_from f b ;;
   Ok (js1 ++ js2, vals1 ++ vals2)).
Proof.
  induction a as [|n a IH]; cbn [app rows_from bind].
  - destruct (rows_from f b) as [[js vals]| | |]; reflexivity.
  - destruct (f n) as [[j v]| | |]; cbn [bind]; try reflexivity.
    rewrite IH.
    destruct (rows_from f a) as [[js1 vals1]| | |]; cbn [bind]; try reflexivity.
    destruct (rows_from f b) as [[js2 vals2]| | |]; reflexivity.
Qed.

(** X9.  [calc_ppr] can be run in batches: on the seeds [a] followed by
    the seeds [b] it returns the rows for [a] followed by the rows for
    [b], and its outcome is the first failure of the two calls when one
    fails. *)
Theorem calc_ppr_in_batches
    (fuel : nat) (indptr indices deg : list Z) (alpha epsilon : Qc)
    (a b : list Z) :
  calc_ppr fuel indptr indices deg alpha epsilon (a ++ b) =
  ('(js1, vals1) <- calc_ppr fuel indptr indices deg alpha epsilon a ;;
   '(js2, vals2) <- calc_ppr fuel indptr indices deg alpha epsilon b ;;
   Ok (js1 ++ js2, vals1 ++ vals2)).
Proof. rewrite !calc_ppr_rows_from. apply rows_from_app. Qed.

(** ** The order of the entries in a truncated row *)

Lemma StronglySorted_skipn {A : Type} (R : A -> A -> Prop) (n : nat) (l : list A) :
  StronglySorted R l -> StronglySorted R (skipn n l).
Proof.
  revert l. induction n as [|n IH]; intros l H; [assumption|].
  destruct l as [|x l]; cbn; [constructor|].
  apply IH. inversion H. assumption.
Qed.

Lemma StronglySorted_map {A B : Type} (f : A -> B) (R : B -> B -> Prop)
    (l : list A) :
  StronglySorted (fun a b => R (f a) (f b)) l -> StronglySorted R (map f l).
Proof.
  intros H. induction H as [|x l H IH Hx]; cbn; constructor; [assumption|].
  apply Forall_map. assumption.
Qed.

Lemma truncate_topk_sorted (argsort : list Qc -> list Z) (topk : Z)
    (j j' : list Z) (val val' : list Qc) :
  argsort_spec argsort -> 0 < topk ->
  truncate_topk argsort topk j val = Ok (j', val') ->
  StronglySorted Qcle val'.
Proof.
  intros Hspec Htopk. destruct (Hspec val) as [Hperm Hsorted].
  unfold truncate_topk. destruct (0 <? topk) eqn:E; [|apply Z.ltb_ge in E; lia].
  unfold slice_from.
  set (idx := skipn _ (argsort val)).
  assert (Hidx : Forall (fun i => 0 <= i < Z.of_nat (length val)) idx).
  { apply Forall_forall. intros i Hi.
    assert (Hin : In i (argsort val)).
    { rewrite <- (firstn_skipn
                   (Z.to_nat (slice_bound (Z.of_nat (length (argsort val)))
                                (- topk))) (argsort val)).
      apply in_or_app. right. exact Hi. }
    apply (Permutation_in _ Hperm) in Hin. apply in_map_iff in Hin.
    destruct Hin as (k & <- & Hk). apply in_seq in Hk. lia. }
  destruct (index_array j idx) as [js| | |]; cbn [bind]; try discriminate.
  rewrite (index_array_ok val 0%Qc idx) by exact Hidx. cbn [bind].
  intros [= _ <-]. apply StronglySorted_map.
  apply StronglySorted_skipn. exact Hsorted.
Qed.

(** The rows written by a loop over [range(n)], in any order, all have a
    property that every computed row has. *)
Lemma run_rows_all (row : nat -> result (list Z * list Qc))
    (P : nat -> list Z -> list Qc -> Prop) (sched : list nat) (n : nat)
    (js : list (list Z)) (vals : list (list Qc)) :
  Permutation sched (seq 0 n) ->
  (forall i j val, (i < n)%nat -> row i = Ok (j, val) -> P i j val) ->
  run_rows row sched (Ok (repeat [] n, repeat [] n)) = Ok (js, vals) ->
  length js = n /\ length vals = n /\
  forall i j val,
    nth_error js i = Some j -> nth_error vals i = Some val -> P i j val.
Proof.
  intros Hperm HP Hrun. apply run_rows_spec in Hrun.
  rewrite !repeat_length in Hrun. destruct Hrun as (L1 & L2 & Hin & _).
  split; [assumption|]. split; [assumption|].
  intros i j val Hj Hval.
  assert (Hi : (i < n)%nat) by (rewrite <- L1; apply nth_error_Some; congruence).
  assert (Hs : In i sched).
  { apply (Permutation_in _ (Permutation_sym Hperm)). apply in_seq. lia. }
  destruct (Hin i Hs) as (j0 & v0 & Hrow & Hj0 & Hv0).
  rewrite (Hj0 Hi) in Hj. rewrite (Hv0 Hi) in Hval.
  injection Hj as <-. injection Hval as <-. exact (HP i j0 v0 Hi Hrow).
Qed.

(** The same for a compiled loop, for a property that the empty row has. *)
Lemma run_rows_prange_all (row : nat -> result (list Z * list Qc))
    (P : nat -> list Z -> list Qc -> Prop) (sched : list nat) (n : nat)
    (js : list (list Z)) (vals : list (list Qc)) :
  Permutation sched (seq 0 n) ->
  (forall i j val, (i < n)%nat -> row i = Ok (j, val) -> P i j val) ->
  (forall i, (i < n)%nat -> P i [] []) ->
  run_rows_prange row sched (Ok (repeat [] n, repeat [] n)) = Ok (js, vals) ->
  length js = n /\ length vals = n /\
  forall i j val,
    nth_error js i = Some j -> nth_error vals i = Some val -> P i j val.
Proof.
  intros Hperm HP Hnil Hrun. apply run_rows_prange_spec in Hrun.
  rewrite !repeat_length in Hrun. destruct Hrun as (L1 & L2 & Hin & _).
  split; [assumption|]. split; [assumption|].
  intros i j val Hj Hval.
  assert (Hi : (i < n)%nat) by (rewrite <- L1; apply nth_error_Some; congruence).
  assert (Hs : In i sched).
  { apply (Permutation_in _ (Permutation_sym Hperm)). apply in_seq. lia. }
  destruct (Hin i Hs) as [(j0 & v0 & Hrow & Hj0 & Hv0)|(_ & Hj0 & Hv0)].
  - rewrite (Hj0 Hi) in Hj. rewrite (Hv0 Hi) in Hval.
    injection Hj as <-. injection Hval as <-. exact (HP i j0 v0 Hi Hrow).
  - rewrite Hj0, nth_error_repeat in Hj by assumption.
    rewrite Hv0, nth_error_repeat in Hval by assumption.
    injection Hj as <-. injection Hval as <-. apply Hnil. assumption.
Qed.

(** X10.  With [topk > 0] every row that the drivers return lists its
    entries by ascending value, so the last entry of a row is a largest
    one.  This holds for every [np.argsort] that sorts. *)
Theorem truncated_rows_ascend
    (argsort : list Qc -> list Z) (fuel : nat) (indptr indices deg : list Z)
    (alpha epsilon : Qc) (topk : Z) :
  argsort_spec argsort -> 0 < topk ->
  (forall sched nodes js vals,
     Permutation sched (seq 0 (length nodes)) ->
     calc_ppr_topk_parallel argsort sched fuel indptr indices deg alpha epsilon
       nodes topk = Ok (js, vals) ->
     Forall (StronglySorted Qcle) vals) /\
  (forall train_idx cls_size js vals,
     calc_gpr_topk_parallel argsort fuel indptr indices deg alpha epsilon
       train_idx cls_size topk = Ok (js, vals) ->
     Forall (StronglySorted Qcle) vals).
Proof.
  intros Hspec Htopk.
  assert (Hall : forall n (js : list (list Z)) (vals : list (list Qc)),
    length js = n /\ length vals = n /\
    (forall (i : nat) j val,
       nth_error js i = Some j -> nth_error vals i = Some val ->
       StronglySorted Qcle val) ->
    Forall (StronglySorted Qcle) vals).
  { intros n js vals (L1 & L2 & Hp).
    apply Forall_forall. intros val Hin.
    apply In_nth_error in Hin. destruct Hin as [i Hi].
    assert (Hlt : (i < length js)%nat)
      by (rewrite L1, <- L2; apply nth_error_Some; congruence).
    destruct (nth_error js i) as [j|] eqn:Ej;
      [|apply nth_error_None in Ej; lia].
    exact (Hp i j val Ej Hi). }
  split.
  - intros sched nodes js vals Hperm Hrun.
    rewrite calc_ppr_topk_parallel_rows in Hrun.
    apply (Hall (length nodes) js).
    apply (run_rows_prange_all
             (ppr_row argsort fuel indptr indices deg alpha epsilon nodes topk)
             (fun _ _ val => StronglySorted Qcle val) sched
             (length nodes) js vals Hperm); [| |exact Hrun].
    + intros i j val _ Hrow. unfold ppr_row in Hrow.
      destruct (getitem nodes (Z.of_nat i)) as [node| | |]; cbn [bind] in Hrow;
        try discriminate.
      destruct (_calc_ppr_node _ _ _ _ _ _ _) as [[j0 v0]| | |];
        cbn [bind] in Hrow; try discriminate.
      exact (truncate_topk_sorted argsort topk j0 j v0 val Hspec Htopk Hrow).
    + intros i _. constructor.
  - intros train_idx cls_size js vals Hrun.
    rewrite calc_gpr_topk_parallel_rows in Hrun.
    apply (Hall (Z.to_nat cls_size) js).
    apply (run_rows_all
             (gpr_row argsort fuel indptr indices deg alpha epsilon train_idx
                topk)
             (fun _ _ val => StronglySorted Qcle val)
             (seq 0 (Z.to_nat cls_size)) (Z.to_nat cls_size) js vals
             (Permutation_refl _)); [|exact Hrun].
    intros i j val _ Hrow. unfold gpr_row in Hrow.
    destruct (_calc_gpr_node _ _ _ _ _ _ _) as [[j0 v0]| | |]; cbn [bind] in Hrow;
      try discriminate.
    exact (truncate_topk_sorted argsort topk j0 j v0 val Hspec Htopk Hrow).
Qed.

Lemma truncated_rows_ascend_witness :
  exists js vals,
    calc_ppr_topk_parallel insertion_argsort [1%nat; 0%nat] 30 cycle_indptr
      cycle_indices cycle_deg half tenth [0; 1] 1 = Ok (js, vals) /\
    Forall (StronglySorted Qcle) vals.
Proof.
  destruct (calc_ppr_topk_parallel insertion_argsort [1%nat; 0%nat] 30
              cycle_indptr cycle_indices cycle_deg half tenth [0; 1] 1)
    as [[js vals]| | |] eqn:E;
    [|exfalso; vm_compute in E; discriminate..].
  exists js, vals. split; [reflexivity|].
  refine (proj1 (truncated_rows_ascend insertion_argsort 30 cycle_indptr
                   cycle_indices cycle_deg half tenth 1 insertion_argsort_spec _)
            [1%nat; 0%nat] [0; 1] js vals _ E).
  - lia.
  - apply perm_swap.
Defined.

(** ** The members of a class *)

Lemma where_eq_from (i : Z) (l : list Z) :
  forall (a : nat) (x : Z),
  In x (map fst (filter (fun kx : Z * Z => snd kx =? i)
                   (combine (map Z.of_nat (seq a (length l))) l))) <->
  exists k, x = Z.of_nat (a + k) /\ nth_error l k = Some i.
Proof.
  induction l as [|y l IH]; intros a x; cbn [length seq map combine filter].
  - split; [intros []|]. intros (k & _ & Hk). destruct k; discriminate.
  - cbn [snd]. split.
    + intros H.
      assert (Hcase : (y = i /\ x = Z.of_nat a) \/
                      exists k, x = Z.of_nat (S a + k) /\ nth_error l k = Some i).
      { destruct (y =? i) eqn:E.
        - cbn [map fst] in H. destruct H as [<-|H].
          + left. split; [apply Z.eqb_eq; assumption|reflexivity].
          + right. apply IH. assumption.
        - right. apply IH. assumption. }
      destruct Hcase as [[-> ->]|(k & -> & Hk)].
      * exists 0%nat. split; [f_equal; lia|reflexivity].
      * exists (S k). split; [f_equal; lia|assumption].
    + intros ([|k] & -> & Hk); cbn in Hk.
      * injection Hk as ->. rewrite Z.eqb_refl. left. cbn. f_equal. lia.
      * assert (Hin : In (Z.of_nat (a + S k))
                        (map fst (filter (fun kx : Z * Z => snd kx =? i)
                           (combine (map Z.of_nat (seq (S a) (length l))) l)))).
        { apply IH. exists k. split; [f_equal; lia|assumption]. }
        destruct (y =? i); [right|]; assumption.
Qed.

(** [np.where(train_idx == i)[0]] holds the positions of [train_idx] whose
    label is [i]. *)
Lemma where_eq_in (train_idx : list Z) (i x : Z) :
  In x (where_eq train_idx i) <->
  exists k, x = Z.of_nat k /\ nth_error train_idx k = Some i.
Proof. unfold where_eq. rewrite where_eq_from. reflexivity. Qed.

Lemma where_eq_nodup (train_idx : list Z) (i : Z) :
  NoDup (where_eq train_idx i).
Proof.
  unfold where_eq. generalize 0%nat.
  induction train_idx as [|y l IH]; intros a; cbn [length seq map combine filter];
    [constructor|].
  cbn [snd]. destruct (y =? i); [|apply IH].
  cbn [map fst]. constructor; [|apply IH].
  intros H. apply where_eq_from in H. destruct H as (k & Hk & _). lia.
Qed.

(** X11.  Without truncation ([topk <= 0]), row [i] of the class driver
    starts with the positions of [train_idx] that carry the label [i], in
    ascending order; so every node labelled [i] is in row [i]. *)
Theorem class_row_starts_with_its_members
    (argsort : list Qc -> list Z) (fuel : nat) (indptr indices deg : list Z)
    (alpha epsilon : Qc) (train_idx : list Z) (cls_size topk : Z)
    (js : list (list Z)) (vals : list (list Qc)) (i : nat) :
  topk <= 0 ->
  calc_gpr_topk_parallel argsort fuel indptr indices deg alpha epsilon
    train_idx cls_size topk = Ok (js, vals) ->
  (i < Z.to_nat cls_size)%nat ->
  exists tail,
    nth_error js i = Some (where_eq train_idx (Z.of_nat i) ++ tail) /\
    forall k, nth_error train_idx k = Some (Z.of_nat i) ->
              In (Z.of_nat k) (where_eq train_idx (Z.of_nat i) ++ tail).
Proof.
  intros Htopk Hrun Hi. rewrite calc_gpr_topk_parallel_rows in Hrun.
  apply run_rows_spec in Hrun. rewrite !repeat_length in Hrun.
  destruct Hrun as (_ & _ & Hin & _).
  destruct (Hin i) as (j & val & Hrow & Hj & _); [apply in_seq; lia|].
  unfold gpr_row in Hrow.
  destruct (_calc_gpr_node _ _ _ _ _ _ _) as [[j0 v0]| | |] eqn:E;
    cbn [bind] in Hrow; try discriminate.
  rewrite truncate_topk_full in Hrow by assumption. injection Hrow as <- <-.
  unfold _calc_gpr_node in E.
  destruct (loop _ _ _ _ _ _ _ _) as [st| | |] eqn:El; cbn [bind] in E;
    try discriminate.
  injection E as <- <-.
  set (seeds := where_eq train_idx (Z.of_nat i)) in *.
  destruct (keys_fold_set 0%Qc seeds [] (NoDup_nil Z)) as (Hn & _ & _ & Heq).
  apply loop_keys_grow in El; [|exact Hn].
  destruct El as [_ [tail Ht]]. cbn [gpr_init st_p] in Ht.
  rewrite Heq in Ht; [|apply where_eq_nodup|intros x _ []]. cbn [keys map app] in Ht.
  exists tail. split; [rewrite (Hj Hi), Ht; reflexivity|].
  intros k Hk. apply in_or_app. left. apply where_eq_in.
  exists k. split; [reflexivity|assumption].
Qed.

Lemma class_row_starts_with_its_members_witness :
  exists js vals,
    calc_gpr_topk_parallel insertion_argsort 30 cycle_indptr cycle_indices
      cycle_deg half tenth [0; 0] 1 0 = Ok (js, vals) /\
    exists tail,
      nth_error js 0 = Some (where_eq [0; 0] (Z.of_nat 0) ++ tail) /\
      forall k, nth_error [0; 0] k = Some (Z.of_nat 0) ->
                In (Z.of_nat k) (where_eq [0; 0] (Z.of_nat 0) ++ tail).
Proof.
  destruct (calc_gpr_topk_parallel insertion_argsort 30 cycle_indptr
              cycle_indices cycle_deg half tenth [0; 0] 1 0)
    as [[js vals]| | |] eqn:E;
    [|exfalso; vm_compute in E; discriminate..].
  exists js, vals. split; [reflexivity|].
  refine (class_row_starts_with_its_members insertion_argsort 30 cycle_indptr
            cycle_indices cycle_deg half tenth [0; 0] 1 0 js vals 0 _ E _).
  - lia.
  - simpl. lia.
Defined.

(** ** Parameters that leave no threshold *)

Section NoThreshold.

Variables indptr indices deg : list Z.
Variables alpha epsilon : Qc.
Hypothesis Hwf : wf_graph indptr indices deg.
Hypothesis Hdeg : Forall (fun d => 0 < d) deg.
Hypothesis Halpha : (0 <= alpha <= 1)%Qc.
Hypothesis Hzero : (alpha * epsilon <= 0)%Qc.

Local Abbreviation thr v := (alpha_eps alpha epsilon * of_int (degree deg v))%Qc.
Local Abbreviation push_edges' := (push_edges deg alpha epsilon numba_div).
Local Abbreviation step' := (step indptr indices deg alpha epsilon numba_div).
Local Abbreviation loop' := (loop indptr indices deg alpha epsilon numba_div).
Local Abbreviation fwd := (forwarded deg alpha).
Local Abbreviation act := (activate deg alpha epsilon).
Local Abbreviation base := (base_inv deg).

Lemma threshold_nonpositive (v : Z) : is_node deg v -> (thr v <= 0)%Qc.
Proof.
  intros Hv. unfold alpha_eps.
  pose proof (degree_positive deg v Hdeg Hv) as Hd.
  assert (H : (0 <= of_int (degree deg v))%Qc) by (apply of_int_nonneg; lia).
  revert Hzero H. generalize (alpha * epsilon)%Qc (of_int (degree deg v)).
  intros x y Hx Hy. qc_to_q. nra.
Qed.

(** Every neighbour passes the activation test. *)
Lemma activate_always (v : Z) (r : dict) (q : list Z) :
  is_node deg v -> nonneg r -> In v (act v r q) /\ incl q (act v r q).
Proof.
  intros Hv Hr. unfold activate.
  assert (G : geb (getd v r) (thr v) = true).
  { apply geb_true. eapply Qcle_trans; [apply threshold_nonpositive; assumption|].
    apply nonneg_getd. assumption. }
  rewrite G. destruct (in_list v q) eqn:I; cbn [negb].
  - split; [apply in_list_true; assumption|apply incl_refl].
  - split; [left; reflexivity|apply incl_tl, incl_refl].
Qed.

Lemma push_edges_all_active (u : Z) (res : Qc) (vs : list Z) :
  is_node deg u -> (0 <= fwd u res)%Qc -> Forall (is_node deg) vs ->
  forall (r : dict) (q : list Z), nonneg r ->
  exists (r' : dict) (q' : list Z),
    push_edges' u res (r, q) vs = Ok (r', q') /\ incl vs q' /\ incl q q'.
Proof.
  intros Hu Hf Hvs. induction Hvs as [|v vs Hv Hvs IH]; intros r q Hr.
  - exists r, q. cbn. split; [reflexivity|]. split; [intros x []|apply incl_refl].
  - cbn [push_edges].
    rewrite (push_edge_ok indptr indices deg alpha epsilon Hwf u v res r q Hu)
      by (try assumption; pose proof (degree_positive deg u Hdeg Hu); lia).
    cbn [bind]. set (r1 := dict_add v (fwd u res) r).
    assert (Hr1 : nonneg r1) by (apply nonneg_add; assumption).
    destruct (activate_always v r1 q Hv Hr1) as [Hin Hq].
    destruct (IH r1 (act v r1 q) Hr1) as (r' & q' & Hrun & Hvs' & Hq').
    exists r', q'. split; [exact Hrun|]. split.
    + intros x [<-|Hx]; [apply Hq'; assumption|apply Hvs'; assumption].
    + intros x Hx. apply Hq', Hq. assumption.
Qed.

(** A pop leaves the worklist non-empty: the popped node has an
    out-neighbour, and every out-neighbour is in the worklist afterwards. *)
Lemma step_keeps_worklist (st : state) (u : Z) (q : list Z) :
  base st -> st_q st = u :: q ->
  exists st', step' st = Ok st' /\ base st' /\ st_q st' <> [].
Proof.
  intros Hb Eq.
  destruct (step_base indptr indices deg alpha epsilon Hwf Halpha st u q Hb Eq)
    as (r' & added & Hstep & Hb' & Hres & _).
  eexists. split; [exact Hstep|]. split; [exact Hb'|]. cbn [st_q].
  assert (Hu : is_node deg u).
  { destruct Hb as (Hn & _). rewrite Eq in Hn. inversion Hn. assumption. }
  destruct (wf_graph_node _ _ _ u Hwf Hu) as (Hlo & Hhi & _ & Hlen & Hnb).
  pose proof (degree_positive deg u Hdeg Hu) as Hd.
  assert (Hf : (0 <= fwd u (getd u (st_r st)))%Qc)
    by (apply (forwarded_nonneg indptr indices deg alpha Hwf); assumption).
  destruct (push_edges_all_active u (getd u (st_r st))
              (neighbours indptr indices u) Hu Hf Hnb
              (dict_set u 0%Qc (st_r st)) q)
    as (r1 & q1 & Hrun & Hall & _).
  { apply nonneg_set; [apply Hb|apply Qcle_refl]. }
  unfold step in Hstep. rewrite Eq, Hlo, Hhi in Hstep. cbn [bind] in Hstep.
  fold (neighbours indptr indices u) in Hstep. rewrite Hrun in Hstep.
  cbn [bind] in Hstep. injection Hstep as _ Hq. rewrite <- Hq.
  destruct (neighbours indptr indices u) as [|v vs] eqn:En;
    [cbn in Hlen; lia|].
  intros Hnil. specialize (Hall v (or_introl eq_refl)).
  rewrite Hnil in Hall. destruct Hall.
Qed.

Lemma loop_never_empties (fuel : nat) :
  forall st, base st -> st_q st <> [] -> loop' fuel st = OutOfFuel.
Proof.
  induction fuel as [|fuel IH]; intros st Hb Hq; cbn [loop];
    destruct (st_q st) as [|u q] eqn:Eq; try contradiction; [reflexivity|].
  destruct (step_keeps_worklist st u q Hb Eq) as (st' & Hstep & Hb' & Hq').
  rewrite Hstep. cbn [bind]. apply IH; assumption.
Qed.

End NoThreshold.

Lemma nonneg_fold_set (v : Qc) (seeds : list Z) :
  (0 <= v)%Qc ->
  forall d, nonneg d -> nonneg (fold_left (fun d i => dict_set i v d) seeds d).
Proof.
  intros Hv. induction seeds as [|i seeds IH]; intros d Hd; cbn [fold_left];
    [assumption|].
  apply IH. apply nonneg_set; assumption.
Qed.

Lemma gpr_init_base (deg : list Z) (alpha : Qc) (seeds : list Z) :
  (0 <= alpha)%Qc -> NoDup seeds -> Forall (is_node deg) seeds ->
  base_inv deg (gpr_init alpha seeds).
Proof.
  intros Ha Hnd Hs. unfold base_inv, gpr_init. cbn [st_q st_r].
  split; [|split].
  - apply Forall_rev. assumption.
  - apply NoDup_rev. assumption.
  - apply nonneg_fold_set; [assumption|constructor].
Qed.

(** X12.  On a well-formed graph in which every node has an out-edge, a
    push with [alpha * epsilon <= 0] (an [epsilon] that is zero or
    negative, or [alpha = 0]) never returns: the activation threshold is
    not positive, every out-neighbour of a popped node is in the worklist
    after the pop, and the loop is still running after any number of
    pops. *)
Theorem nonpositive_threshold_never_returns
    (indptr indices deg : list Z) (alpha epsilon : Qc) :
  wf_graph indptr indices deg -> Forall (fun d => 0 < d) deg ->
  (0 <= alpha)%Qc -> (alpha <= 1)%Qc -> (alpha * epsilon <= 0)%Qc ->
  (forall (s : Z) (fuel : nat),
     is_node deg s ->
     _calc_ppr_node fuel s indptr indices deg alpha epsilon = OutOfFuel) /\
  (forall (seeds : list Z) (fuel : nat),
     seeds <> [] -> NoDup seeds -> Forall (is_node deg) seeds ->
     _calc_gpr_node fuel seeds indptr indices deg alpha epsilon = OutOfFuel).
Proof.
  intros Hwf Hdeg Ha0 Ha1 Hzero.
  assert (Ha : (0 <= alpha <= 1)%Qc) by (split; assumption).
  split.
  - intros s fuel Hs. unfold _calc_ppr_node.
    rewrite (loop_never_empties indptr indices deg alpha epsilon Hwf Hdeg Ha
               Hzero fuel (ppr_init alpha s));
      [reflexivity|apply ppr_init_base; assumption|discriminate].
  - intros seeds fuel Hne Hnd Hs. unfold _calc_gpr_node.
    assert (E : loop indptr indices deg alpha epsilon numba_div fuel
                  (gpr_init alpha seeds) = OutOfFuel).
    { apply (loop_never_empties indptr indices deg alpha epsilon Hwf Hdeg Ha Hzero).
      - apply gpr_init_base; assumption.
      - cbn [gpr_init st_q]. intros Hrev. apply Hne.
        rewrite <- (rev_involutive seeds), Hrev. reflexivity. }
    destruct (loop_runtimes indptr indices deg alpha epsilon fuel
                (gpr_init alpha seeds)) as [E'|[E1 _]].
    + rewrite E', E. reflexivity.
    + rewrite E in E1. discriminate.
Qed.

Lemma nonpositive_threshold_never_returns_witness :
  _calc_ppr_node 1000 0 cycle_indptr cycle_indices cycle_deg half 0 = OutOfFuel /\
  _calc_gpr_node 1000 [0; 1] cycle_indptr cycle_indices cycle_deg half 0
  = OutOfFuel.
Proof.
  assert (H1 : wf_graph cycle_indptr cycle_indices cycle_deg) by reflexivity.
  assert (H2 : Forall (fun d => 0 < d) cycle_deg)
    by (constructor; [lia|constructor; [lia|constructor]]).
  assert (H3 : (0 <= half)%Qc) by (vm_compute; discriminate).
  assert (H4 : (half <= 1)%Qc) by (vm_compute; discriminate).
  assert (H5 : (half * 0 <= 0)%Qc) by (vm_compute; discriminate).
  pose proof (nonpositive_threshold_never_returns cycle_indptr cycle_indices
                cycle_deg half 0 H1 H2 H3 H4 H5) as [Hppr Hgpr].
  split.
  - apply Hppr. unfold is_node. simpl. lia.
  - apply Hgpr.
    + discriminate.
    + constructor; [intros [H|[]]; discriminate|].
      constructor; [intros []|constructor].
    + constructor; [unfold is_node; simpl; lia|].
      constructor; [unfold is_node; simpl; lia|constructor].
Defined.

(** ** The degree vector of the entry points *)

Lemma wf_graph_length (indptr indices deg : list Z) :
  wf_graph indptr indices deg -> length indptr = S (length deg).
Proof.
  unfold wf_graph, wf_graphb. intros H.
  apply andb_true_iff in H. destruct H as [H _].
  apply andb_true_iff in H. destruct H as [H _].
  apply Nat.eqb_eq in H. exact H.
Qed.

Lemma slice_length_same {A B : Type} (a : list A) (b : list B) (lo hi : Z) :
  length a = length b -> length (slice a lo hi) = length (slice b lo hi).
Proof.
  intros H. unfold slice. rewrite !length_firstn, !length_skipn, H. reflexivity.
Qed.

Lemma filter_all {A : Type} (f : A -> bool) (l : list A) :
  Forall (fun x => f x = true) l -> filter f l = l.
Proof.
  intros H. induction H as [|x l Hx H IH]; cbn; [reflexivity|].
  rewrite Hx, IH. reflexivity.
Qed.

(** X13.  For an adjacency matrix whose stored entries are all positive,
    the degree vector that [ppr_topk] and [topk_gpr_matrix] compute holds
    the number of stored entries of each row: it is the degree vector that
    makes the CSR arrays a well-formed Graph View. *)
Theorem out_degree_is_row_length (a : csr) (lens : list Z) :
  wf_graph (csr_indptr a) (csr_indices a) lens ->
  length (csr_data a) = length (csr_indices a) ->
  Forall (fun x => (0 < x)%Qc) (csr_data a) ->
  out_degree a = lens.
Proof.
  intros Hwf Hlen Hpos.
  pose proof (wf_graph_length _ _ _ Hwf) as Hn.
  assert (Hrows : Z.to_nat (csr_nrows a) = length lens)
    by (unfold csr_nrows; lia).
  apply (nth_ext _ _ 0 0).
  - rewrite length_out_degree. exact Hrows.
  - intros u Hu. rewrite length_out_degree, Hrows in Hu.
    rewrite out_degree_nth by (unfold csr_nrows; lia).
    assert (Hnode : is_node lens (Z.of_nat u)) by (unfold is_node; lia).
    destruct (wf_graph_node _ _ _ _ Hwf Hnode) as (_ & _ & _ & Hdeg & _).
    unfold neighbours, degree in Hdeg.
    replace (Z.to_nat (Z.of_nat u + 1)) with (S u) in Hdeg by lia.
    rewrite Nat2Z.id in Hdeg. rewrite <- Hdeg.
    rewrite filter_all; [f_equal; apply slice_length_same; assumption|].
    apply Forall_forall. intros x Hx. apply slice_incl in Hx.
    rewrite Forall_forall in Hpos. apply Hpos in Hx.
    apply geb_false in Hx. rewrite Hx. reflexivity.
Qed.

Lemma out_degree_is_row_length_witness : out_degree cycle_csr = cycle_deg.
Proof.
  apply (out_degree_is_row_length cycle_csr cycle_deg).
  - reflexivity.
  - reflexivity.
  - constructor; [reflexivity|]. constructor; [reflexivity|constructor].
Defined.

(** ** The matrix of [ppr_topk] *)





Section PprTopk.

Variable argsort : list Qc -> list Z.
Variable fuel : nat.
Variables indptr indices deg : list Z.
Variables alpha epsilon : Qc.
Variable nodes : list Z.
Variable topk : Z.
Hypothesis Hsort : argsort_spec argsort.
Hypothesis Hwf : wf_graph indptr indices deg.
Hypothesis Hnodes : Forall (is_node deg) nodes.
Hypothesis Ha0 : (0 < alpha)%Qc.
Hypothesis Ha1 : (alpha <= 1)%Qc.
Hypothesis Heps : (0 < epsilon)%Qc.
Hypothesis Hfuel :
  forall s, In s nodes -> (pop_bound deg alpha epsilon s <= fuel)%nat.

Local Abbreviation row_ok := (ppr_row_inv deg alpha nodes topk).



End PprTopk.



(** ** Termination of the push from a list of seeds *)



Section ClassTermination.

Variables indptr indices deg : list Z.
Variables alpha epsilon : Qc.
Hypothesis Hwf : wf_graph indptr indices deg.
Hypothesis Halpha : (0 < alpha)%Qc /\ (alpha <= 1)%Qc.
Hypothesis Heps : (0 < epsilon)%Qc.

Local Abbreviation thr v := (alpha_eps alpha epsilon * of_int (degree deg v))%Qc.
Local Abbreviation step' := (step indptr indices deg alpha epsilon numba_div).
Local Abbreviation loop' := (loop indptr indices deg alpha epsilon numba_div).
Local Abbreviation fwd := (forwarded deg alpha).
Local Abbreviation base := (base_inv deg).
Local Abbreviation costq := (cost alpha epsilon).

Let Halpha' : (0 <= alpha <= 1)%Qc.
Proof. split; [apply Qclt_le_weak|]; apply Halpha. Qed.



End ClassTermination.












(** ** The matrix of [topk_gpr_matrix] *)


Section GprMatrix.

Variable argsort : list Qc -> list Z.
Variable fuel : nat.
Variables indptr indices deg : list Z.
Variables alpha epsilon : Qc.
Variable train_idx : list Z.
Variable topk : Z.
Hypothesis Hsort : argsort_spec argsort.
Hypothesis Hwf : wf_graph indptr indices deg.
Hypothesis Hpositions : (length train_idx <= length deg)%nat.
Hypothesis Ha0 : (0 < alpha)%Qc.
Hypothesis Ha1 : (alpha <= 1)%Qc.
Hypothesis Heps : (0 < epsilon)%Qc.

Local Abbreviation row_ok := (gpr_row_inv deg alpha train_idx topk).



End GprMatrix.



(** ** The nodes of a row *)

Lemma reach_inv_step (indptr indices deg : list Z) (alpha epsilon : Qc)
    (seeds : list Z) (st st' : state) :
  wf_graph indptr indices deg ->
  reach_inv indptr indices deg seeds st ->
  step indptr indices deg alpha epsilon numba_div st = Ok st' ->
  reach_inv indptr indices deg seeds st'.
Proof.
  intros Hwf (Hn & Hq & Hp) Hstep. destruct st as [p r q].
  cbn [st_p st_q] in *. destruct q as [|u q]; [discriminate|].
  inversion Hn as [|? ? Hu Hn']; subst. inversion Hq as [|? ? Hru Hq']; subst.
  destruct (step_spec indptr indices deg alpha epsilon Hwf p r u q Hu)
    as (r' & added & Hstep' & _ & _ & _ & _ & _ & Hincl & _).
  rewrite Hstep' in Hstep. injection Hstep as <-.
  destruct (wf_graph_node _ _ _ u Hwf Hu) as (_ & _ & _ & _ & Hnb).
  unfold reach_inv. cbn [st_p st_q]. split; [|split].
  - apply Forall_app. split; [|assumption].
    apply Forall_forall. intros x Hx. apply Hincl in Hx.
    rewrite Forall_forall in Hnb. apply Hnb. assumption.
  - apply Forall_app. split; [|assumption].
    apply Forall_forall. intros x Hx. apply Hincl in Hx.
    apply (reach_edge indptr indices seeds u x); assumption.
  - apply Forall_forall. intros x Hx.
    destruct (keys_dict_add u (getd u r) p) as [E|[_ E]]; rewrite E in Hx.
    + rewrite Forall_forall in Hp. apply Hp. assumption.
    + apply in_app_or in Hx. destruct Hx as [Hx|[<-|[]]]; [|assumption].
      rewrite Forall_forall in Hp. apply Hp. assumption.
Qed.

(** A loop that returns in the interpreter returns the same state when
    compiled. *)
Lemma loop_numpy_ok (indptr indices deg : list Z) (alpha epsilon : Qc)
    (fuel : nat) (st st' : state) :
  loop indptr indices deg alpha epsilon numpy_div fuel st = Ok st' ->
  loop indptr indices deg alpha epsilon numba_div fuel st = Ok st'.
Proof.
  intros H.
  destruct (loop_runtimes indptr indices deg alpha epsilon fuel st) as [E|[_ E]].
  - rewrite <- E. assumption.
  - rewrite E in H. discriminate.
Qed.

Lemma loop_reachable (indptr indices deg : list Z) (alpha epsilon : Qc)
    (seeds : list Z) (fuel : nat) (st st' : state) :
  wf_graph indptr indices deg ->
  reach_inv indptr indices deg seeds st ->
  loop indptr indices deg alpha epsilon numba_div fuel st = Ok st' ->
  Forall (reachable indptr indices seeds) (keys (st_p st')).
Proof.
  intros Hwf Hinv Hloop.
  apply (loop_invariant indptr indices deg alpha epsilon numba_div
           (reach_inv indptr indices deg seeds)) in Hloop.
  - apply Hloop.
  - intros s1 s2 Hj Hstep.
    apply (reach_inv_step indptr indices deg alpha epsilon seeds s1 s2);
      assumption.
  - assumption.
Qed.

Lemma keys_fold_set_incl (v : Qc) (seeds : list Z) (x : Z) :
  forall d : dict,
    In x (keys (fold_left (fun d i => dict_set i v d) seeds d)) ->
    In x seeds \/ In x (keys d).
Proof.
  induction seeds as [|i l IH]; intros d Hd; cbn [fold_left] in Hd;
    [right; assumption|].
  apply IH in Hd. destruct Hd as [Hd|Hd]; [left; right; assumption|].
  destruct (keys_dict_set i v d) as [E|[_ E]]; rewrite E in Hd.
  - right. assumption.
  - apply in_app_or in Hd.
    destruct Hd as [Hd|[<-|[]]]; [right; assumption|left; left; reflexivity].
Qed.

(** X17.  On a well-formed graph, whatever [alpha] and [epsilon], a push
    returns only nodes that the edges of the graph reach from its seed
    (from one of its seeds, for a list of seeds). *)
Theorem push_returns_reachable_nodes
    (indptr indices deg : list Z) (alpha epsilon : Qc) (fuel : nat) :
  wf_graph indptr indices deg ->
  (forall (s : Z) (ks : list Z) (vs : list Qc),
     is_node deg s ->
     _calc_ppr_node fuel s indptr indices deg alpha epsilon = Ok (ks, vs) ->
     Forall (reachable indptr indices [s]) ks) /\
  (forall (seeds ks : list Z) (vs : list Qc),
     Forall (is_node deg) seeds ->
     _calc_gpr_node fuel seeds indptr indices deg alpha epsilon = Ok (ks, vs) ->
     Forall (reachable indptr indices seeds) ks).
Proof.
  intros Hwf. split.
  - intros s ks vs Hs H. unfold _calc_ppr_node in H.
    destruct (loop _ _ _ _ _ _ _ _) as [st| | |] eqn:El; cbn [bind] in H;
      try discriminate.
    injection H as <- _.
    apply (loop_reachable indptr indices deg alpha epsilon [s] fuel
             (ppr_init alpha s) st Hwf); [|assumption].
    assert (Hr : reachable indptr indices [s] s)
      by (apply reach_seed; left; reflexivity).
    unfold reach_inv, ppr_init. cbn [st_p st_q keys map fst].
    repeat split; constructor; try assumption; constructor.
  - intros seeds ks vs Hs H. unfold _calc_gpr_node in H.
    destruct (loop _ _ _ _ _ _ _ _) as [st| | |] eqn:El; cbn [bind] in H;
      try discriminate.
    injection H as <- _. apply loop_numpy_ok in El.
    apply (loop_reachable indptr indices deg alpha epsilon seeds fuel
             (gpr_init alpha seeds) st Hwf); [|assumption].
    assert (Hr : Forall (reachable indptr indices seeds) seeds).
    { apply Forall_forall. intros x Hx. apply reach_seed. assumption. }
    unfold reach_inv, gpr_init. cbn [st_p st_q]. split; [|split].
    + apply Forall_rev. assumption.
    + apply Forall_rev. assumption.
    + apply Forall_forall. intros x Hx.
      apply keys_fold_set_incl in Hx. destruct Hx as [Hx|[]].
      rewrite Forall_forall in Hr. apply Hr. assumption.
Qed.

Lemma push_returns_reachable_nodes_witness :
  exists ks vs,
    _calc_ppr_node 30 0 cycle_indptr cycle_indices cycle_deg half tenth
    = Ok (ks, vs) /\
    Forall (reachable cycle_indptr cycle_indices [0]) ks.
Proof.
  destruct (_calc_ppr_node 30 0 cycle_indptr cycle_indices cycle_deg half tenth)
    as [[ks vs]| | |] eqn:E;
    [|exfalso; vm_compute in E; discriminate..].
  exists ks, vs. split; [reflexivity|].
  refine (proj1 (push_returns_reachable_nodes cycle_indptr cycle_indices
                   cycle_deg half tenth 30 _) 0 ks vs _ E).
  - reflexivity.
  - unfold is_node. simpl. lia.
Defined.

(** ** The size of a row *)

Lemma loop_more_fuel (indptr indices deg : list Z) (alpha epsilon : Qc)
    (divide : Qc -> Z -> result Qc) (fuel : nat) :
  forall (st st' : state) (fuel' : nat),
    loop indptr indices deg alpha epsilon divide fuel st = Ok st' ->
    (fuel <= fuel')%nat ->
    loop indptr indices deg alpha epsilon divide fuel' st = Ok st'.
Proof.
  induction fuel as [|fuel IH]; intros st st' fuel' H Hle; cbn [loop] in H.
  - destruct (st_q st) eqn:Eq; [|discriminate].
    destruct fuel'; cbn [loop]; rewrite Eq; assumption.
  - destruct fuel' as [|fuel']; [lia|]. cbn [loop].
    destruct (st_q st) eqn:Eq; [assumption|].
    destruct (step _ _ _ _ _ _ st) as [st1| | |]; cbn [bind] in *;
      try discriminate.
    apply IH; [assumption|lia].
Qed.

(** Each pop adds at most one key to [p]. *)
Lemma loop_keys_length (indptr indices deg : list Z) (alpha epsilon : Qc)
    (divide : Qc -> Z -> result Qc) (fuel : nat) :
  forall st st' : state,
    loop indptr indices deg alpha epsilon divide fuel st = Ok st' ->
    (length (keys (st_p st')) <= length (keys (st_p st)) + fuel)%nat.
Proof.
  induction fuel as [|fuel IH]; intros st st' H; cbn [loop] in H.
  - destruct (st_q st); [|discriminate]. injection H as <-. lia.
  - destruct (st_q st) eqn:Eq; [injection H as <-; lia|].
    destruct (step _ _ _ _ _ _ st) as [st1| | |] eqn:Es; cbn [bind] in H;
      try discriminate.
    apply IH in H. apply step_p in Es. destruct Es as (u & q & _ & Hp).
    rewrite Hp in H.
    destruct (keys_dict_add u (getd u (st_r st)) (st_p st)) as [E|[_ E]];
      rewrite E in H; [lia|].
    rewrite length_app in H. cbn [length] in H. lia.
Qed.

(** X18.  The row of a push is short whatever the size of the graph: on a
    well-formed graph, for [alpha] in (0, 1] and [epsilon > 0], the push
    from a seed [s] returns at most
    [1 + deg(s) + ceil(1 / (alpha * epsilon))] entries. *)
Theorem push_row_is_short
    (indptr indices deg : list Z) (alpha epsilon : Qc) (s : Z) (fuel : nat)
    (ks : list Z) (vs : list Qc) :
  wf_graph indptr indices deg -> is_node deg s ->
  (0 < alpha)%Qc -> (alpha <= 1)%Qc -> (0 < epsilon)%Qc ->
  _calc_ppr_node fuel s indptr indices deg alpha epsilon = Ok (ks, vs) ->
  (length ks <= pop_bound deg alpha epsilon s)%nat /\
  (length vs <= pop_bound deg alpha epsilon s)%nat.
Proof.
  intros Hwf Hs Ha0 Ha1 He H.
  pose proof (calc_ppr_node_lengths _ _ _ _ _ _ _ _ _ H) as Hlen.
  enough (Hks : (length ks <= pop_bound deg alpha epsilon s)%nat)
    by (split; [assumption|rewrite <- Hlen; assumption]).
  clear Hlen. unfold _calc_ppr_node in H.
  destruct (loop _ _ _ _ _ _ _ _) as [st| | |] eqn:El; cbn [bind] in H;
    try discriminate.
  injection H as <- _.
  set (b := pop_bound deg alpha epsilon s).
  assert (Hb : exists st0,
    loop indptr indices deg alpha epsilon numba_div b (ppr_init alpha s) = Ok st0 /\
    (length (keys (st_p st0)) <= b)%nat).
  { destruct (ppr_loop_row indptr indices deg alpha epsilon s b Hwf Hs Ha0 Ha1 He
                (Nat.le_refl _)) as (st0 & Hloop & _).
    exists st0. split; [exact Hloop|].
    unfold b, pop_bound in Hloop |- *.
    cbn [loop ppr_init st_q] in Hloop. fold (ppr_init alpha s) in Hloop.
    destruct (step _ _ _ _ _ _ (ppr_init alpha s)) as [st1| | |] eqn:Es;
      cbn [bind] in Hloop; try discriminate.
    apply loop_keys_length in Hloop. apply step_p in Es.
    destruct Es as (u & q & Hq & Hp). cbn [ppr_init st_q st_p st_r] in Hq, Hp.
    injection Hq as <- <-.
    assert (Hk : keys (st_p st1) = [s]).
    { rewrite Hp. unfold dict_add. cbn [dict_get]. rewrite Z.eqb_refl.
      cbn [dict_set]. rewrite Z.eqb_refl. reflexivity. }
    rewrite Hk in Hloop. cbn [length] in Hloop. lia. }
  destruct Hb as (st0 & Hloop0 & Hshort).
  destruct (Nat.le_ge_cases b fuel) as [Hle|Hge].
  - apply (loop_more_fuel _ _ _ _ _ _ _ _ _ fuel) in Hloop0; [|assumption].
    rewrite Hloop0 in El. injection El as <-. assumption.
  - apply (loop_more_fuel _ _ _ _ _ _ _ _ _ b) in El; [|assumption].
    rewrite Hloop0 in El. injection El as <-. assumption.
Qed.

Lemma push_row_is_short_witness :
  exists ks vs,
    _calc_ppr_node 30 0 cycle_indptr cycle_indices cycle_deg half tenth
    = Ok (ks, vs) /\
    (length ks <= pop_bound cycle_deg half tenth 0)%nat /\
    (length vs <= pop_bound cycle_deg half tenth 0)%nat.
Proof.
  destruct (_calc_ppr_node 30 0 cycle_indptr cycle_indices cycle_deg half tenth)
    as [[ks vs]| | |] eqn:E;
    [|exfalso; vm_compute in E; discriminate..].
  exists ks, vs. split; [reflexivity|].
  refine (push_row_is_short cycle_indptr cycle_indices cycle_deg half tenth 0 30
            ks vs _ _ _ _ _ E).
  - reflexivity.
  - unfold is_node. simpl. lia.
  - reflexivity.
  - vm_compute. discriminate.
  - reflexivity.
Defined.

(** ** The residual left by a push *)

Lemma push_edge_residual (deg : list Z) (alpha epsilon : Qc)
    (divide : Qc -> Z -> result Qc) (u v : Z) (res : Qc) (r r' : dict)
    (q q' : list Z) :
  push_edge deg alpha epsilon divide u res (r, q) v = Ok (r', q') ->
  exists x, r' = dict_add v x r.
Proof.
  unfold push_edge.
  destruct (getitem deg u) as [du| | |]; cbn [bind]; try discriminate.
  destruct (divide _ du) as [x| | |]; cbn [bind]; try discriminate.
  destruct (getitem deg v) as [dv| | |]; cbn [bind]; try discriminate.
  intros H. exists x.
  destruct (geb _ _); [destruct (negb _)|]; injection H as <- _; reflexivity.
Qed.

(** The keys of [r] stay pairwise distinct, and the new ones are among the
    nodes pushed to. *)
Lemma push_edges_residual_keys (deg : list Z) (alpha epsilon : Qc)
    (divide : Qc -> Z -> result Qc) (u : Z) (res : Qc) (vs : list Z) :
  forall (r r' : dict) (q q' : list Z),
    push_edges deg alpha epsilon divide u res (r, q) vs = Ok (r', q') ->
    (NoDup (keys r) -> NoDup (keys r')) /\
    forall x, In x (keys r') -> In x (keys r) \/ In x vs.
Proof.
  induction vs as [|v vs IH]; intros r r' q q' H; cbn [push_edges] in H.
  - injection H as <- <-. split; [auto|]. intros x Hx. left. assumption.
  - destruct (push_edge deg alpha epsilon divide u res (r, q) v)
      as [[r1 q1]| | |] eqn:E; cbn [bind] in H; try discriminate.
    apply push_edge_residual in E. destruct E as [y ->].
    apply IH in H. destruct H as [Hnd Hin]. split.
    + intros Hr. apply Hnd. apply keys_dict_add_nodup. assumption.
    + intros x Hx. apply Hin in Hx. destruct Hx as [Hx|Hx]; [|right; right; assumption].
      destruct (keys_dict_add v y r) as [Ek|[_ Ek]]; rewrite Ek in Hx.
      * left. assumption.
      * apply in_app_or in Hx.
        destruct Hx as [Hx|[<-|[]]]; [left; assumption|right; left; reflexivity].
Qed.

Lemma residual_keys_step (indptr indices deg : list Z) (alpha epsilon : Qc)
    (st st' : state) :
  wf_graph indptr indices deg ->
  Forall (is_node deg) (st_q st) ->
  NoDup (keys (st_r st)) /\ Forall (is_node deg) (keys (st_r st)) ->
  step indptr indices deg alpha epsilon numba_div st = Ok st' ->
  NoDup (keys (st_r st')) /\ Forall (is_node deg) (keys (st_r st')).
Proof.
  intros Hwf Hq [Hnd Hk] Hstep. unfold step in Hstep.
  destruct (st_q st) as [|u q]; [discriminate|].
  inversion Hq as [|? ? Hu _]; subst.
  destruct (wf_graph_node _ _ _ u Hwf Hu) as (Hlo & Hhi & _ & _ & Hnb).
  rewrite Hlo, Hhi in Hstep. cbn [bind] in Hstep.
  fold (neighbours indptr indices u) in Hstep.
  destruct (push_edges _ _ _ _ _ _ _ _) as [[r' q']| | |] eqn:E;
    cbn [bind] in Hstep; try discriminate.
  injection Hstep as <-. cbn [st_r].
  apply push_edges_residual_keys in E. destruct E as [Hnd' Hin]. split.
  - apply Hnd'. apply keys_dict_set_nodup. assumption.
  - apply Forall_forall. intros x Hx. apply Hin in Hx.
    rewrite Forall_forall in Hk, Hnb. destruct Hx as [Hx|Hx]; [|apply Hnb; assumption].
    destruct (keys_dict_set u 0%Qc (st_r st)) as [Ek|[_ Ek]]; rewrite Ek in Hx.
    + apply Hk. assumption.
    + apply in_app_or in Hx. destruct Hx as [Hx|[<-|[]]]; [apply Hk|]; assumption.
Qed.

(** A dictionary whose values are bounded key by key. *)
Lemma dict_sum_le_weights (c : Qc) (g : Z -> Z) (d : dict) :
  NoDup (keys d) ->
  (forall k, In k (keys d) -> (getd k d <= c * of_int (g k))%Qc) ->
  (dict_sum d <= c * of_int (fold_right Z.add 0%Z (map g (keys d))))%Qc.
Proof.
  induction d as [|[k v] d IH]; intros Hnd Hb.
  - cbn. change (of_int 0) with 0%Qc. rewrite Qcmult_0_r. apply Qcle_refl.
  - cbn [keys map fst fold_right dict_sum snd] in *. fold (dict_sum d).
    fold (keys d) in *. inversion Hnd as [|? ? Hnin Hnd']; subst.
    rewrite of_int_plus.
    assert (Hv : (v <= c * of_int (g k))%Qc).
    { specialize (Hb k (or_introl eq_refl)). unfold getd in Hb.
      cbn [dict_get] in Hb. rewrite Z.eqb_refl in Hb. exact Hb. }
    assert (Hd : (dict_sum d
                  <= c * of_int (fold_right Z.add 0%Z (map g (keys d))))%Qc).
    { apply IH; [assumption|]. intros k' Hk'.
      specialize (Hb k' (or_intror Hk')). unfold getd in Hb |- *.
      cbn [dict_get] in Hb.
      destruct (k' =? k) eqn:E; [|exact Hb].
      apply Z.eqb_eq in E. subst. contradiction. }
    revert Hv Hd.
    generalize (dict_sum d) (of_int (g k))
      (of_int (fold_right Z.add 0%Z (map g (keys d)))).
    intros S a b Hv Hd. qc_to_q. nra.
Qed.

(** Summing over distinct elements of a list gives at most the sum over
    the list. *)
Lemma sum_over_distinct (g : Z -> Z) (l : list Z) :
  forall L : list Z,
    NoDup l -> incl l L -> (forall x, In x L -> 0 <= g x) ->
    fold_right Z.add 0%Z (map g l) <= fold_right Z.add 0%Z (map g L).
Proof.
  induction l as [|a l IH]; intros L Hnd Hincl Hpos.
  - cbn. induction L as [|b L IHL]; cbn; [lia|].
    assert (0 <= g b) by (apply Hpos; left; reflexivity).
    assert (0 <= fold_right Z.add 0%Z (map g L)).
    { apply IHL; [intros x []|]. intros x Hx. apply Hpos. right. assumption. }
    lia.
  - inversion Hnd as [|? ? Hnin Hnd']; subst.
    destruct (in_split a L (Hincl a (or_introl eq_refl))) as (L1 & L2 & ->).
    assert (Hrest : incl l (L1 ++ L2)).
    { intros x Hx. specialize (Hincl x (or_intror Hx)).
      apply in_app_or in Hincl. apply in_or_app.
      destruct Hincl as [H|[H|H]]; [left; assumption| |right; assumption].
      subst. contradiction. }
    specialize (IH (L1 ++ L2) Hnd' Hrest).
    assert (Hpos' : forall x, In x (L1 ++ L2) -> 0 <= g x).
    { intros x Hx. apply Hpos. apply in_app_or in Hx. apply in_or_app.
      destruct Hx as [H|H]; [left; assumption|right; right; assumption]. }
    specialize (IH Hpos'). cbn [map fold_right].
    rewrite !map_app in *. cbn [map].
    assert (Happ : forall A B : list Z,
              fold_right Z.add 0%Z (A ++ B)
              = fold_right Z.add 0%Z A + fold_right Z.add 0%Z B).
    { intros A B. induction A as [|x A IHA]; cbn; [reflexivity|]. rewrite IHA. lia. }
    rewrite Happ in *. cbn [fold_right]. lia.
Qed.

(** The degrees of distinct nodes sum to at most the number of edges. *)
Lemma degrees_of_distinct_nodes (deg : list Z) (l : list Z) :
  Forall (fun d => 0 <= d) deg -> NoDup l -> Forall (is_node deg) l ->
  fold_right Z.add 0%Z (map (degree deg) l) <= fold_right Z.add 0%Z deg.
Proof.
  intros Hdeg Hnd Hl.
  rewrite <- (map_nth_seq deg 0) at 2. fold (degree deg).
  change (map (fun i => nth (Z.to_nat i) deg 0)) with (map (degree deg)).
  apply sum_over_distinct; [assumption| |].
  - intros x Hx. rewrite Forall_forall in Hl. apply Hl in Hx.
    unfold is_node in Hx. apply in_map_iff. exists (Z.to_nat x).
    split; [lia|]. apply in_seq. lia.
  - intros x Hx. apply in_map_iff in Hx. destruct Hx as (k & <- & Hk).
    apply in_seq in Hk. unfold degree. rewrite Nat2Z.id.
    rewrite Forall_forall in Hdeg. apply Hdeg. apply nth_In. lia.
Qed.

(** X19.  On a well-formed graph in which every node has an out-edge,
    for [alpha] in (0, 1] and [epsilon > 0], the push from a seed returns
    almost all of the probability mass: its values sum to at most 1 and to
    at least [1 - epsilon * m], [m] being the number of edges (the sum of
    the degrees). *)
Theorem push_settles_almost_all_mass
    (indptr indices deg : list Z) (alpha epsilon : Qc) (s : Z) (fuel : nat) :
  wf_graph indptr indices deg -> Forall (fun d => 0 < d) deg ->
  is_node deg s ->
  (0 < alpha)%Qc -> (alpha <= 1)%Qc -> (0 < epsilon)%Qc ->
  (pop_bound deg alpha epsilon s <= fuel)%nat ->
  exists ks vs,
    _calc_ppr_node fuel s indptr indices deg alpha epsilon = Ok (ks, vs) /\
    (1 - epsilon * of_int (fold_right Z.add 0%Z deg)
     <= fold_right Qcplus 0%Qc vs)%Qc /\
    (fold_right Qcplus 0%Qc vs <= 1)%Qc.
Proof.
  intros Hwf Hdeg Hs Ha0 Ha1 He Hfuel.
  destruct (ppr_loop_row indptr indices deg alpha epsilon s fuel Hwf Hs Ha0 Ha1
              He Hfuel) as (st & Hloop & Hq & Hb & Hrow).
  destruct (row_inv_final deg alpha s st Ha0 Hb Hrow Hq) as (_ & _ & Hhigh & _).
  exists (keys (st_p st)), (values (st_p st)).
  split; [apply calc_ppr_node_of_loop; assumption|].
  rewrite dict_sum_values. split; [|assumption].
  (* the balance at the end *)
  assert (Hbal : balanced alpha st).
  { pose proof Hloop as H.
    apply (loop_invariant indptr indices deg alpha epsilon numba_div
             (fun x => Forall (is_node deg) (st_q x) /\ balanced alpha x)) in H.
    - apply H.
    - intros s1 s2 [Hn Hbal] Hstep.
      destruct (st_q s1) as [|u q] eqn:Eq;
        [unfold step in Hstep; rewrite Eq in Hstep; discriminate|].
      destruct (balanced_step indptr indices deg alpha epsilon s1 Hwf Hdeg)
        as (s2' & Hstep' & Hn' & Hbal' & _);
        [rewrite Eq; assumption|assumption|rewrite Eq; discriminate|].
      rewrite Hstep' in Hstep. injection Hstep as <-. split; assumption.
    - split; [constructor; [assumption|constructor]|].
      unfold balanced, ppr_init. cbn. ring. }
  (* the keys of the residuals *)
  assert (Hkeys : NoDup (keys (st_r st)) /\ Forall (is_node deg) (keys (st_r st))).
  { pose proof Hloop as H.
    apply (loop_invariant indptr indices deg alpha epsilon numba_div
             (fun x => Forall (is_node deg) (st_q x) /\
                       NoDup (keys (st_r x)) /\
                       Forall (is_node deg) (keys (st_r x)))) in H.
    - apply H.
    - intros s1 s2 [Hn Hk] Hstep. split.
      + destruct (st_q s1) as [|u q] eqn:Eq;
          [unfold step in Hstep; rewrite Eq in Hstep; discriminate|].
        destruct s1 as [p1 r1 q1]. cbn [st_q] in Eq, Hn. subst q1.
        inversion Hn as [|? ? Hu Hn']; subst.
        destruct (step_spec indptr indices deg alpha epsilon Hwf p1 r1 u q Hu)
          as (r' & added & Hstep' & _ & _ & _ & _ & _ & Hincl & _).
        rewrite Hstep' in Hstep. injection Hstep as <-. cbn [st_q].
        destruct (wf_graph_node _ _ _ u Hwf Hu) as (_ & _ & _ & _ & Hnb).
        apply Forall_app. split; [|assumption].
        apply Forall_forall. intros x Hx. apply Hincl in Hx.
        rewrite Forall_forall in Hnb. apply Hnb. assumption.
      + apply (residual_keys_step indptr indices deg alpha epsilon s1 s2);
          assumption.
    - cbn [ppr_init st_q st_r keys map fst].
      split; [constructor; [assumption|constructor]|]. split.
      + constructor; [intros []|constructor].
      + constructor; [assumption|constructor]. }
  destruct Hkeys as [Hnd Hnodes].
  (* every residual is below its threshold *)
  assert (Hquiet : forall k, In k (keys (st_r st)) ->
            (getd k (st_r st)
             <= alpha * epsilon * of_int (degree deg k))%Qc).
  { intros k Hk. rewrite Forall_forall in Hnodes. specialize (Hnodes k Hk).
    destruct (wf_graph_node _ _ _ k Hwf Hnodes) as (_ & _ & Hg & _).
    destruct (loop_quiet indptr indices deg alpha epsilon numba_div fuel
                (ppr_init alpha s) st) with (v := k) (dv := degree deg k)
      as [Hlt|Hz]; try assumption.
    - intros v dv Hv Hnin. right. cbn [ppr_init st_r st_q] in *.
      unfold getd. cbn [dict_get].
      destruct (v =? s) eqn:E; [|reflexivity].
      apply Z.eqb_eq in E. exfalso. apply Hnin. left. congruence.
    - apply Qclt_le_weak. exact Hlt.
    - rewrite Hz.
      pose proof (degree_positive deg k Hdeg Hnodes) as Hd.
      assert (H0 : (0 <= of_int (degree deg k))%Qc) by (apply of_int_nonneg; lia).
      apply Qc_le_0_mult; [|exact H0].
      apply Qc_le_0_mult; apply Qclt_le_weak; assumption. }
  pose proof (dict_sum_le_weights (alpha * epsilon)%Qc (degree deg) (st_r st)
                Hnd Hquiet) as Hsum.
  assert (Hedges : (of_int (fold_right Z.add 0%Z (map (degree deg) (keys (st_r st))))
                    <= of_int (fold_right Z.add 0%Z deg))%Qc).
  { apply of_int_le. apply degrees_of_distinct_nodes; try assumption.
    eapply Forall_impl; [|exact Hdeg]. intros d Hd. cbn beta in Hd. lia. }
  unfold balanced in Hbal.
  apply (Qc_mult_le_l _ _ (alpha * epsilon)%Qc) in Hedges;
    [|apply Qc_le_0_mult; apply Qclt_le_weak; assumption].
  apply (Qcmult_lt_0_le_reg_r _ _ alpha Ha0).
  revert Hbal Hsum Hedges.
  generalize (dict_sum (st_p st)) (dict_sum (st_r st))
    (of_int (fold_right Z.add 0%Z (map (degree deg) (keys (st_r st)))))
    (of_int (fold_right Z.add 0%Z deg)).
  intros P R Dk D Hbal Hsum Hedges. qc_to_q. nra.
Qed.

Lemma push_settles_almost_all_mass_witness :
  exists ks vs,
    _calc_ppr_node 30 0 cycle_indptr cycle_indices cycle_deg half tenth
    = Ok (ks, vs) /\
    (1 - tenth * of_int (fold_right Z.add 0%Z cycle_deg)
     <= fold_right Qcplus 0%Qc vs)%Qc /\
    (fold_right Qcplus 0%Qc vs <= 1)%Qc.
Proof.
  apply (push_settles_almost_all_mass cycle_indptr cycle_indices cycle_deg half
           tenth 0 30).
  - reflexivity.
  - constructor; [lia|]. constructor; [lia|constructor].
  - unfold is_node. simpl. lia.
  - reflexivity.
  - vm_compute. discriminate.
  - reflexivity.
  - vm_compute. lia.
Defined.

(** ** The size of the entries *)

Lemma above_threshold_step (indptr indices deg : list Z) (alpha epsilon : Qc)
    (s : Z) (st st' : state) :
  wf_graph indptr indices deg -> (0 <= alpha <= 1)%Qc ->
  base_inv deg st ->
  (forall u q, st_q st = u :: q ->
     u = s \/
     (alpha_eps alpha epsilon * of_int (degree deg u) <= getd u (st_r st))%Qc) ->
  nonneg (st_p st) /\ Forall (above_threshold deg alpha epsilon s) (st_p st) ->
  st_q st <> [] ->
  step indptr indices deg alpha epsilon numba_div st = Ok st' ->
  nonneg (st_p st') /\ Forall (above_threshold deg alpha epsilon s) (st_p st').
Proof.
  intros Hwf Ha Hb Hact [Hnn Hp] Hne Hstep.
  destruct (st_q st) as [|u q] eqn:Eq; [contradiction|].
  destruct (step_settles indptr indices deg alpha epsilon st st' u q Hwf Ha Hb Eq
              Hstep) as [Hp' Hres].
  rewrite Hp'. split; [apply nonneg_add; assumption|].
  assert (Hu : forall y, (0 <= y)%Qc ->
            above_threshold deg alpha epsilon s (u, (y + getd u (st_r st))%Qc)).
  { intros y Hy. destruct (Hact u q eq_refl) as [->|Hthr];
      [left; reflexivity|right]. cbn [fst snd].
    revert Hthr Hy.
    generalize (alpha_eps alpha epsilon * of_int (degree deg u))%Qc
      (getd u (st_r st)).
    intros t res Hthr Hy. qc_to_q. lra. }
  unfold dict_add. destruct (dict_get u (st_p st)) as [y|] eqn:Ey.
  - apply dict_set_forall; [assumption|]. apply Hu.
    eapply nonneg_get; eassumption.
  - apply dict_set_forall; [assumption|].
    replace (getd u (st_r st)) with (0 + getd u (st_r st))%Qc by ring.
    apply Hu. apply Qcle_refl.
Qed.

(** X20.  On a well-formed graph, for [alpha] in (0, 1] and
    [epsilon > 0], every entry that the push from a seed returns, except
    the entry of the seed itself, has a value of at least
    [alpha * epsilon * deg[v]], the activation threshold of its node. *)
Theorem push_entries_reach_the_threshold
    (indptr indices deg : list Z) (alpha epsilon : Qc) (s : Z) (fuel : nat) :
  wf_graph indptr indices deg -> is_node deg s ->
  (0 < alpha)%Qc -> (alpha <= 1)%Qc -> (0 < epsilon)%Qc ->
  (pop_bound deg alpha epsilon s <= fuel)%nat ->
  exists ks vs,
    _calc_ppr_node fuel s indptr indices deg alpha epsilon = Ok (ks, vs) /\
    forall (v : Z) (x : Qc),
      In (v, x) (combine ks vs) -> v <> s ->
      (alpha * epsilon * of_int (degree deg v) <= x)%Qc.
Proof.
  intros Hwf Hs Ha0 Ha1 He Hfuel.
  assert (Ha : (0 < alpha)%Qc /\ (alpha <= 1)%Qc) by (split; assumption).
  assert (Ha' : (0 <= alpha <= 1)%Qc)
    by (split; [apply Qclt_le_weak; assumption|assumption]).
  pose proof (ppr_init_base deg alpha Ha' s Hs) as Hb0.
  destruct (ppr_loop_total indptr indices deg alpha epsilon Hwf Ha He
              (fun st => nonneg (st_p st) /\
                         Forall (above_threshold deg alpha epsilon s) (st_p st))
              s Hs) with (fuel := fuel) as (st & Hloop & _ & _ & _ & Hp).
  - intros st' Hstep.
    apply (above_threshold_step indptr indices deg alpha epsilon s
             (ppr_init alpha s) st' Hwf Ha' Hb0); try assumption.
    + intros u q Hq. cbn [ppr_init st_q] in Hq. injection Hq as <- _.
      left. reflexivity.
    + cbn [ppr_init st_p]. split.
      * constructor; [apply Qcle_refl|constructor].
      * constructor; [left; reflexivity|constructor].
    + discriminate.
  - intros st st' Hb Hact Hj Hne Hstep.
    apply (above_threshold_step indptr indices deg alpha epsilon s st st' Hwf Ha'
             Hb); try assumption.
    intros u q Hq. right. apply Hact. rewrite Hq. left. reflexivity.
  - assumption.
  - exists (keys (st_p st)), (values (st_p st)).
    split; [apply calc_ppr_node_of_loop; assumption|].
    intros v x Hin Hne. rewrite combine_keys_values in Hin.
    rewrite Forall_forall in Hp. destruct (Hp _ Hin) as [E|H].
    + cbn [fst] in E. contradiction.
    + exact H.
Qed.

Lemma push_entries_reach_the_threshold_witness :
  exists ks vs,
    _calc_ppr_node 30 0 cycle_indptr cycle_indices cycle_deg half tenth
    = Ok (ks, vs) /\
    forall (v : Z) (x : Qc),
      In (v, x) (combine ks vs) -> v <> 0 ->
      (half * tenth * of_int (degree cycle_deg v) <= x)%Qc.
Proof.
  apply (push_entries_reach_the_threshold cycle_indptr cycle_indices cycle_deg
           half tenth 0 30).
  - reflexivity.
  - unfold is_node. simpl. lia.
  - reflexivity.
  - vm_compute. discriminate.
  - reflexivity.
  - vm_compute. lia.
Defined.
